(** * The map server of lantmateriet-map: token cache, tile proxy, POI cache,
      chat orchestrator and statistics merge

    A shallow embedding of the Express server (the file with the routes
    [/api/wmts], [/api/pois], [/api/chat], [/api/kommuner-sysselsattning])
    and the properties of its caches and handlers.

    Modelling conventions.
    - JavaScript values are the inductive [jsval]; objects are association
      lists in insertion order, read by own-property lookup.  Members
      inherited from [Object.prototype] and the enumeration order of
      index-like keys are outside the model: what depends on a lookup under
      a name that comes from a request or from a source is stated for names
      under which no member is inherited ([Object_prototype], [inherited]).
    - Numbers are exact rationals or [NaN]; rounding and the infinities of
      binary64 are outside the model.  The arithmetic of the server is on
      millisecond timestamps and on the lifetime of a token: what depends
      on its result is stated for integers that binary64 holds exactly
      ([exact]).
    - The parameters of a query are strings or absent.
    - A string is the UTF-8 encoding of the JavaScript string; the
      white-space class of [\s] and of [trim] is the one of the language, its
      characters given by their encodings.  Lengths count bytes: the server
      only tests them against zero.  Runtime functions whose result depends
      on Unicode tables, on the engine or on the framework ([JSON.parse],
      [parseFloat], [toLowerCase], [encodeURIComponent], the header Express
      stores for a content type, ...) are fields of the class [Builtins].
    - The conversion of an object to a string or a number is a field of
      [Builtins] and total.  The [TypeError] the engine raises on an object
      with an own [toString] is modelled in the chat handler, where a
      conversion decides whether a call is made and what is answered
      ([unconvertible]); elsewhere such objects are outside the model.
    - The outside world is an oracle: [clock] gives the successive readings
      of [Date.now()], [upstream] the outcome of the n-th [fetch].  Every
      [fetch] is recorded in the [trace].
    - A handler runs to completion; the interleaving of several requests at
      their [await]s is outside the model. *)

From Stdlib Require Import Ascii String ZArith QArith Lia Lqa.
From stdpp Require Import base option list strings pretty gmap fin_maps.

Set Warnings "-register-all".

Local Open Scope string_scope.
Local Open Scope Z_scope.
Local Open Scope list_scope.

(** ** JavaScript values *)

Module JS.

Inductive jsnum : Type :=
| NaN
| Fin (q : Q).

Inductive jsval : Type :=
| VUndef
| VNull
| VBool (b : bool)
| VNum (n : jsnum)
| VStr (s : string)
| VArr (l : list jsval)
| VObj (o : list (string * jsval)).

Definition object : Type := list (string * jsval).

Definition num_of_Z (z : Z) : jsnum := Fin (inject_Z z).

(** Arithmetic: [NaN] is absorbing. *)
Definition num_sub (a b : jsnum) : jsnum :=
  match a, b with
  | Fin x, Fin y => Fin (x - y)%Q
  | _, _ => NaN
  end.

Definition num_mul (a b : jsnum) : jsnum :=
  match a, b with
  | Fin x, Fin y => Fin (x * y)%Q
  | _, _ => NaN
  end.

Definition num_add (a b : jsnum) : jsnum :=
  match a, b with
  | Fin x, Fin y => Fin (x + y)%Q
  | _, _ => NaN
  end.

(** [a < b]: false as soon as one side is [NaN]. *)
Definition num_lt (a b : jsnum) : bool :=
  match a, b with
  | Fin x, Fin y => if Qlt_le_dec x y then true else false
  | _, _ => false
  end.

Definition num_is_zero (a : jsnum) : bool :=
  match a with
  | Fin x => Qeq_bool x 0
  | NaN => false
  end.

Definition isNaN (a : jsnum) : bool :=
  match a with NaN => true | Fin _ => false end.

(** ToBoolean. *)
Definition truthy (v : jsval) : bool :=
  match v with
  | VUndef | VNull => false
  | VBool b => b
  | VNum NaN => false
  | VNum n => negb (num_is_zero n)
  | VStr s => negb (String.eqb s EmptyString)
  | VArr _ | VObj _ => true
  end.

(** Own-property lookup, [o[k]] on an object: [undefined] when absent. *)
Fixpoint obj_lookup (o : object) (k : string) : option jsval :=
  match o with
  | [] => None
  | (k', v) :: o' => if String.eqb k' k then Some v else obj_lookup o' k
  end.

Definition obj_get (o : object) (k : string) : jsval :=
  match obj_lookup o k with
  | Some v => v
  | None => VUndef
  end.

(** [o[k] = v]: an existing key keeps its place, a new one goes last. *)
Fixpoint obj_set (o : object) (k : string) (v : jsval) : object :=
  match o with
  | [] => [(k, v)]
  | (k', v') :: o' =>
      if String.eqb k' k then (k', v) :: o' else (k', v') :: obj_set o' k v
  end.

Definition obj_keys (o : object) : list string := map fst o.

(** [a || b] and [a ?? b]. *)
Definition js_or (a b : jsval) : jsval := if truthy a then a else b.

Definition js_nullish (v : jsval) : bool :=
  match v with VUndef | VNull => true | _ => false end.

Definition js_coalesce (a b : jsval) : jsval := if js_nullish a then b else a.

(** The runtime functions the server calls and the model does not open. *)
Class Builtins : Type := {
  (** [JSON.parse]: [None] when it throws a [SyntaxError]. *)
  JSON_parse : string -> option jsval;
  JSON_stringify : jsval -> string;
  (** [parseFloat(v)]. *)
  parseFloat : jsval -> jsnum;
  (** [String.prototype.toLowerCase]. *)
  toLowerCase : string -> string;
  (** ToString and ToNumber on a value that is not already of the type. *)
  ToString_other : jsval -> string;
  ToNumber_other : jsval -> jsnum;
  encodeURIComponent : string -> string;
  (** [encodeURIComponent(s)] throws a [URIError]: [s] holds a lone
      surrogate. *)
  URIError : string -> bool;
  (** What [res.set('Content-Type', v)] stores: [v], with a [charset]
      parameter appended when [v] has none and its type has a default one. *)
  Content_Type : string -> string;
  (** [Buffer.from(s).toString('base64')]. *)
  base64 : string -> string;
  (** [new URLSearchParams(q).toString()]. *)
  URLSearchParams_toString : list (string * string) -> string;
}.

Section Coercions.
Context `{Builtins}.

Definition ToString (v : jsval) : string :=
  match v with
  | VStr s => s
  | VUndef => "undefined"
  | VNull => "null"
  | VBool true => "true"
  | VBool false => "false"
  | _ => ToString_other v
  end.

Definition ToNumber (v : jsval) : jsnum :=
  match v with
  | VNum n => n
  | VUndef => NaN
  | VNull => Fin 0
  | VBool true => Fin 1
  | VBool false => Fin 0
  | _ => ToNumber_other v
  end.
End Coercions.

End JS.
Import JS.

(** The characters that a string literal cannot hold directly. *)
Definition dquote : string := String (ascii_of_nat 34) EmptyString.
Definition newline : string := String (ascii_of_nat 10) EmptyString.

Fixpoint assoc {A} (l : list (string * A)) (k : string) : option A :=
  match l with
  | [] => None
  | (k', a) :: l' => if String.eqb k' k then Some a else assoc l' k
  end.

(** [l.join(sep)]. *)
Fixpoint join (sep : string) (l : list string) : string :=
  match l with
  | [] => EmptyString
  | [x] => x
  | x :: l' => x +:+ sep +:+ join sep l'
  end.

(** ** The outside world and the server's state *)

Record request : Type := {
  req_url : string;
  req_method : string;
  req_headers : list (string * string);
  req_body : string;
}.

(** What [fetch] resolves to. *)
Record response : Type := {
  status : Z;
  content_type : option string;
  body : string;
}.

(** [res.ok]. *)
Definition ok (r : response) : bool := (200 <=? status r) && (status r <=? 299).

Inductive fetch_result : Type :=
| Responded (r : response)
| Rejected (message : string).

Record env : Type := {
  (** the n-th reading of [Date.now()] *)
  clock : nat -> Z;
  (** the outcome of the n-th [fetch] of the process *)
  upstream : nat -> request -> fetch_result;
  (** the order in which the promises of a batch of n settle *)
  completion : nat -> list nat;
  LM_CLIENT_KEY : jsval;
  LM_CLIENT_SECRET : jsval;
  OPENROUTER_API_KEY : jsval;
}.

Record poi_entry : Type := { time : Z; data : jsval }.

Record scb_data : Type := { nameToKod : object; kodToValue : object }.

Record server : Type := {
  ticks : nat;
  trace : list request;
  cachedToken : jsval;
  tokenExpiry : jsnum;
  poiCache : gmap string poi_entry;
  scbCache_data : option scb_data;
  scbCache_ts : Z;
  geoCache_data : jsval;
  geoCache_ts : Z;
}.

(** The state of a freshly started process. *)
Definition boot : server := {|
  ticks := 0; trace := [];
  cachedToken := VNull; tokenExpiry := Fin 0;
  poiCache := ∅;
  scbCache_data := None; scbCache_ts := 0;
  geoCache_data := VNull; geoCache_ts := 0;
|}.

(** ** The monad of handlers: state and exceptions *)

Inductive exn : Type := Exn (message : string).

Definition message (e : exn) : string := match e with Exn m => m end.

Inductive outcome (A : Type) : Type :=
| Ret (a : A)
| Throw (e : exn).
Arguments Ret {A} a.
Arguments Throw {A} e.

Definition M (A : Type) : Type := env -> server -> outcome A * server.

Definition ret {A} (a : A) : M A := fun _ s => (Ret a, s).

Definition bind {A B} (m : M A) (k : A -> M B) : M B :=
  fun e s =>
    match m e s with
    | (Ret a, s') => k a e s'
    | (Throw x, s') => (Throw x, s')
    end.

Definition throw {A} (x : exn) : M A := fun _ s => (Throw x, s).

(** [try { m } catch (e) { h e }]. *)
Definition try_catch {A} (m : M A) (h : exn -> M A) : M A :=
  fun e s =>
    match m e s with
    | (Ret a, s') => (Ret a, s')
    | (Throw x, s') => h x e s'
    end.

Notation "x <- c ;; k" := (bind c (fun x => k))
  (at level 100, c at next level, right associativity).
Notation "c ;;; k" := (bind c (fun _ => k))
  (at level 100, right associativity).

Definition get : M server := fun _ s => (Ret s, s).
Definition ask : M env := fun e s => (Ret e, s).
Definition modify (f : server -> server) : M unit := fun _ s => (Ret tt, f s).

(** The updates of the state, one per field. *)
Definition tick (s : server) : server :=
  {| ticks := S (ticks s); trace := trace s;
     cachedToken := cachedToken s; tokenExpiry := tokenExpiry s;
     poiCache := poiCache s;
     scbCache_data := scbCache_data s; scbCache_ts := scbCache_ts s;
     geoCache_data := geoCache_data s; geoCache_ts := geoCache_ts s |}.

Definition log (rq : request) (s : server) : server :=
  {| ticks := ticks s; trace := trace s ++ [rq];
     cachedToken := cachedToken s; tokenExpiry := tokenExpiry s;
     poiCache := poiCache s;
     scbCache_data := scbCache_data s; scbCache_ts := scbCache_ts s;
     geoCache_data := geoCache_data s; geoCache_ts := geoCache_ts s |}.

Definition with_cachedToken (v : jsval) (s : server) : server :=
  {| ticks := ticks s; trace := trace s;
     cachedToken := v; tokenExpiry := tokenExpiry s;
     poiCache := poiCache s;
     scbCache_data := scbCache_data s; scbCache_ts := scbCache_ts s;
     geoCache_data := geoCache_data s; geoCache_ts := geoCache_ts s |}.

Definition with_tokenExpiry (n : jsnum) (s : server) : server :=
  {| ticks := ticks s; trace := trace s;
     cachedToken := cachedToken s; tokenExpiry := n;
     poiCache := poiCache s;
     scbCache_data := scbCache_data s; scbCache_ts := scbCache_ts s;
     geoCache_data := geoCache_data s; geoCache_ts := geoCache_ts s |}.

Definition with_poiCache (m : gmap string poi_entry) (s : server) : server :=
  {| ticks := ticks s; trace := trace s;
     cachedToken := cachedToken s; tokenExpiry := tokenExpiry s;
     poiCache := m;
     scbCache_data := scbCache_data s; scbCache_ts := scbCache_ts s;
     geoCache_data := geoCache_data s; geoCache_ts := geoCache_ts s |}.

Definition with_scbCache_data (d : option scb_data) (s : server) : server :=
  {| ticks := ticks s; trace := trace s;
     cachedToken := cachedToken s; tokenExpiry := tokenExpiry s;
     poiCache := poiCache s;
     scbCache_data := d; scbCache_ts := scbCache_ts s;
     geoCache_data := geoCache_data s; geoCache_ts := geoCache_ts s |}.

Definition with_scbCache_ts (t : Z) (s : server) : server :=
  {| ticks := ticks s; trace := trace s;
     cachedToken := cachedToken s; tokenExpiry := tokenExpiry s;
     poiCache := poiCache s;
     scbCache_data := scbCache_data s; scbCache_ts := t;
     geoCache_data := geoCache_data s; geoCache_ts := geoCache_ts s |}.

Definition with_geoCache_data (d : jsval) (s : server) : server :=
  {| ticks := ticks s; trace := trace s;
     cachedToken := cachedToken s; tokenExpiry := tokenExpiry s;
     poiCache := poiCache s;
     scbCache_data := scbCache_data s; scbCache_ts := scbCache_ts s;
     geoCache_data := d; geoCache_ts := geoCache_ts s |}.

Definition with_geoCache_ts (t : Z) (s : server) : server :=
  {| ticks := ticks s; trace := trace s;
     cachedToken := cachedToken s; tokenExpiry := tokenExpiry s;
     poiCache := poiCache s;
     scbCache_data := scbCache_data s; scbCache_ts := scbCache_ts s;
     geoCache_data := geoCache_data s; geoCache_ts := t |}.

(** [Date.now()]: the next reading of the clock. *)
Definition Date_now : M Z :=
  fun e s => (Ret (clock e (ticks s)), tick s).

(** [await fetch(...)]: the request is recorded, the oracle answers. *)
Definition fetch (rq : request) : M response :=
  fun e s =>
    match upstream e (length (trace s)) rq with
    | Responded r => (Ret r, log rq s)
    | Rejected m => (Throw (Exn m), log rq s)
    end.

Definition set_cachedToken (v : jsval) : M unit := modify (with_cachedToken v).
Definition set_tokenExpiry (n : jsnum) : M unit := modify (with_tokenExpiry n).
Definition set_poiCache (m : gmap string poi_entry) : M unit := modify (with_poiCache m).
Definition set_scbCache_data (d : option scb_data) : M unit := modify (with_scbCache_data d).
Definition set_scbCache_ts (t : Z) : M unit := modify (with_scbCache_ts t).
Definition set_geoCache_data (d : jsval) : M unit := modify (with_geoCache_data d).
Definition set_geoCache_ts (t : Z) : M unit := modify (with_geoCache_ts t).

(** What a handler answers through [res]. *)
Inductive payload : Type :=
| Json (v : jsval)
| Text (s : string)
| Bytes (s : string).

Record reply : Type := {
  code : Z;
  headers : list (string * string);
  sent : payload;
}.

(** [res.status(500).json({ error: e.message })]. *)
Definition internal_error (e : exn) : reply :=
  {| code := 500; headers := [];
     sent := Json (VObj [("error", VStr (message e))]) |}.

Section Server.
Context `{Builtins}.

(** A member read [v.k] for a named member [k]: a [TypeError] on
    [undefined] and [null]. *)
Definition describe (v : jsval) : string :=
  match v with VNull => "null" | _ => "undefined" end.

Definition TypeError_read (v : jsval) (k : string) : exn :=
  Exn ("Cannot read properties of " +:+ describe v +:+ " (reading '" +:+ k +:+ "')").

Definition js_length (v : jsval) : jsval :=
  match v with
  | VArr l => VNum (num_of_Z (Z.of_nat (length l)))
  | VStr s => VNum (num_of_Z (Z.of_nat (String.length s)))
  | VObj o => obj_get o "length"
  | _ => VUndef
  end.

Definition member (v : jsval) (k : string) : M jsval :=
  match v with
  | VUndef | VNull => throw (TypeError_read v k)
  | VObj o => ret (obj_get o k)
  | VArr _ | VStr _ => ret (if String.eqb k "length" then js_length v else VUndef)
  | _ => ret VUndef
  end.

(** [await res.json()]. *)
Definition res_json (r : response) : M jsval :=
  match JSON_parse (body r) with
  | Some v => ret v
  | None => throw (Exn "Unexpected token in JSON")
  end.

(** ** The credential cache *)

Definition TOKEN_URL : string := "https://apimanager.lantmateriet.se/oauth2/token".
Definition WMTS_BASE : string := "https://maps.lantmateriet.se/open/topowebb-ccby/v1/wmts".

Definition token_request (e : env) : request :=
  let creds := base64 (ToString (LM_CLIENT_KEY e) +:+ ":" +:+ ToString (LM_CLIENT_SECRET e)) in
  {| req_url := TOKEN_URL;
     req_method := "POST";
     req_headers := [("Authorization", "Basic " +:+ creds);
                     ("Content-Type", "application/x-www-form-urlencoded")];
     req_body := "grant_type=client_credentials" |}.

Definition getToken : M jsval :=
  s <- get ;;
  hit <- (if truthy (cachedToken s)
          then (now <- Date_now ;; ret (num_lt (num_of_Z now) (tokenExpiry s)))
          else ret false) ;;
  if hit : bool then ret (cachedToken s)
  else
    e <- ask ;;
    res <- fetch (token_request e) ;;
    data <- res_json res ;;
    access_token <- member data "access_token" ;;
    set_cachedToken access_token ;;;
    now <- Date_now ;;
    expires_in <- member data "expires_in" ;;
    set_tokenExpiry
      (num_add (num_of_Z now)
         (num_mul (num_sub (ToNumber expires_in) (Fin 300)) (Fin 1000))) ;;;
    ret access_token.

(** ** The tile proxy: [app.get('/api/wmts')] *)

Definition tile_request (url : string) (token : jsval) : request :=
  {| req_url := url;
     req_method := "GET";
     req_headers := [("Authorization", "Bearer " +:+ ToString token)];
     req_body := EmptyString |}.

Definition tile_failed (r : response) : reply :=
  {| code := status r; headers := []; sent := Text "WMTS request failed" |}.

Definition tile_ok (r : response) : reply :=
  {| code := 200;
     headers := [("Content-Type",
                  Content_Type (default "application/octet-stream"
                                  (match content_type r with
                                   | Some EmptyString => None
                                   | c => c
                                   end)));
                 ("Cache-Control", "public, max-age=86400")];
     sent := Bytes (body r) |}.

Definition wmts (query : list (string * string)) : M reply :=
  try_catch
    (token <- getToken ;;
     let qs := URLSearchParams_toString query in
     let url := WMTS_BASE +:+ "?" +:+ qs in
     wmtsRes <- fetch (tile_request url token) ;;
     if status wmtsRes =? 401 then
       set_cachedToken VNull ;;;
       set_tokenExpiry (Fin 0) ;;;
       newToken <- getToken ;;
       retryRes <- fetch (tile_request url newToken) ;;
       if negb (ok retryRes) then ret (tile_failed retryRes)
       else ret (tile_ok retryRes)
     else if negb (ok wmtsRes) then ret (tile_failed wmtsRes)
     else ret (tile_ok wmtsRes))
    (fun e => ret (internal_error e)).

(** ** The POI cache and proxy: [app.get('/api/pois')] *)

Definition POI_CATEGORIES : list (string * (string * string)) :=
  [("restauranger", ("amenity", "restaurant"));
   ("kafeer", ("amenity", "cafe"));
   ("parker", ("leisure", "park"));
   ("laddstationer", ("amenity", "charging_station"));
   ("busshallplatser", ("highway", "bus_stop"))].

Definition OVERPASS_URL : string := "https://overpass-api.de/api/interpreter".
Definition POI_CACHE_TTL : Z := 5 * 60 * 1000.

(** [s.split(',')]. *)
Fixpoint split_comma (s : string) : list string :=
  match s with
  | EmptyString => [EmptyString]
  | String c s' =>
      if Ascii.eqb c ","%char then EmptyString :: split_comma s'
      else match split_comma s' with
           | x :: l => String c x :: l
           | [] => [String c EmptyString]
           end
  end.

(** An element of a destructured array, inside a template literal. *)
Definition piece (l : list string) (i : nat) : string :=
  default "undefined" (l !! i).

Definition overpass_query (cat : string * string) (bbox : string) : string :=
  let parts := split_comma bbox in
  "[out:json][timeout:10];node[" +:+ dquote +:+ fst cat +:+ dquote +:+ "="
    +:+ dquote +:+ snd cat +:+ dquote +:+ "]("
    +:+ piece parts 0 +:+ "," +:+ piece parts 1 +:+ ","
    +:+ piece parts 2 +:+ "," +:+ piece parts 3 +:+ ");out body;".

Definition overpass_request (cat : string * string) (bbox : string) : request :=
  {| req_url := OVERPASS_URL;
     req_method := "POST";
     req_headers := [("Content-Type", "application/x-www-form-urlencoded")];
     req_body := "data=" +:+ encodeURIComponent (overpass_query cat bbox) |}.

(** The callback of [.map]: one Overpass element to the POI shape. *)
Definition poi_of_element (el : jsval) : M jsval :=
  id <- member el "id" ;;
  tags <- member el "tags" ;;
  name <- (if js_nullish tags then ret VUndef else member tags "name") ;;
  lat <- member el "lat" ;;
  lon <- member el "lon" ;;
  ret (VObj [("id", id);
             ("name", js_or name (VStr EmptyString));
             ("lat", lat);
             ("lon", lon);
             ("tags", js_or tags (VObj []))]).

Fixpoint mapM {A B} (f : A -> M B) (l : list A) : M (list B) :=
  match l with
  | [] => ret []
  | a :: l' => b <- f a ;; bs <- mapM f l' ;; ret (b :: bs)
  end.

(** [v.map(f)] on a value: only arrays have the method. *)
Definition js_map (what : string) (f : jsval -> M jsval) (v : jsval) : M jsval :=
  match v with
  | VArr l => l' <- mapM f l ;; ret (VArr l')
  | VUndef | VNull => throw (TypeError_read v "map")
  | _ => throw (Exn (what +:+ ".map is not a function"))
  end.

(** The staleness sweep over the whole map. *)
Definition sweep (now : Z) (m : gmap string poi_entry) : gmap string poi_entry :=
  filter (fun kv => ¬ (now - time (snd kv) > POI_CACHE_TTL)) m.

(** [poiCache.set(cacheKey, ...)] and the eviction that follows it. *)
Definition store_pois (cacheKey : string) (pois : jsval) : M unit :=
  t <- Date_now ;;
  s1 <- get ;;
  set_poiCache (<[cacheKey := {| time := t; data := pois |}]> (poiCache s1)) ;;;
  s2 <- get ;;
  if decide (200 < size (poiCache s2))%nat then
    now <- Date_now ;;
    set_poiCache (sweep now (poiCache s2))
  else ret tt.

Definition bad_request (msg : string) : reply :=
  {| code := 400; headers := []; sent := Json (VObj [("error", VStr msg)]) |}.

(** The handler after the cache gave nothing: the Overpass query and the
    insertion of its result. *)
Definition query_overpass (cat : string * string) (bbox cacheKey : string) : M reply :=
  overpassRes <- fetch (overpass_request cat bbox) ;;
  if negb (ok overpassRes) then
    ret {| code := 502; headers := [];
           sent := Json (VObj [("error", VStr "Overpass API error")]) |}
  else
    data <- res_json overpassRes ;;
    elements <- member data "elements" ;;
    pois <- js_map "(data.elements || [])" poi_of_element
              (js_or elements (VArr [])) ;;
    store_pois cacheKey pois ;;;
    ret {| code := 200; headers := []; sent := Json pois |}.

Definition pois (category bbox : option string) : M reply :=
  try_catch
    (match (c ← category; assoc POI_CATEGORIES c) with
     | None =>
         ret (bad_request ("Unknown category. Valid: "
                           +:+ join ", " (map fst POI_CATEGORIES)))
     | Some cat =>
         match bbox with
         | None | Some EmptyString =>
             ret (bad_request "bbox required (south,west,north,east)")
         | Some bbox =>
             let cacheKey := default "undefined" category +:+ ":" +:+ bbox in
             s <- get ;;
             match poiCache s !! cacheKey with
             | Some cached =>
                 now <- Date_now ;;
                 if decide (now - time cached < POI_CACHE_TTL)
                 then ret {| code := 200; headers := []; sent := Json (data cached) |}
                 else query_overpass cat bbox cacheKey
             | None => query_overpass cat bbox cacheKey
             end
         end
     end)
    (fun e => ret (internal_error e)).

(** ** The chat orchestrator: [app.post('/api/chat')] *)

Definition OPENROUTER_URL : string := "https://openrouter.ai/api/v1/chat/completions".
Definition CHAT_MODEL : string := "google/gemini-2.5-flash".

Definition fence : string := "```".

Definition SYSTEM_PROMPT : string :=
  "Du är en kunnig guide för Sverige och Norden. Användaren ställer frågor om platser, sevärdheter, historiska händelser och geografi."
  +:+ newline +:+ newline +:+
  "VIKTIGT: Du ska ALLTID inkludera platser med koordinater i ditt svar. Formatera dem i ett JSON-block markerat med ```places och ```:"
  +:+ newline +:+ newline +:+
  "```places" +:+ newline +:+
  "[{" +:+ dquote +:+ "name" +:+ dquote +:+ ": " +:+ dquote +:+ "Platsnamn" +:+ dquote
  +:+ ", " +:+ dquote +:+ "lat" +:+ dquote +:+ ": 59.123, "
  +:+ dquote +:+ "lon" +:+ dquote +:+ ": 18.456, "
  +:+ dquote +:+ "description" +:+ dquote +:+ ": " +:+ dquote +:+ "Kort beskrivning" +:+ dquote +:+ "}]"
  +:+ newline +:+
  "```" +:+ newline +:+ newline +:+
  "Regler:" +:+ newline +:+
  "- Svara alltid på svenska" +:+ newline +:+
  "- Inkludera alltid minst en plats med koordinater" +:+ newline +:+
  "- Koordinaterna ska vara korrekta WGS84 (lat/lon)" +:+ newline +:+
  "- Ge en informativ textbeskrivning utöver platserna" +:+ newline +:+
  "- Om frågan handlar om flera platser, inkludera alla relevanta platser i JSON-blocket".

Definition chat_request (apiKey : jsval) (message : jsval) : request :=
  {| req_url := OPENROUTER_URL;
     req_method := "POST";
     req_headers := [("Content-Type", "application/json");
                     ("Authorization", "Bearer " +:+ ToString apiKey)];
     req_body :=
       JSON_stringify
         (VObj [("model", VStr CHAT_MODEL);
                ("messages",
                 VArr [VObj [("role", VStr "system"); ("content", VStr SYSTEM_PROMPT)];
                       VObj [("role", VStr "user"); ("content", message)]])]) |}.

(** The string of the given bytes. *)
Definition utf8 (bytes : list nat) : string :=
  fold_right (fun b s => String (ascii_of_nat b) s) EmptyString bytes.

(** The class [\s], also the characters [trim] removes: the white space
    and the line terminators of the language, each as its UTF-8 encoding.
    They are TAB, LF, VT, FF, CR, SP, U+00A0, U+1680, U+2000 to U+200A,
    U+2028, U+2029, U+202F, U+205F, U+3000 and U+FEFF. *)
Definition WhiteSpace : list string :=
  map utf8
   ([[9]; [10]; [11]; [12]; [13]; [32];
     [194; 160];
     [225; 154; 128];
     [226; 128; 128]; [226; 128; 129]; [226; 128; 130]; [226; 128; 131];
     [226; 128; 132]; [226; 128; 133]; [226; 128; 134]; [226; 128; 135];
     [226; 128; 136]; [226; 128; 137]; [226; 128; 138];
     [226; 128; 168]; [226; 128; 169]; [226; 128; 175];
     [226; 129; 159];
     [227; 128; 128];
     [239; 187; 191]])%nat.

(** [s.startsWith(p)]. *)
Fixpoint starts_with (p s : string) {struct p} : bool :=
  match p with
  | EmptyString => true
  | String a p' =>
      match s with
      | String b s' => Ascii.eqb a b && starts_with p' s'
      | EmptyString => false
      end
  end.

(** The number of bytes of the white-space character that [s] starts
    with; 0 when it starts with none. *)
Definition space_width (s : string) : nat :=
  match List.find (fun w => starts_with w s) WhiteSpace with
  | Some w => String.length w
  | None => 0
  end.

Definition is_newline (c : ascii) : bool := Ascii.eqb c (ascii_of_nat 10).

Fixpoint drop_chars (n : nat) (s : string) : string :=
  match n, s with
  | S n', String _ s' => drop_chars n' s'
  | _, _ => s
  end.

(** [([\s\S]*?)\n```]: the shortest capture followed by a closing fence;
    the result is the capture and what follows the fence. *)
Fixpoint find_close (s : string) : option (string * string) :=
  if String.prefix (newline +:+ fence) s then Some (EmptyString, drop_chars 4 s)
  else match s with
       | String c s' =>
           match find_close s' with
           | Some (cap, post) => Some (String c cap, post)
           | None => None
           end
       | EmptyString => None
       end.

(** [\s*\n] and the rest: [\s*] is greedy, so a white-space character is
    first given to it, and is tried as the [\n] only when that fails.
    [skip] counts the bytes that are left of the character being read. *)
Fixpoint after_tag_from (skip : nat) (s : string) : option (string * string) :=
  match s with
  | String c s' =>
      match skip with
      | S k => after_tag_from k s'
      | O =>
          match space_width s with
          | S k =>
              match after_tag_from k s' with
              | Some r => Some r
              | None => if is_newline c then find_close s' else None
              end
          | O => None
          end
      end
  | EmptyString => None
  end.

Definition after_tag (s : string) : option (string * string) := after_tag_from 0 s.

(** [content.match(/```places\s*\n([\s\S]*?)\n```/)]: the leftmost match,
    as what precedes it, its capture group and what follows it. *)
Fixpoint places_match (s : string) : option (string * string * string) :=
  let here :=
    if String.prefix (fence +:+ "places") s then after_tag (drop_chars 9 s)
    else None in
  match here with
  | Some (cap, post) => Some (EmptyString, cap, post)
  | None =>
      match s with
      | String c s' =>
          match places_match s' with
          | Some (pre, cap, post) => Some (String c pre, cap, post)
          | None => None
          end
      | EmptyString => None
      end
  end.

(** The string is a run of white-space characters. *)
Fixpoint all_space_from (skip : nat) (s : string) : bool :=
  match s with
  | String _ s' =>
      match skip with
      | S k => all_space_from k s'
      | O => match space_width s with
             | S k => all_space_from k s'
             | O => false
             end
      end
  | EmptyString => Nat.eqb skip 0
  end.

Definition all_space (s : string) : bool := all_space_from 0 s.

(** [s.trim()]: the white space is removed at the start, then at the end. *)
Fixpoint trim_start_from (skip : nat) (s : string) : string :=
  match s with
  | String _ s' =>
      match skip with
      | S k => trim_start_from k s'
      | O => match space_width s with
             | S k => trim_start_from k s'
             | O => s
             end
      end
  | EmptyString => EmptyString
  end.

Definition trim_start (s : string) : string := trim_start_from 0 s.

Fixpoint trim_end (s : string) : string :=
  if all_space s then EmptyString
  else match s with
       | String c s' => String c (trim_end s')
       | EmptyString => EmptyString
       end.

Definition trim (s : string) : string := trim_end (trim_start s).

(** [v[i]]: a [TypeError] on [undefined] and [null]. *)
Definition char_at (s : string) (i : nat) : jsval :=
  match String.get i s with
  | Some c => VStr (String c EmptyString)
  | None => VUndef
  end.

Definition js_index (v : jsval) (i : nat) : jsval :=
  match v with
  | VArr l => default VUndef (l !! i)
  | VStr s => char_at s i
  | VObj o => obj_get o (pretty i)
  | _ => VUndef
  end.

Definition index (v : jsval) (i : nat) : M jsval :=
  match v with
  | VUndef | VNull => throw (TypeError_read v (pretty i))
  | _ => ret (js_index v i)
  end.

(** [v?.[i]] and [v?.k]. *)
Definition opt_index (v : jsval) (i : nat) : jsval :=
  if js_nullish v then VUndef else js_index v i.

Definition opt_member (v : jsval) (k : string) : jsval :=
  match v with
  | VObj o => obj_get o k
  | VArr _ | VStr _ => if String.eqb k "length" then js_length v else VUndef
  | _ => VUndef
  end.

(** The own enumerable properties that [{...v}] copies. *)
Fixpoint chars_from (i : nat) (s : string) : object :=
  match s with
  | EmptyString => []
  | String c s' => (pretty i, VStr (String c EmptyString)) :: chars_from (S i) s'
  end.

Definition spread (v : jsval) : object :=
  match v with
  | VObj o => o
  | VArr l => imap (fun i x => (pretty i, x)) l
  | VStr s => chars_from 0 s
  | _ => []
  end.

Definition nominatim_request (q : string) : request :=
  {| req_url := "https://nominatim.openstreetmap.org/search?format=json&countrycodes=se&limit=1&q=" +:+ q;
     req_method := "GET";
     req_headers := [("User-Agent", "SverigeKarta/1.0"); ("Accept-Language", "sv")];
     req_body := EmptyString |}.

(** [{ ...place, lat: correctedLat, lon: correctedLon }]. *)
Definition with_coordinates (place : jsval) (lat lon : jsnum) : jsval :=
  VObj (obj_set (obj_set (spread place) "lat" (VNum lat)) "lon" (VNum lon)).

(** The conversion of a value to a primitive fails.  The values of the
    server are JSON data and hold no function: an object with an own
    [toString] has none to call and its inherited [valueOf] returns the
    object, an array joins the conversions of its elements, [null] and
    [undefined] among them counting for the empty string. *)
Fixpoint unconvertible (v : jsval) : bool :=
  match v with
  | VObj o => match obj_lookup o "toString" with Some _ => true | None => false end
  | VArr l => existsb unconvertible l
  | _ => false
  end.

Definition TypeError_convert : exn :=
  Exn "Cannot convert object to primitive value".

(** ToString, ToNumber and [parseFloat] with their failure. *)
Definition to_string (v : jsval) : M string :=
  if unconvertible v then throw TypeError_convert else ret (ToString v).

Definition to_number (v : jsval) : M jsnum :=
  if unconvertible v then throw TypeError_convert else ret (ToNumber v).

Definition parse_float (v : jsval) : M jsnum :=
  if unconvertible v then throw TypeError_convert else ret (parseFloat v).

(** [encodeURIComponent] with its failure. *)
Definition encode (s : string) : M string :=
  if URIError s then throw (Exn "URI malformed") else ret (encodeURIComponent s).

(** A template literal that holds [v.k]. *)
Definition template (v : jsval) (k : string) : M unit :=
  x <- member v k ;;
  to_string x ;;;
  ret tt.

(** The callback of [places.map]: one geocoding lookup.  The line logged
    before the corrected place is returned holds the name and the
    coordinates of the place; the line logged by the handler of a failure
    holds its name, which is read again there. *)
Definition correct_place (place : jsval) : M jsval :=
  try_catch
    (name <- member place "name" ;;
     name <- to_string name ;;
     q <- encode name ;;
     nomRes <- fetch (nominatim_request q) ;;
     nomData <- res_json nomRes ;;
     len <- member nomData "length" ;;
     len <- to_number len ;;
     if num_lt (Fin 0) len then
       first <- index nomData 0 ;;
       lat <- member first "lat" ;;
       correctedLat <- parse_float lat ;;
       first' <- index nomData 0 ;;
       lon <- member first' "lon" ;;
       correctedLon <- parse_float lon ;;
       template place "name" ;;;
       template place "lat" ;;;
       template place "lon" ;;;
       ret (with_coordinates place correctedLat correctedLon)
     else ret place)
    (fun _ => template place "name" ;;; ret place).

(** The promise of an [async] call: it settles with the outcome of the
    call, and creating it never throws. *)
Definition settle {A} (m : M A) : M (outcome A) :=
  fun e s => (Ret (fst (m e s)), snd (m e s)).

(** The rejection of least index. *)
Fixpoint first_rejection {A} (l : list (outcome A)) : option exn :=
  match l with
  | [] => None
  | Throw x :: _ => Some x
  | Ret _ :: l' => first_rejection l'
  end.

Definition fulfilled (l : list (outcome jsval)) : list jsval :=
  map (fun o => match o with Ret v => v | Throw _ => VUndef end) l.

(** [Promise.all]: each result is stored at the index of its promise when
    the promise settles. *)
Definition Promise_all (order : list nat) (settled : list jsval) : list jsval :=
  foldl (fun acc i =>
           match settled !! i with
           | Some v => <[i := v]> acc
           | None => acc
           end)
        (replicate (length settled) VUndef) order.

Definition chat_reply (text : string) (places : jsval) : reply :=
  {| code := 200; headers := [];
     sent := Json (VObj [("text", VStr text); ("places", places)]) |}.

(** The handler from the reply of the model on: the places block is
    parsed and stripped, the places are looked up.  [places.map] calls the
    callback on every place, so every lookup is started whatever becomes of
    the others; a promise of this handler that rejects does so before its
    first [await], so [Promise.all] rejects with the rejection of least
    index. *)
Definition answer (content : string) : M reply :=
  e <- ask ;;
  let '(places, text) :=
    match places_match content with
    | Some (pre, cap, post) =>
        (default (VArr []) (JSON_parse cap), trim (pre +:+ post))
    | None => (VArr [], content)
    end in
  len <- member places "length" ;;
  len <- to_number len ;;
  places <- (if num_lt (Fin 0) len then
               match places with
               | VArr l =>
                   promises <- mapM (fun place => settle (correct_place place)) l ;;
                   match first_rejection promises with
                   | Some x => throw x
                   | None =>
                       ret (VArr (Promise_all (completion e (length promises))
                                    (fulfilled promises)))
                   end
               | _ => throw (Exn "places.map is not a function")
               end
             else ret places) ;;
  ret (chat_reply text places).

Definition chat (req_body : jsval) : M reply :=
  try_catch
    (message <- member req_body "message" ;;
     if negb (truthy message) then
       ret {| code := 400; headers := [];
              sent := Json (VObj [("error", VStr "message required")]) |}
     else
       e <- ask ;;
       let apiKey := OPENROUTER_API_KEY e in
       if negb (truthy apiKey)
          || match apiKey with
             | VStr k => String.eqb k "your-openrouter-api-key-here"
             | _ => false
             end
       then
         ret {| code := 500; headers := [];
                sent := Json (VObj [("error", VStr "OPENROUTER_API_KEY not configured")]) |}
       else
         match message with
         | VStr _ => ret tt
         | _ => throw (Exn "message.substring is not a function")
         end ;;;
         response <- fetch (chat_request apiKey message) ;;
         if negb (ok response) then
           ret {| code := 502; headers := [];
                  sent := Json (VObj [("error", VStr "AI API error")]) |}
         else
           data <- res_json response ;;
           choices <- member data "choices" ;;
           let content :=
             js_or (opt_member (opt_member (opt_index choices 0) "message") "content")
                   (VStr EmptyString) in
           match content with
           | VStr content => answer content
           | _ => throw (Exn "content.match is not a function")
           end)
    (fun e => ret (internal_error e)).

(** The promise of the lookup of [place] rejects: the name of the place
    cannot be read or converted, in the lookup and again in the handler of
    its failure. *)
Definition rejects (place : jsval) : bool :=
  js_nullish place || unconvertible (opt_member place "name").

Definition rejection (place : jsval) : exn :=
  if js_nullish place then TypeError_read place "name" else TypeError_convert.

(** The query of the request that the lookup of [place] makes; [None] when
    it makes none: its promise rejects, or the name cannot be encoded. *)
Definition lookup_query (place : jsval) : option string :=
  if rejects place then None
  else if URIError (ToString (opt_member place "name")) then None
  else Some (encodeURIComponent (ToString (opt_member place "name"))).

(** The first match the geocoder returned for [place], its request being
    the [n]-th of the process; [None] when no request was made, when the
    lookup failed or matched nothing, and when a coordinate of the match or
    of the place cannot be converted. *)
Definition geocoder_match (e : env) (n : nat) (place : jsval) : option jsval :=
  match lookup_query place with
  | None => None
  | Some q =>
      match upstream e n (nominatim_request q) with
      | Rejected _ => None
      | Responded nomRes =>
          match JSON_parse (body nomRes) with
          | None => None
          | Some nomData =>
              if js_nullish nomData then None
              else if unconvertible (opt_member nomData "length") then None
              else if num_lt (Fin 0) (ToNumber (opt_member nomData "length")) then
                let first := js_index nomData 0 in
                if js_nullish first then None
                else if unconvertible (opt_member first "lat")
                        || unconvertible (opt_member first "lon")
                        || unconvertible (opt_member place "lat")
                        || unconvertible (opt_member place "lon")
                then None
                else Some first
              else None
          end
      end
  end.

(** The place after its lookup, as the specification words it: the
    coordinates of the geocoder when there is a match, the place as it was
    otherwise. *)
Definition place_after (e : env) (n : nat) (place : jsval) : jsval :=
  match geocoder_match e n place with
  | Some first =>
      with_coordinates place (parseFloat (opt_member first "lat"))
                             (parseFloat (opt_member first "lon"))
  | None => place
  end.

(** The number of requests the lookup of a place makes. *)
Definition requests_of (place : jsval) : nat :=
  match lookup_query place with Some _ => 1%nat | None => 0%nat end.

(** The index, among the requests of the process, of the lookup of the
    [i]-th place when the first lookup is the [base]-th request. *)
Fixpoint request_index (base : nat) (places : list jsval) (i : nat) : nat :=
  match i, places with
  | S i', p :: places' => request_index (base + requests_of p) places' i'
  | _, _ => base
  end.

(** The promise of the lookup of the [i]-th place, the first lookup being
    the [base]-th request of the process. *)
Definition promise_of (e : env) (base : nat) (ps : list jsval) (i : nat)
    (p : jsval) : outcome jsval :=
  if rejects p then Throw (rejection p)
  else Ret (place_after e (request_index base ps i) p).

(** The request is valid, the credential is configured and the model
    answered [content]. *)
Definition model_answered (e : env) (s : server) (req_body : jsval)
    (content : string) : Prop :=
  exists message apiKey r data,
    opt_member req_body "message" = VStr message /\ message <> EmptyString /\
    OPENROUTER_API_KEY e = VStr apiKey /\ apiKey <> EmptyString /\
    apiKey <> "your-openrouter-api-key-here" /\
    upstream e (length (trace s)) (chat_request (VStr apiKey) (VStr message))
      = Responded r /\
    ok r = true /\
    JSON_parse (body r) = Some data /\ js_nullish data = false /\
    js_or (opt_member (opt_member (opt_index (opt_member data "choices") 0)
                         "message") "content")
          (VStr EmptyString) = VStr content.

(** ** The statistics merge: [app.get('/api/kommuner-sysselsattning')] *)

Definition SCB_TTL : Z := 24 * 60 * 60 * 1000.
Definition GEO_TTL : Z := 7 * 24 * 60 * 60 * 1000.
Definition SCB_URL : string :=
  "https://api.scb.se/OV0104/v1/doris/sv/ssd/AM/AM0210/AM0210D/ArRegArbStatus".
Definition GADM_URL : string :=
  "https://geodata.ucdavis.edu/gadm/gadm4.1/json/gadm41_SWE_2.json".

Definition get_request (url : string) : request :=
  {| req_url := url; req_method := "GET"; req_headers := []; req_body := EmptyString |}.

Definition is_digit (c : ascii) : bool :=
  (48 <=? N_of_ascii c)%N && (N_of_ascii c <=? 57)%N.

(** [/^\d{4}$/.test(s)]. *)
Definition four_digits (s : string) : bool :=
  match s with
  | String a (String b (String c (String d EmptyString))) =>
      is_digit a && is_digit b && is_digit c && is_digit d
  | _ => false
  end.

Definition is_string (v : jsval) (s : string) : bool :=
  match v with
  | VStr s' => String.eqb s' s
  | _ => false
  end.

(** [variables.find(v => v.code === 'Region')] on the elements. *)
Fixpoint find_region (vs : list jsval) : M jsval :=
  match vs with
  | [] => ret VUndef
  | v :: vs' =>
      code <- member v "code" ;;
      if is_string code "Region" then ret v else find_region vs'
  end.

(** The body of [regionVar.values.forEach((kod, i) => ...)], from index [i]. *)
Fixpoint region_codes (regionVar : jsval) (i : nat) (values : list jsval)
    (acc : object * list jsval) : M (object * list jsval) :=
  match values with
  | [] => ret acc
  | kod :: values' =>
      acc' <- (if four_digits (ToString kod) then
                 valueTexts <- member regionVar "valueTexts" ;;
                 text <- index valueTexts i ;;
                 ret (obj_set (fst acc) (ToString text) kod, snd acc ++ [kod])
               else ret acc) ;;
      region_codes regionVar (S i) values' acc'
  end.

Definition selection (code : string) (values : list jsval) : jsval :=
  VObj [("code", VStr code);
        ("selection", VObj [("filter", VStr "item"); ("values", VArr values)])].

Definition scbQuery (municipalityCodes : list jsval) : jsval :=
  VObj [("query",
         VArr [selection "Region" municipalityCodes;
               selection "Kon" [VStr "1+2"];
               selection "Alder" [VStr "16-64"];
               selection "Fodelseregion" [VStr "tot"];
               selection "ContentsCode" [VStr "000002NS"];
               selection "Tid" [VStr "2024"]]);
        ("response", VObj [("format", VStr "json")])].

Definition scb_data_request (municipalityCodes : list jsval) : request :=
  {| req_url := SCB_URL;
     req_method := "POST";
     req_headers := [("Content-Type", "application/json")];
     req_body := JSON_stringify (scbQuery municipalityCodes) |}.

Fixpoint chars (s : string) : list jsval :=
  match s with
  | EmptyString => []
  | String c s' => VStr (String c EmptyString) :: chars s'
  end.

(** What [for (const row of v)] goes through. *)
Definition iterate (what : string) (v : jsval) : M (list jsval) :=
  match v with
  | VArr l => ret l
  | VStr s => ret (chars s)
  | _ => throw (Exn (what +:+ " is not iterable"))
  end.

(** The body of [for (const row of (scbData.data || []))]. *)
Fixpoint region_values (rows : list jsval) (acc : object) : M object :=
  match rows with
  | [] => ret acc
  | row :: rows' =>
      key <- member row "key" ;;
      kod <- index key 0 ;;
      values <- member row "values" ;;
      v0 <- index values 0 ;;
      let value := parseFloat v0 in
      region_values rows'
        (if negb (isNaN value) then obj_set acc (ToString kod) (VNum value) else acc)
  end.

(** The [else] branch of step 1, up to the two tables: both SCB calls. *)
Definition fetch_scb : M scb_data :=
  metaRes <- fetch (get_request SCB_URL) ;;
  (if negb (ok metaRes)
   then throw (Exn ("SCB metadata HTTP " +:+ pretty (status metaRes)))
   else ret tt) ;;;
  meta <- res_json metaRes ;;
  variables <- member meta "variables" ;;
  regionVar <- match variables with
               | VArr l => find_region l
               | VUndef | VNull => throw (TypeError_read variables "find")
               | _ => throw (Exn "meta.variables.find is not a function")
               end ;;
  (if negb (truthy regionVar)
   then throw (Exn "SCB: Region variable not found in metadata")
   else ret tt) ;;;
  values <- member regionVar "values" ;;
  found <- match values with
           | VArr l => region_codes regionVar 0 l ([], [])
           | VUndef | VNull => throw (TypeError_read values "forEach")
           | _ => throw (Exn "regionVar.values.forEach is not a function")
           end ;;
  let '(nameToKod, municipalityCodes) := found in
  dataRes <- fetch (scb_data_request municipalityCodes) ;;
  (if negb (ok dataRes)
   then throw (Exn ("SCB data HTTP " +:+ pretty (status dataRes) +:+ ": "
                    +:+ substring 0 200 (body dataRes)))
   else ret tt) ;;;
  scbData <- res_json dataRes ;;
  rows <- member scbData "data" ;;
  rows <- iterate "(scbData.data || [])" (js_or rows (VArr [])) ;;
  kodToValue <- region_values rows [] ;;
  ret {| nameToKod := nameToKod; kodToValue := kodToValue |}.

(** The [else] branch of step 1: the tables are fetched, then the cache is
    set. *)
Definition refresh_scb : M scb_data :=
  d <- fetch_scb ;;
  set_scbCache_data (Some d) ;;;
  now <- Date_now ;;
  set_scbCache_ts now ;;;
  ret d.

(** Step 1: the statistics, from the cache or refreshed. *)
Definition read_scb : M scb_data :=
  s <- get ;;
  match scbCache_data s with
  | Some d =>
      now <- Date_now ;;
      if decide (now - scbCache_ts s < SCB_TTL) then ret d else refresh_scb
  | None => refresh_scb
  end.

(** The [else] branch of step 2, up to the collection. *)
Definition fetch_geo : M jsval :=
  geoRes <- fetch (get_request GADM_URL) ;;
  (if negb (ok geoRes)
   then throw (Exn ("GADM HTTP " +:+ pretty (status geoRes)))
   else ret tt) ;;;
  res_json geoRes.

(** The [else] branch of step 2: the collection is fetched and the cache
    is set, then the log line reads [gadmGeo.features.length]. *)
Definition refresh_geo : M jsval :=
  gadmGeo <- fetch_geo ;;
  set_geoCache_data gadmGeo ;;;
  now <- Date_now ;;
  set_geoCache_ts now ;;;
  features <- member gadmGeo "features" ;;
  _ <- member features "length" ;;
  ret gadmGeo.

(** Step 2: the boundaries, from the cache or refreshed. *)
Definition read_geo : M jsval :=
  s <- get ;;
  if truthy (geoCache_data s) then
    now <- Date_now ;;
    if decide (now - geoCache_ts s < GEO_TTL) then ret (geoCache_data s)
    else refresh_geo
  else refresh_geo.

(** The case-insensitive fallback map. *)
Definition lower_names (nameToKod : object) : object :=
  foldl (fun acc kv => obj_set acc (toLowerCase (fst kv)) (snd kv)) [] nameToKod.

(** [f => f.properties.ENGTYPE_2 === 'Municipality']. *)
Definition is_municipality (f : jsval) : M bool :=
  properties <- member f "properties" ;;
  engtype <- member properties "ENGTYPE_2" ;;
  ret (is_string engtype "Municipality").

Fixpoint filterM {A} (p : A -> M bool) (l : list A) : M (list A) :=
  match l with
  | [] => ret []
  | a :: l' =>
      b <- p a ;;
      r <- filterM p l' ;;
      ret (if b : bool then a :: r else r)
  end.

(** [nameToKod[name2] || nameLower[name2.toLowerCase()] || null]. *)
Definition resolve_kod (d : scb_data) (nameLower : object) (name2 : jsval) : M jsval :=
  let exact := obj_get (nameToKod d) (ToString name2) in
  if truthy exact then ret exact
  else match name2 with
       | VStr s => ret (js_or (obj_get nameLower (toLowerCase s)) VNull)
       | _ => throw (Exn "name2.toLowerCase is not a function")
       end.

(** [kod ? (kodToValue[kod] ?? null) : null]. *)
Definition value_of (d : scb_data) (kod : jsval) : jsval :=
  if truthy kod then js_coalesce (obj_get (kodToValue d) (ToString kod)) VNull
  else VNull.

(** The callback of [.map]: the feature with [kod] and [sysselsattning]. *)
Definition merge_feature (d : scb_data) (nameLower : object) (f : jsval) : M jsval :=
  properties <- member f "properties" ;;
  NAME_2 <- member properties "NAME_2" ;;
  let name2 := js_or NAME_2 (VStr EmptyString) in
  kod <- resolve_kod d nameLower name2 ;;
  let sysselsattning := value_of d kod in
  ret (VObj (obj_set (spread f) "properties"
               (VObj (obj_set (obj_set (spread properties) "kod" kod)
                        "sysselsattning" sysselsattning)))).

(** Step 3. *)
Definition merge (d : scb_data) (gadmGeo : jsval) : M (list jsval) :=
  let nameLower := lower_names (nameToKod d) in
  features <- member gadmGeo "features" ;;
  match features with
  | VArr l =>
      municipalities <- filterM is_municipality l ;;
      mapM (merge_feature d nameLower) municipalities
  | VUndef | VNull => throw (TypeError_read features "filter")
  | _ => throw (Exn "gadmGeo.features.filter is not a function")
  end.

Definition feature_collection (features : list jsval) : reply :=
  {| code := 200; headers := [];
     sent := Json (VObj [("type", VStr "FeatureCollection");
                         ("features", VArr features)]) |}.

Definition kommuner_sysselsattning : M reply :=
  try_catch
    (d <- read_scb ;;
     gadmGeo <- read_geo ;;
     features <- merge d gadmGeo ;;
     ret (feature_collection features))
    (fun e => ret (internal_error e)).

(** *** The merge as the specification words it *)

(** The code of the last region whose lower-cased name is [lname]. *)
Fixpoint last_insensitive (nameToKod : object) (lname : string) : option jsval :=
  match nameToKod with
  | [] => None
  | (n, kod) :: rest =>
      match last_insensitive rest lname with
      | Some k => Some k
      | None => if String.eqb (toLowerCase n) lname then Some kod else None
      end
  end.

(** Exact match first, then the case-insensitive one, then [null]. *)
Definition resolve_spec (nameToKod : object) (name : string) : jsval :=
  match obj_lookup nameToKod name with
  | Some kod => kod
  | None =>
      match last_insensitive nameToKod (toLowerCase name) with
      | Some kod => kod
      | None => VNull
      end
  end.

(** The feature is at the target administrative level. *)
Definition target_level (f : jsval) : bool :=
  is_string (opt_member (opt_member f "properties") "ENGTYPE_2") "Municipality".

(** [f.properties.NAME_2 || '']. *)
Definition region_name (f : jsval) : jsval :=
  js_or (opt_member (opt_member f "properties") "NAME_2") (VStr EmptyString).

(** A feature of a boundary collection as the source delivers them: an
    object with a [properties] object, the name of a region being a string
    when there is one. *)
Definition well_formed_feature (f : jsval) : Prop :=
  js_nullish f = false /\
  js_nullish (opt_member f "properties") = false /\
  (target_level f = true -> exists name, region_name f = VStr name).

(** The codes of the name table are truthy, as four-digit strings are. *)
Definition codes_truthy (nameToKod : object) : Prop :=
  Forall (fun nk => truthy (snd nk) = true) nameToKod.

(** The output feature [o] carries the code and the value that the name
    of [f] resolves to; both are [null] when the name matches neither way. *)
Definition resolved (d : scb_data) (f o : jsval) : Prop :=
  exists name,
    region_name f = VStr name /\
    let kod := resolve_spec (nameToKod d) name in
    opt_member (opt_member o "properties") "kod" = kod /\
    opt_member (opt_member o "properties") "sysselsattning" = value_of d kod /\
    (obj_lookup (nameToKod d) name = None ->
     last_insensitive (nameToKod d) (toLowerCase name) = None ->
     opt_member (opt_member o "properties") "kod" = VNull /\
     opt_member (opt_member o "properties") "sysselsattning" = VNull).

(** What the merge may change of a feature and what it may not. *)
Definition framed (d : scb_data) (f o : jsval) : Prop :=
  exists fo po oo po',
    f = VObj fo /\ obj_lookup fo "properties" = Some (VObj po) /\
    o = VObj oo /\ obj_lookup oo "properties" = Some (VObj po') /\
    (forall k, k <> "properties" -> obj_lookup oo k = obj_lookup fo k) /\
    obj_keys oo = obj_keys fo /\
    (forall k, k <> "kod" -> k <> "sysselsattning" ->
               obj_lookup po' k = obj_lookup po k) /\
    (forall k, In k (obj_keys po') <->
               In k (obj_keys po) \/ k = "kod" \/ k = "sysselsattning") /\
    (exists kod, obj_lookup po' "kod" = Some kod /\
                 obj_lookup po' "sysselsattning" = Some (value_of d kod)) /\
    obj_lookup oo "geometry" = obj_lookup fo "geometry".

(** The caches hold a value that is still within its TTL at the next
    reading of the clock. *)
Definition poi_fresh (e : env) (s : server) (key : string) : Prop :=
  exists entry, poiCache s !! key = Some entry /\
                clock e (ticks s) - time entry < POI_CACHE_TTL.

Definition scb_fresh (e : env) (s : server) : Prop :=
  exists d, scbCache_data s = Some d /\
            clock e (ticks s) - scbCache_ts s < SCB_TTL.

Definition geo_fresh (e : env) (s : server) : Prop :=
  truthy (geoCache_data s) = true /\
  clock e (ticks s) - geoCache_ts s < GEO_TTL.

(** The clock never goes back. *)
Definition monotone (e : env) : Prop :=
  forall i j, (i <= j)%nat -> clock e i <= clock e j.

(** The test at the head of [getToken]. *)
Definition token_hit (e : env) (s : server) : bool :=
  truthy (cachedToken s) && num_lt (num_of_Z (clock e (ticks s))) (tokenExpiry s).

(** The URL the tile proxy calls. *)
Definition tile_url (query : list (string * string)) : string :=
  WMTS_BASE +:+ "?" +:+ URLSearchParams_toString query.

(** [n] calls of [m], one after the other. *)
Fixpoint repeatM {A} (n : nat) (m : M A) : M (list A) :=
  match n with
  | O => ret []
  | S n' => a <- m ;; l <- repeatM n' m ;; ret (a :: l)
  end.

End Server.

(** ** Notions for the properties of the handlers *)

Section Notions.
Context `{Builtins}.

(** The names every object inherits from [Object.prototype]: a lookup
    [o[k]] of the source finds a member under them whatever the own
    properties of [o]. *)
Definition Object_prototype : list string :=
  ["constructor"; "__proto__"; "hasOwnProperty"; "isPrototypeOf";
   "propertyIsEnumerable"; "toLocaleString"; "toString"; "valueOf";
   "__defineGetter__"; "__defineSetter__"; "__lookupGetter__"; "__lookupSetter__"].

(** The lifetime of a grant leaves no time for reuse: it is not a number,
    or it is at most the five minutes of the safety margin. *)
Definition short_lived (expires_in : jsnum) : Prop :=
  match expires_in with
  | NaN => True
  | Fin lifetime => (lifetime <= 300)%Q
  end.

(** [res.status(status).json({ error: msg })]. *)
Definition json_error (status : Z) (msg : string) : reply :=
  {| code := status; headers := []; sent := Json (VObj [("error", VStr msg)]) |}.

(** The test on the credential of the chat model, negated: the key is set
    and is not the placeholder. *)
Definition key_configured (apiKey : jsval) : bool :=
  truthy apiKey
  && negb (match apiKey with
           | VStr k => String.eqb k "your-openrouter-api-key-here"
           | _ => false
           end).

(** The geocoder requests of a list of places: one for each place whose
    lookup makes a request, for the name of the place. *)
Definition lookups (places : list jsval) : list request :=
  flat_map (fun p => match lookup_query p with
                     | Some q => [nominatim_request q]
                     | None => []
                     end)
           places.

(** The POI [p] stands for the element [el] of the answer of Overpass. *)
Definition poi_for (el p : jsval) : Prop :=
  obj_keys (spread p) = ["id"; "name"; "lat"; "lon"; "tags"] /\
  opt_member p "id" = opt_member el "id" /\
  opt_member p "lat" = opt_member el "lat" /\
  opt_member p "lon" = opt_member el "lon" /\
  opt_member p "name" = js_or (opt_member (opt_member el "tags") "name") (VStr EmptyString) /\
  opt_member p "tags" = js_or (opt_member el "tags") (VObj []) /\
  js_nullish (opt_member p "name") = false /\
  js_nullish (opt_member p "tags") = false.

(** The codes of municipalities among the values of the region variable. *)
Definition municipality_codes (values : list jsval) : list jsval :=
  List.filter (fun kod => four_digits (ToString kod)) values.

(** An entry of the table of values: a number that is not [NaN]. *)
Definition is_value (v : jsval) : Prop :=
  exists n, v = VNum n /\ isNaN n = false.

(** A run of white-space characters. *)
Inductive white : string -> Prop :=
| white_nil : white EmptyString
| white_cons w s : In w WhiteSpace -> white s -> white (w +:+ s).

(** [t] is [s] without the white space at its two ends. *)
Definition trimmed (s t : string) : Prop :=
  exists l r, white l /\ white r /\ s = l +:+ t +:+ r /\
    (forall w x, In w WhiteSpace -> t <> w +:+ x) /\
    (forall p w, In w WhiteSpace -> t <> p +:+ w).

(** An integer that binary64 holds exactly: sums, differences and products
    of such integers are computed without rounding when the result is one
    of them. *)
Definition exact (z : Z) : Prop := Z.abs z <= 2 ^ 53.

(** [k] names a member that every object inherits. *)
Definition inherited (k : string) : bool := existsb (String.eqb k) Object_prototype.

(** The object after the assignments [o[k] = v] of the pairs, in order. *)
Definition assign_all (o : object) (pairs : list (string * jsval)) : object :=
  foldl (fun o kv => obj_set o (fst kv) (snd kv)) o pairs.

(** The region variable of the metadata: the first of its variables whose
    code is [Region]. *)
Definition region_variable (meta : jsval) : option jsval :=
  match opt_member meta "variables" with
  | VArr variables =>
      List.find (fun v => is_string (opt_member v "code") "Region") variables
  | _ => None
  end.

(** The municipalities of the region variable, from the index [i] of its
    values on: each value that is four digits, under the text at its
    index. *)
Fixpoint municipalities_from (regionVar : jsval) (i : nat) (values : list jsval)
    : list (string * jsval) :=
  match values with
  | [] => []
  | kod :: values' =>
      (if four_digits (ToString kod)
       then [(ToString (js_index (opt_member regionVar "valueTexts") i), kod)]
       else [])
      ++ municipalities_from regionVar (S i) values'
  end.

Definition municipalities (regionVar : jsval) : list (string * jsval) :=
  match opt_member regionVar "values" with
  | VArr values => municipalities_from regionVar 0 values
  | _ => []
  end.

(** The readings of the rows of the data: for each row whose first value
    parses as a number, that number under the first key of the row. *)
Definition readings (rows : list jsval) : list (string * jsval) :=
  flat_map
    (fun row =>
       let value := parseFloat (js_index (opt_member row "values") 0) in
       if isNaN value then []
       else [(ToString (js_index (opt_member row "key") 0), VNum value)])
    rows.

(** No pair is for the name [__proto__], under which an assignment
    creates no member. *)
Definition assignable (pairs : list (string * jsval)) : Prop :=
  Forall (fun kv => fst kv <> "__proto__") pairs.

(** The tables [d] are those of the statistics source, its metadata being
    the answer to the [n]-th call of the process and its data the answer
    to the next: the name table has the municipalities of the region
    variable, the table of values the readings of the rows. *)
Definition scb_source (e : env) (n : nat) (d : scb_data) : Prop :=
  exists metaRes meta regionVar dataRes scbData rows,
    upstream e n (get_request SCB_URL) = Responded metaRes /\
    ok metaRes = true /\
    JSON_parse (body metaRes) = Some meta /\
    region_variable meta = Some regionVar /\
    upstream e (S n) (scb_data_request (map snd (municipalities regionVar)))
      = Responded dataRes /\
    ok dataRes = true /\
    JSON_parse (body dataRes) = Some scbData /\
    js_or (opt_member scbData "data") (VArr []) = VArr rows /\
    (assignable (municipalities regionVar) ->
     nameToKod d = assign_all [] (municipalities regionVar)) /\
    (assignable (readings rows) ->
     kodToValue d = assign_all [] (readings rows)).



(** The name of the feature is one under which an object has no inherited
    member, as is its lower-cased form, and it can be converted to a
    string. *)
Definition plain_name (f : jsval) : Prop :=
  unconvertible (region_name f) = false /\
  inherited (ToString (region_name f)) = false /\
  forall name, region_name f = VStr name -> inherited (toLowerCase name) = false.

(** A name table that assignments can build: no name is given twice, no
    name is [__proto__], lower-cased or not, and no code is the name of an
    inherited member. *)
Definition plain_table (names : object) : Prop :=
  NoDup (map fst names) /\
  Forall (fun nk => fst nk <> "__proto__" /\ toLowerCase (fst nk) <> "__proto__" /\
                    unconvertible (snd nk) = false /\
                    inherited (ToString (snd nk)) = false)
         names.

End Notions.

(** ** Properties of computations *)

(** [m] depends neither on the world nor on the state, and changes nothing. *)
Definition pure {A} (m : M A) : Prop :=
  exists out, forall e s, m e s = (out, s).



(** [m] never changes the field [f] of the state. *)
Definition keeps {A X} (f : server -> X) (m : M A) : Prop :=
  forall e s out s', m e s = (out, s') -> f s' = f s.

(** When [m] returns a reply, its status is one of [codes]. *)
Definition answers (codes : list Z) (m : M reply) : Prop :=
  forall e s r s', m e s = (Ret r, s') -> In (code r) codes.

(** ** A concrete runtime, for running the handlers on examples

    [JSON.parse] and [parseFloat] are given by tables, [toLowerCase] is the
    ASCII one, the encoders are the identity and never fail, a content type
    gets the charset of UTF-8 when it is a text type. *)

Definition ascii_lower (c : ascii) : ascii :=
  let n := N_of_ascii c in
  if ((65 <=? n) && (n <=? 90))%N then ascii_of_N (n + 32) else c.

Fixpoint lower (s : string) : string :=
  match s with
  | EmptyString => EmptyString
  | String c s' => String (ascii_lower c) (lower s')
  end.

Definition table_runtime (json : list (string * jsval))
    (floats : list (string * jsnum)) : Builtins :=
  {| JSON_parse := fun s => assoc json s;
     JSON_stringify := fun _ => EmptyString;
     parseFloat := fun v =>
       match v with
       | VNum n => n
       | VStr s => default NaN (assoc floats s)
       | _ => NaN
       end;
     toLowerCase := lower;
     ToString_other := fun _ => "[object Object]";
     ToNumber_other := fun v =>
       match v with
       | VStr s => default NaN (assoc floats s)
       | _ => NaN
       end;
     encodeURIComponent := fun s => s;
     URIError := fun _ => false;
     Content_Type := fun v =>
       if String.prefix "text/" v then v +:+ "; charset=utf-8" else v;
     base64 := fun s => s;
     URLSearchParams_toString := fun q =>
       join "&" (map (fun kv => fst kv +:+ "=" +:+ snd kv) q) |}.

(** ** Worlds for the examples *)

Definition quoted (s : string) : string := dquote +:+ s +:+ dquote.

Definition example_clock (n : nat) : Z := 1700000000000 + Z.of_nat n.

(** A token endpoint that rejects the credentials. *)
Definition rejected_body : string :=
  "{" +:+ quoted "error" +:+ ":" +:+ quoted "invalid_client" +:+ "}".

Definition rejecting_runtime : Builtins :=
  table_runtime [(rejected_body, VObj [("error", VStr "invalid_client")])] [].

Definition rejecting_world : env :=
  {| clock := example_clock;
     upstream := fun _ _ =>
       Responded {| status := 401;
                    content_type := Some "application/json";
                    body := rejected_body |};
     completion := fun n => seq 0 n;
     LM_CLIENT_KEY := VStr "key";
     LM_CLIENT_SECRET := VStr "secret";
     OPENROUTER_API_KEY := VUndef |}.

(** A token endpoint that grants a token for one hour, and a tile server
    that answers 401 to the first call and 200 afterwards. *)
Definition granted_body : string :=
  "{" +:+ quoted "access_token" +:+ ":" +:+ quoted "abc" +:+ ","
      +:+ quoted "expires_in" +:+ ":3600}".

Definition granted : jsval :=
  VObj [("access_token", VStr "abc"); ("expires_in", VNum (Fin 3600))].

Definition granting_runtime : Builtins :=
  table_runtime [(granted_body, granted)] [].

Definition token_response : response :=
  {| status := 200; content_type := Some "application/json"; body := granted_body |}.

Definition tile_response (st : Z) : response :=
  {| status := st; content_type := Some "image/png"; body := "PNG" |}.

Definition granting_world : env :=
  {| clock := example_clock;
     upstream := fun n rq =>
       if String.eqb (req_url rq) TOKEN_URL then Responded token_response
       else Responded (tile_response (if (n <=? 1)%nat then 401 else 200));
     completion := fun n => seq 0 n;
     LM_CLIENT_KEY := VStr "key";
     LM_CLIENT_SECRET := VStr "secret";
     OPENROUTER_API_KEY := VUndef |}.

(** A cache of 201 entries, all of them just fetched. *)
Definition many_keys : gset string :=
  list_to_set (map (fun i : nat => pretty i) (seq 0 201)).

Definition full_cache : gmap string poi_entry :=
  gset_to_gmap {| time := example_clock 0; data := VArr [] |} many_keys.

Definition full_server : server := with_poiCache full_cache boot.

(** An Overpass server with one cafe. *)
Definition cafe : jsval :=
  VObj [("id", VNum (Fin 1)); ("lat", VNum (Fin (593 # 10)));
        ("lon", VNum (Fin (18 # 1)));
        ("tags", VObj [("name", VStr "Vete-Katten")])].

Definition overpass_runtime : Builtins :=
  table_runtime [("ELEMENTS", VObj [("elements", VArr [cafe])])] [].

Definition overpass_world : env :=
  {| clock := example_clock;
     upstream := fun _ _ =>
       Responded {| status := 200; content_type := Some "application/json";
                    body := "ELEMENTS" |};
     completion := fun n => seq 0 n;
     LM_CLIENT_KEY := VStr "key";
     LM_CLIENT_SECRET := VStr "secret";
     OPENROUTER_API_KEY := VUndef |}.

(** Statistics for two municipalities and three boundary features: one
    whose name differs in case from the statistics, one without statistics,
    one of another administrative level. *)
Definition example_scb : scb_data :=
  {| nameToKod := [("malmö", VStr "1280"); ("Lund", VStr "1281")];
     kodToValue := [("1280", VNum (Fin (741 # 10))); ("1281", VNum (Fin (702 # 10)))] |}.

Definition boundary (level name : string) : jsval :=
  VObj [("type", VStr "Feature");
        ("properties", VObj [("NAME_2", VStr name); ("ENGTYPE_2", VStr level);
                             ("kod", VStr "old")]);
        ("geometry", VObj [("type", VStr "Polygon"); ("coordinates", VArr [])])].

Definition example_boundaries : list jsval :=
  [boundary "Municipality" "Malmö"; boundary "Municipality" "Atlantis";
   boundary "County" "Lund"].

Definition example_geo : jsval :=
  VObj [("type", VStr "FeatureCollection"); ("features", VArr example_boundaries)].

Definition example_merged : list jsval :=
  [VObj [("type", VStr "Feature");
         ("properties", VObj [("NAME_2", VStr "Malmö"); ("ENGTYPE_2", VStr "Municipality");
                              ("kod", VStr "1280");
                              ("sysselsattning", VNum (Fin (741 # 10)))]);
         ("geometry", VObj [("type", VStr "Polygon"); ("coordinates", VArr [])])];
   VObj [("type", VStr "Feature");
         ("properties", VObj [("NAME_2", VStr "Atlantis"); ("ENGTYPE_2", VStr "Municipality");
                              ("kod", VNull); ("sysselsattning", VNull)]);
         ("geometry", VObj [("type", VStr "Polygon"); ("coordinates", VArr [])])]].

(** The statistics and the boundary servers behind these data. *)
Definition scb_meta : jsval :=
  VObj [("variables",
         VArr [VObj [("code", VStr "Region");
                     ("values", VArr [VStr "00"; VStr "1280"; VStr "1281"]);
                     ("valueTexts", VArr [VStr "Riket"; VStr "malmö"; VStr "Lund"])]])].

Definition scb_rows : jsval :=
  VObj [("data",
         VArr [VObj [("key", VArr [VStr "1280"]); ("values", VArr [VStr "74.1"])];
               VObj [("key", VArr [VStr "1281"]); ("values", VArr [VStr "70.2"])]])].

Definition statistics_runtime : Builtins :=
  table_runtime [("META", scb_meta); ("ROWS", scb_rows); ("GADM", example_geo)]
                [("74.1", Fin (741 # 10)); ("70.2", Fin (702 # 10))].

Definition statistics_world : env :=
  {| clock := example_clock;
     upstream := fun _ rq =>
       Responded {| status := 200; content_type := Some "application/json";
                    body := if String.eqb (req_url rq) GADM_URL then "GADM"
                            else if String.eqb (req_method rq) "GET" then "META"
                            else "ROWS" |};
     completion := fun n => seq 0 n;
     LM_CLIENT_KEY := VStr "key";
     LM_CLIENT_SECRET := VStr "secret";
     OPENROUTER_API_KEY := VUndef |}.


(** A chat model that names two places, and a geocoder that finds the first
    and fails on the second; the lookups settle in reverse order. *)
Definition stockholm : jsval :=
  VObj [("name", VStr "Stockholm"); ("lat", VNum (Fin 0)); ("lon", VNum (Fin 0));
        ("description", VStr "Huvudstad")].

Definition uppsala : jsval :=
  VObj [("name", VStr "Uppsala"); ("lat", VNum (Fin 60)); ("lon", VNum (Fin 18));
        ("description", VStr "Universitetsstad")].

Definition model_reply (block : string) : string :=
  "Två städer." +:+ newline +:+ fence +:+ "places" +:+ newline +:+ block
  +:+ newline +:+ fence +:+ newline.

Definition completion_of (content : string) : jsval :=
  VObj [("choices",
         VArr [VObj [("message", VObj [("role", VStr "assistant");
                                       ("content", VStr content)])]])].

Definition chat_runtime : Builtins :=
  table_runtime
    [("COMPLETION", completion_of (model_reply "PLACES"));
     ("PLACES", VArr [stockholm; uppsala]);
     ("FOUND", VArr [VObj [("lat", VStr "59.33"); ("lon", VStr "18.07")]])]
    [("59.33", Fin (5933 # 100)); ("18.07", Fin (1807 # 100))].

Definition chat_world : env :=
  {| clock := example_clock;
     upstream := fun n rq =>
       if String.eqb (req_url rq) OPENROUTER_URL then
         Responded {| status := 200; content_type := Some "application/json";
                      body := "COMPLETION" |}
       else if (n =? 1)%nat then
         Responded {| status := 200; content_type := Some "application/json";
                      body := "FOUND" |}
       else Rejected "fetch failed";
     completion := fun n => rev (seq 0 n);
     LM_CLIENT_KEY := VStr "key";
     LM_CLIENT_SECRET := VStr "secret";
     OPENROUTER_API_KEY := VStr "sk-or-1" |}.

(** The same model with a block whose second place is [null]. *)
Definition null_place_runtime : Builtins :=
  table_runtime
    [("COMPLETION", completion_of (model_reply "PLACES"));
     ("PLACES", VArr [stockholm; VNull]);
     ("FOUND", VArr [VObj [("lat", VStr "59.33"); ("lon", VStr "18.07")]])]
    [("59.33", Fin (5933 # 100)); ("18.07", Fin (1807 # 100))].

(** The same model with a block that is not JSON. *)
Definition broken_runtime : Builtins :=
  table_runtime [("COMPLETION", completion_of (model_reply "[{name: Stockholm"))] [].

Definition chat_body : jsval := VObj [("message", VStr "Berätta om två städer")].

(** Upstream servers that answer every call with the status [st] and an
    empty body. *)
Definition failing_world (st : Z) : env :=
  {| clock := example_clock;
     upstream := fun _ _ =>
       Responded {| status := st; content_type := None; body := EmptyString |};
     completion := fun n => seq 0 n;
     LM_CLIENT_KEY := VStr "key";
     LM_CLIENT_SECRET := VStr "secret";
     OPENROUTER_API_KEY := VStr "sk-or-1" |}.

(** A token endpoint that grants a token once and cannot be reached
    afterwards, and a tile server that answers 401. *)
Definition revoking_world : env :=
  {| clock := example_clock;
     upstream := fun n rq =>
       if String.eqb (req_url rq) TOKEN_URL then
         if (n =? 0)%nat then Responded token_response else Rejected "fetch failed"
       else Responded (tile_response 401);
     completion := fun n => seq 0 n;
     LM_CLIENT_KEY := VStr "key";
     LM_CLIENT_SECRET := VStr "secret";
     OPENROUTER_API_KEY := VUndef |}.

(** The state of the tile proxy after a first request in the granting
    world. *)
Definition after_first_tile : server :=
  snd (wmts (H := granting_runtime) [("layer", "topowebb")] granting_world boot).

(** A token endpoint that grants a token for five minutes. *)
Definition brief_body : string :=
  "{" +:+ quoted "access_token" +:+ ":" +:+ quoted "abc" +:+ ","
      +:+ quoted "expires_in" +:+ ":300}".

Definition brief_runtime : Builtins :=
  table_runtime
    [(brief_body, VObj [("access_token", VStr "abc"); ("expires_in", VNum (Fin 300))])] [].

Definition brief_world : env :=
  {| clock := example_clock;
     upstream := fun _ _ =>
       Responded {| status := 200; content_type := Some "application/json";
                    body := brief_body |};
     completion := fun n => seq 0 n;
     LM_CLIENT_KEY := VStr "key";
     LM_CLIENT_SECRET := VStr "secret";
     OPENROUTER_API_KEY := VUndef |}.

(** A chat model whose places block holds an object. *)
Definition object_runtime : Builtins :=
  table_runtime [("COMPLETION", completion_of (model_reply "{}")); ("{}", VObj [])] [].

(** A chat model that names no place. *)
Definition plain_runtime : Builtins :=
  table_runtime [("COMPLETION", completion_of "Stockholm är huvudstaden.")] [].

(** A statistics server as before, with a boundary server that cannot be
    reached. *)
Definition no_boundaries_world : env :=
  {| clock := example_clock;
     upstream := fun _ rq =>
       if String.eqb (req_url rq) GADM_URL then Rejected "fetch failed"
       else Responded {| status := 200; content_type := Some "application/json";
                         body := if String.eqb (req_method rq) "GET" then "META"
                                 else "ROWS" |};
     completion := fun n => seq 0 n;
     LM_CLIENT_KEY := VStr "key";
     LM_CLIENT_SECRET := VStr "secret";
     OPENROUTER_API_KEY := VUndef |}.

(** A boundary server whose answer is an object without [features], and a
    server that holds the statistics already. *)
Definition empty_geo_runtime : Builtins :=
  table_runtime [("META", scb_meta); ("ROWS", scb_rows); ("GADM", VObj [])] [].

Definition with_statistics : server :=
  with_scbCache_ts (example_clock 0) (with_scbCache_data (Some example_scb) boot).

(** * Properties *)

Ltac run :=
  cbv beta iota zeta delta
    [bind ret get ask throw try_catch modify Date_now fetch res_json
     set_cachedToken set_tokenExpiry set_poiCache set_scbCache_data
     set_scbCache_ts set_geoCache_data set_geoCache_ts];
  cbn [ticks trace cachedToken tokenExpiry poiCache scbCache_data scbCache_ts
       geoCache_data geoCache_ts tick log with_cachedToken with_tokenExpiry
       with_poiCache with_scbCache_data with_scbCache_ts with_geoCache_data
       with_geoCache_ts fst snd].

Ltac fields :=
  cbn [ticks trace cachedToken tokenExpiry poiCache scbCache_data scbCache_ts
       geoCache_data geoCache_ts tick log with_cachedToken with_tokenExpiry
       with_poiCache with_scbCache_data with_scbCache_ts with_geoCache_data
       with_geoCache_ts].

Ltac fields_in H :=
  cbn [ticks trace cachedToken tokenExpiry poiCache scbCache_data scbCache_ts
       geoCache_data geoCache_ts tick log with_cachedToken with_tokenExpiry
       with_poiCache with_scbCache_data with_scbCache_ts with_geoCache_data
       with_geoCache_ts] in H.

(** ** Computations *)

Section Computations.

Lemma pure_ret {A} (a : A) : pure (ret a).
Proof. exists (Ret a). reflexivity. Qed.

Lemma pure_throw {A} x : pure (@throw A x).
Proof. exists (Throw x). reflexivity. Qed.

Lemma pure_bind {A B} (m : M A) (k : A -> M B) :
  pure m -> (forall a, pure (k a)) -> pure (bind m k).
Proof.
  intros [[a|x] Hm] Hk.
  - destruct (Hk a) as [out Ha]. exists out. intros e s. unfold bind.
    rewrite Hm. apply Ha.
  - exists (Throw x). intros e s. unfold bind. rewrite Hm. reflexivity.
Qed.

Lemma pure_inv {A} (m : M A) e s out s' :
  pure m -> m e s = (out, s') -> s' = s /\ forall e2 s2, m e2 s2 = (out, s2).
Proof.
  intros [o Hm] Hrun. rewrite Hm in Hrun. injection Hrun as <- <-. auto.
Qed.

Lemma bind_Ret_inv {A B} (m : M A) (k : A -> M B) e s b s' :
  bind m k e s = (Ret b, s') ->
  exists a s1, m e s = (Ret a, s1) /\ k a e s1 = (Ret b, s').
Proof.
  unfold bind. destruct (m e s) as [[a|x] s1]; [eauto|discriminate].
Qed.






Lemma keeps_pure {A X} (f : server -> X) (m : M A) : pure m -> keeps f m.
Proof.
  intros Hp e s out s' Hrun. destruct (pure_inv _ _ _ _ _ Hp Hrun) as [-> _].
  reflexivity.
Qed.

Lemma keeps_bind {A B X} (f : server -> X) (m : M A) (k : A -> M B) :
  keeps f m -> (forall a, keeps f (k a)) -> keeps f (bind m k).
Proof.
  intros Hm Hk e s out s'. unfold bind.
  destruct (m e s) as [[a|x] s1] eqn:Hrun; pose proof (Hm _ _ _ _ Hrun) as Hl.
  - intros Hk'. rewrite (Hk a _ _ _ _ Hk'). exact Hl.
  - intros [= <- <-]. exact Hl.
Qed.

Lemma keeps_fetch {X} (f : server -> X) rq :
  (forall s, f (log rq s) = f s) -> keeps f (fetch rq).
Proof.
  intros Hf e s out s'. unfold fetch.
  destruct (upstream e _ rq); intros [= <- <-]; apply Hf.
Qed.

Lemma keeps_Date_now {X} (f : server -> X) :
  (forall s, f (tick s) = f s) -> keeps f Date_now.
Proof. intros Hf e s out s' [= <- <-]. apply Hf. Qed.

Lemma keeps_modify {X} (f : server -> X) g :
  (forall s, f (g s) = f s) -> keeps f (modify g).
Proof. intros Hf e s out s' [= <- <-]. apply Hf. Qed.







End Computations.

(** ** Values, objects and strings *)

Section Values.
Context `{Builtins}.

Lemma member_not_nullish v k :
  js_nullish v = false -> member v k = ret (opt_member v k).
Proof. destruct v; simpl; intros; try discriminate; reflexivity. Qed.

Lemma member_nullish v k :
  js_nullish v = true -> member v k = throw (TypeError_read v k).
Proof. destruct v; simpl; intros; try discriminate; reflexivity. Qed.

Lemma member_Ret_inv v k e s x s' :
  member v k e s = (Ret x, s') ->
  x = opt_member v k /\ s' = s /\ js_nullish v = false.
Proof.
  destruct v; cbn; try discriminate; intros [= <- <-]; auto.
Qed.

Lemma index_not_nullish v i :
  js_nullish v = false -> index v i = ret (js_index v i).
Proof. destruct v; simpl; intros; try discriminate; reflexivity. Qed.

Lemma pure_member v k : pure (member v k).
Proof. destruct v; cbn [member]; auto using pure_ret, pure_throw. Qed.

Lemma pure_index v i : pure (index v i).
Proof. destruct v; cbn [index]; auto using pure_ret, pure_throw. Qed.

Lemma pure_res_json r : pure (res_json r).
Proof. unfold res_json. destruct (JSON_parse _); auto using pure_ret, pure_throw. Qed.

Lemma pure_mapM {A B} (f : A -> M B) l :
  (forall a, pure (f a)) -> pure (mapM f l).
Proof.
  intros Hf. induction l as [|a l IH]; cbn [mapM].
  - apply pure_ret.
  - apply pure_bind; [apply Hf|]. intros b.
    apply pure_bind; [apply IH|]. intros bs. apply pure_ret.
Qed.

Lemma pure_filterM {A} (p : A -> M bool) l :
  (forall a, pure (p a)) -> pure (filterM p l).
Proof.
  intros Hp. induction l as [|a l IH]; cbn [filterM].
  - apply pure_ret.
  - apply pure_bind; [apply Hp|]. intros b.
    apply pure_bind; [apply IH|]. intros bs. apply pure_ret.
Qed.

Lemma mapM_Ret_inv {A B} (f : A -> M B) l : forall e s out s',
  mapM f l e s = (Ret out, s') ->
  Forall2 (fun a b => exists s1 s2, f a e s1 = (Ret b, s2)) l out.
Proof.
  induction l as [|a l IH]; intros e s out s' Hrun; cbn [mapM] in *.
  - injection Hrun as <- _. constructor.
  - apply bind_Ret_inv in Hrun as (b & s1 & Hb & Hrun).
    apply bind_Ret_inv in Hrun as (bs & s2 & Hbs & Hrun).
    injection Hrun as <- _. constructor; eauto.
Qed.

Lemma mapM_ret_Forall2 {A B} (f : A -> M B) (R : A -> B -> Prop) l :
  Forall (fun a => exists b, f a = ret b /\ R a b) l ->
  exists out, mapM f l = ret out /\ Forall2 R l out.
Proof.
  induction 1 as [|a l (b & Hb & HR) _ (out & Hout & HF)]; cbn [mapM].
  - exists []. split; [reflexivity|constructor].
  - exists (b :: out). rewrite Hb, Hout. split; [reflexivity|].
    constructor; assumption.
Qed.

Lemma num_lt_Fin z x :
  num_lt (num_of_Z z) (Fin x) = true <-> (inject_Z z < x)%Q.
Proof.
  unfold num_lt, num_of_Z. destruct (Qlt_le_dec (inject_Z z) x) as [Hlt|Hle].
  - split; auto.
  - split; [discriminate|]. intros Hlt. exfalso. exact (Qle_not_lt _ _ Hle Hlt).
Qed.

Lemma positive_length n : num_lt (Fin 0) (num_of_Z (Z.of_nat (S n))) = true.
Proof.
  unfold num_lt, num_of_Z.
  destruct (Qlt_le_dec 0 (inject_Z (Z.of_nat (S n)))) as [|Hle]; [reflexivity|].
  exfalso. unfold Qle in Hle. cbn in Hle. lia.
Qed.

Lemma obj_lookup_set o k v k' :
  obj_lookup (obj_set o k v) k' =
  if String.eqb k k' then Some v else obj_lookup o k'.
Proof.
  induction o as [|[k0 v0] o IH]; cbn [obj_set obj_lookup].
  - destruct (String.eqb k k'); reflexivity.
  - destruct (String.eqb k0 k) eqn:E0; cbn [obj_lookup].
    + apply String.eqb_eq in E0. subst k0. destruct (String.eqb k k'); reflexivity.
    + destruct (String.eqb k0 k') eqn:E1.
      * apply String.eqb_eq in E1. subst k0. rewrite String.eqb_sym, E0. reflexivity.
      * exact IH.
Qed.

Lemma obj_lookup_set_ne o k v k' :
  k' <> k -> obj_lookup (obj_set o k v) k' = obj_lookup o k'.
Proof.
  intros Hne. rewrite obj_lookup_set.
  destruct (String.eqb k k') eqn:E; [|reflexivity].
  apply String.eqb_eq in E. congruence.
Qed.

Lemma obj_lookup_set_eq o k v : obj_lookup (obj_set o k v) k = Some v.
Proof. rewrite obj_lookup_set, String.eqb_refl. reflexivity. Qed.

Lemma obj_keys_set_in o k v :
  is_Some (obj_lookup o k) -> obj_keys (obj_set o k v) = obj_keys o.
Proof.
  unfold obj_keys. induction o as [|[k0 v0] o IH]; cbn [obj_set obj_lookup map].
  - intros [x [=]].
  - destruct (String.eqb k0 k) eqn:E0; cbn [map fst]; [reflexivity|].
    intros Hs. rewrite (IH Hs). reflexivity.
Qed.

Lemma obj_keys_set o k v k' :
  In k' (obj_keys (obj_set o k v)) <-> In k' (obj_keys o) \/ k' = k.
Proof.
  unfold obj_keys. induction o as [|[k0 v0] o IH]; cbn [obj_set map fst In].
  - intuition.
  - destruct (String.eqb k0 k) eqn:E0; cbn [map fst In].
    + apply String.eqb_eq in E0. subst k0. intuition.
    + rewrite IH. intuition.
Qed.

Lemma obj_lookup_In o k v : obj_lookup o k = Some v -> In (k, v) o.
Proof.
  induction o as [|[k0 v0] o IH]; cbn [obj_lookup]; [discriminate|].
  destruct (String.eqb k0 k) eqn:E0.
  - apply String.eqb_eq in E0. subst k0. intros [= ->]. left. reflexivity.
  - intros Hl. right. auto.
Qed.

Lemma append_cons c (p x : string) : String c p +:+ x = String c (p +:+ x).
Proof. reflexivity. Qed.

Lemma append_nil (x : string) : EmptyString +:+ x = x.
Proof. reflexivity. Qed.

Lemma append_assoc (a b c : string) : (a +:+ b) +:+ c = a +:+ b +:+ c.
Proof.
  induction a as [|x a IH]; [reflexivity|].
  rewrite !append_cons, IH. reflexivity.
Qed.

Lemma prefix_decompose p : forall s,
  String.prefix p s = true -> s = p +:+ drop_chars (String.length p) s.
Proof.
  induction p as [|c p IH]; intros s.
  - destruct s; reflexivity.
  - destruct s as [|c' s]; cbn; [discriminate|].
    destruct (Ascii.ascii_dec c c') as [<-|]; [|discriminate].
    intros Hp. rewrite append_cons. f_equal. apply IH, Hp.
Qed.

End Values.

(** ** The credential cache and the tile proxy *)

Section Credentials.
Context `{Builtins}.

(** A call that finds a live token returns it and only reads the clock. *)
Lemma getToken_hit e s :
  token_hit e s = true ->
  getToken e s = (Ret (cachedToken s), tick s).
Proof.
  unfold token_hit. intros [Ht Hl]%andb_prop.
  unfold getToken. run. rewrite Ht. run. rewrite Hl. reflexivity.
Qed.

(** A call that finds no live token makes exactly one exchange, whatever
    comes of it. *)
Lemma getToken_miss_trace e s out s' :
  token_hit e s = false ->
  getToken e s = (out, s') ->
  trace s' = trace s ++ [token_request e].
Proof.
  unfold token_hit, getToken. intros Hm. run.
  destruct (truthy (cachedToken s)); cbn [andb] in Hm; run; rewrite ?Hm; run;
  destruct (upstream e (length (trace s)) (token_request e)) as [r|m]; run;
  try (destruct (JSON_parse (body r)) as [d|]; run; [destruct d; unfold member; run|]);
  intros Heq; injection Heq as _ <-; reflexivity.
Qed.

(** The exchange does not look at the status of the answer: any answer
    whose body is JSON is taken as a grant. *)
Lemma getToken_refresh e s r d :
  token_hit e s = false ->
  upstream e (length (trace s)) (token_request e) = Responded r ->
  JSON_parse (body r) = Some d ->
  js_nullish d = false ->
  exists s', getToken e s = (Ret (opt_member d "access_token"), s') /\
    trace s' = trace s ++ [token_request e] /\
    cachedToken s' = opt_member d "access_token" /\
    tokenExpiry s' =
      num_add (num_of_Z (clock e (Nat.pred (ticks s'))))
        (num_mul (num_sub (ToNumber (opt_member d "expires_in")) (Fin 300)) (Fin 1000)).
Proof.
  unfold token_hit, getToken. intros Hm Hu Hj Hd. run.
  destruct (truthy (cachedToken s)); cbn [andb] in Hm; run; rewrite ?Hm; run;
    rewrite Hu; run;
    rewrite Hj, !(member_not_nullish _ _ Hd); run;
    (eexists; split; [reflexivity|]; cbn; auto).
Qed.

Lemma iter_tick_fields n s :
  trace (Nat.iter n tick s) = trace s /\
  cachedToken (Nat.iter n tick s) = cachedToken s /\
  tokenExpiry (Nat.iter n tick s) = tokenExpiry s /\
  ticks (Nat.iter n tick s) = (ticks s + n)%nat.
Proof.
  induction n as [|n IH].
  - cbn. repeat split; auto with arith.
  - destruct IH as (IH1 & IH2 & IH3 & IH4). rewrite Nat.iter_succ.
    cbn [tick trace cachedToken tokenExpiry ticks].
    rewrite IH1, IH2, IH3, IH4. repeat split; lia.
Qed.

Lemma repeat_hits e x n : forall s,
  truthy (cachedToken s) = true ->
  tokenExpiry s = Fin x ->
  (forall i, (i < n)%nat -> (inject_Z (clock e (ticks s + i)) < x)%Q) ->
  repeatM n getToken e s = (Ret (replicate n (cachedToken s)), Nat.iter n tick s).
Proof.
  induction n as [|n IH]; intros s Ht Hx Hlt; cbn [repeatM replicate].
  - reflexivity.
  - run. rewrite getToken_hit.
    + rewrite IH; cbn [tick cachedToken tokenExpiry ticks]; auto.
      * rewrite Nat.iter_succ_r. reflexivity.
      * intros i Hi. replace (S (ticks s) + i)%nat with (ticks s + S i)%nat by lia.
        apply Hlt. lia.
    + unfold token_hit. rewrite Ht, Hx. cbn [andb]. apply num_lt_Fin.
      specialize (Hlt O). rewrite Nat.add_0_r in Hlt. apply Hlt. lia.
Qed.

Lemma expiry_exact now lifetime :
  num_add (num_of_Z now)
    (num_mul (num_sub (Fin (inject_Z lifetime)) (Fin 300)) (Fin 1000))
  = Fin (inject_Z (now + (lifetime - 300) * 1000)).
Proof.
  cbn [num_add num_mul num_sub num_of_Z]. f_equal.
  unfold inject_Z, Qminus, Qopp. cbn [Qnum Qden].
  unfold Qplus at 2. cbn [Qnum Qden Pos.mul].
  unfold Qmult. cbn [Qnum Qden Pos.mul].
  unfold Qplus. cbn [Qnum Qden Pos.mul].
  rewrite !Pos.mul_1_l. f_equal. ring.
Qed.

(** C6.  A refresh that yields a token (a truthy [access_token] and a
    lifetime that is a whole number of seconds) stores
    [expiresAt = now + (lifetime - 300) * 1000] milliseconds, [now] being
    the reading of the clock the refresh takes once the endpoint has
    answered.  Every later sequence of calls whose clock readings are all
    before [expiresAt] returns the cached token and makes no exchange; the
    first call whose reading is at or after [expiresAt] makes exactly one
    exchange.  The readings of the clock, the lifetime and the numbers
    computed from them are integers that binary64 holds exactly. *)
Theorem token_reused_until_expiry e s r d lifetime :
  token_hit e s = false ->
  upstream e (length (trace s)) (token_request e) = Responded r ->
  JSON_parse (body r) = Some d ->
  js_nullish d = false ->
  truthy (opt_member d "access_token") = true ->
  ToNumber (opt_member d "expires_in") = Fin (inject_Z lifetime) ->
  let t := if truthy (cachedToken s) then S (ticks s) else ticks s in
  let now := clock e t in
  let expiresAt := now + (lifetime - 300) * 1000 in
  exact now -> exact lifetime -> exact (lifetime - 300) ->
  exact ((lifetime - 300) * 1000) -> exact expiresAt ->
  exists s1,
    let token := opt_member d "access_token" in
    getToken e s = (Ret token, s1) /\
    trace s1 = trace s ++ [token_request e] /\
    ticks s1 = S t /\
    cachedToken s1 = token /\
    tokenExpiry s1 = Fin (inject_Z expiresAt) /\
    forall n,
      (forall i, (i < n)%nat ->
         exact (clock e (ticks s1 + i)) /\ clock e (ticks s1 + i) < expiresAt) ->
      exists s2,
        repeatM n getToken e s1 = (Ret (replicate n token), s2) /\
        trace s2 = trace s1 /\
        ticks s2 = (ticks s1 + n)%nat /\
        (forall out s3,
           exact (clock e (ticks s2)) ->
           expiresAt <= clock e (ticks s2) ->
           getToken e s2 = (out, s3) ->
           trace s3 = trace s2 ++ [token_request e]).
Proof.
  intros Hm Hu Hj Hd Ht Hl t now expiresAt _ _ _ _ _.
  assert (Hrun : exists s1,
            getToken e s = (Ret (opt_member d "access_token"), s1) /\
            trace s1 = trace s ++ [token_request e] /\
            ticks s1 = S t /\
            cachedToken s1 = opt_member d "access_token" /\
            tokenExpiry s1 = Fin (inject_Z expiresAt)).
  { subst expiresAt now t. revert Hm. unfold token_hit, getToken. intros Hm. run.
    destruct (truthy (cachedToken s)); cbn [andb] in Hm; run; rewrite ?Hm; run;
      rewrite Hu; run;
      rewrite Hj, !(member_not_nullish _ _ Hd); run;
      rewrite Hl, expiry_exact;
      (eexists; split; [reflexivity|]; cbn; auto). }
  destruct Hrun as (s1 & Hrun & Htr & Htk & Hc & Hx).
  exists s1. cbn zeta. repeat split; auto.
  intros n Hlt. exists (Nat.iter n tick s1).
  destruct (iter_tick_fields n s1) as (Ht1 & Ht2 & Ht3 & Ht4).
  split; [|split; [|split]]; auto.
  - rewrite <- Hc.
    apply repeat_hits with (x := inject_Z expiresAt); auto.
    + rewrite Hc. exact Ht.
    + intros i Hi. rewrite <- Zlt_Qlt. apply Hlt, Hi.
  - intros out s3 _ Hge. apply getToken_miss_trace.
    unfold token_hit. rewrite Ht3, Hx.
    destruct (num_lt _ _) eqn:Hn; [|apply andb_false_r].
    apply num_lt_Fin in Hn. rewrite <- Zlt_Qlt in Hn. lia.
Qed.


End Credentials.

(** ** The POI cache *)

Section Poi.
Context `{Builtins}.

Lemma pure_poi_of_element el : pure (poi_of_element el).
Proof.
  unfold poi_of_element.
  repeat (apply pure_bind; [try apply pure_member|intros]).
  - destruct (js_nullish _); [apply pure_ret|apply pure_member].
  - apply pure_ret.
Qed.

Lemma pure_js_map what f v :
  (forall a, pure (f a)) -> pure (js_map what f v).
Proof.
  intros Hf. destruct v; cbn [js_map]; try apply pure_throw.
  apply pure_bind; [apply pure_mapM, Hf|]. intros. apply pure_ret.
Qed.

(** The insertion, then the sweep when the map has more than 200 entries. *)
Lemma store_pois_run e s key pois :
  let m := <[key := {| time := clock e (ticks s); data := pois |}]> (poiCache s) in
  store_pois key pois e s =
    (Ret tt,
     if decide (200 < size m)%nat
     then with_poiCache (sweep (clock e (S (ticks s))) m) (tick (with_poiCache m (tick s)))
     else with_poiCache m (tick s)).
Proof.
  intros m. unfold store_pois. run. fold m.
  destruct (decide (200 < size m)%nat); reflexivity.
Qed.

(** C8.  After an insertion into the POI cache, the sweep runs only when
    the map holds more than 200 entries; it then removes exactly the
    entries whose age exceeds the TTL.  An entry younger than the TTL is
    never removed, and when no entry is older than the TTL the map is left
    as it is, whatever its size. *)
Theorem sweep_past_threshold e s key pois :
  let t := clock e (ticks s) in
  let now := clock e (S (ticks s)) in
  let m := <[key := {| time := t; data := pois |}]> (poiCache s) in
  exists s',
    store_pois key pois e s = (Ret tt, s') /\
    trace s' = trace s /\
    ((size m <= 200)%nat -> poiCache s' = m) /\
    ((200 < size m)%nat ->
       forall k v, poiCache s' !! k = Some v <->
                   m !! k = Some v /\ ~ (now - time v > POI_CACHE_TTL)) /\
    (forall k v, m !! k = Some v -> now - time v < POI_CACHE_TTL ->
                 poiCache s' !! k = Some v) /\
    ((forall k v, m !! k = Some v -> now - time v <= POI_CACHE_TTL) ->
       poiCache s' = m).
Proof.
  intros t now m. rewrite store_pois_run. fold t. fold m. fold now.
  destruct (decide (200 < size m)%nat) as [Hbig|Hsmall].
  - eexists. split; [reflexivity|]. fields.
    split; [reflexivity|]. split; [lia|]. split; [|split].
    + intros _ k v. unfold sweep. rewrite map_lookup_filter_Some. reflexivity.
    + intros k v Hk Hy. unfold sweep. apply map_lookup_filter_Some.
      split; [exact Hk|]. cbn. lia.
    + intros Hall. unfold sweep. apply map_filter_id.
      intros k v Hk. cbn. specialize (Hall k v Hk). lia.
  - eexists. split; [reflexivity|]. fields.
    split; [reflexivity|]. split; [auto|]. split; [lia|]. split; auto.
Qed.

End Poi.

(** ** The statistics merge *)

Section Statistics.
Context `{Builtins}.

Lemma pure_find_region vs : pure (find_region vs).
Proof.
  induction vs as [|v vs IH]; cbn [find_region].
  - apply pure_ret.
  - apply pure_bind; [apply pure_member|]. intros code.
    destruct (is_string code "Region"); [apply pure_ret|apply IH].
Qed.

Lemma pure_region_codes regionVar values : forall i acc,
  pure (region_codes regionVar i values acc).
Proof.
  induction values as [|kod values IH]; intros i acc; cbn [region_codes].
  - apply pure_ret.
  - apply pure_bind; [|intros; apply IH].
    destruct (four_digits _); [|apply pure_ret].
    apply pure_bind; [apply pure_member|]. intros.
    apply pure_bind; [apply pure_index|]. intros. apply pure_ret.
Qed.

Lemma pure_iterate what v : pure (iterate what v).
Proof. destruct v; cbn [iterate]; auto using pure_ret, pure_throw. Qed.

Lemma pure_region_values rows : forall acc, pure (region_values rows acc).
Proof.
  induction rows as [|row rows IH]; intros acc; cbn [region_values].
  - apply pure_ret.
  - apply pure_bind; [apply pure_member|]. intros.
    apply pure_bind; [apply pure_index|]. intros.
    apply pure_bind; [apply pure_member|]. intros.
    apply pure_bind; [apply pure_index|]. intros. apply IH.
Qed.

Lemma pure_is_municipality f : pure (is_municipality f).
Proof.
  unfold is_municipality.
  apply pure_bind; [apply pure_member|]. intros.
  apply pure_bind; [apply pure_member|]. intros. apply pure_ret.
Qed.

Lemma pure_resolve_kod d nl name2 : pure (resolve_kod d nl name2).
Proof.
  unfold resolve_kod. destruct (truthy _); [apply pure_ret|].
  destruct name2; auto using pure_ret, pure_throw.
Qed.

Lemma pure_merge_feature d nl f : pure (merge_feature d nl f).
Proof.
  unfold merge_feature.
  apply pure_bind; [apply pure_member|]. intros.
  apply pure_bind; [apply pure_member|]. intros.
  apply pure_bind; [apply pure_resolve_kod|]. intros. apply pure_ret.
Qed.

(** The merge reads neither the world nor the state of the server. *)
Lemma pure_merge d g : pure (merge d g).
Proof.
  unfold merge. apply pure_bind; [apply pure_member|]. intros features.
  destruct features; try apply pure_throw.
  apply pure_bind; [apply pure_filterM, pure_is_municipality|]. intros.
  apply pure_mapM, pure_merge_feature.
Qed.

Ltac pure_tac :=
  repeat first
    [ apply pure_ret | apply pure_throw | apply pure_member | apply pure_index
    | apply pure_res_json | apply pure_find_region | apply pure_region_codes
    | apply pure_iterate | apply pure_region_values
    | apply pure_bind; [|intros]
    | match goal with
      | |- pure (match ?x with _ => _ end) => destruct x
      end ].


Ltac keeps_tac :=
  repeat first
    [ apply keeps_fetch; reflexivity | apply keeps_Date_now; reflexivity
    | apply keeps_modify; reflexivity
    | apply keeps_pure; solve [pure_tac]
    | apply keeps_bind; [|intros]
    | match goal with
      | |- keeps _ (match ?x with _ => _ end) => destruct x
      end ].


(** The refresh of the boundaries leaves the statistics cache alone. *)
Lemma keeps_scb_refresh_geo :
  keeps (fun s => (scbCache_data s, scbCache_ts s)) refresh_geo.
Proof.
  unfold refresh_geo, fetch_geo, set_geoCache_data, set_geoCache_ts. keeps_tac.
Qed.







(** A refresh that returns has stored what it returns, with the reading of
    the clock it has just taken. *)
Lemma refresh_scb_Ret e s d s' :
  refresh_scb e s = (Ret d, s') ->
  scbCache_data s' = Some d /\ scbCache_ts s' = clock e (Nat.pred (ticks s')).
Proof.
  unfold refresh_scb. intros Hrun.
  apply bind_Ret_inv in Hrun as (d0 & s1 & _ & Hrun).
  revert Hrun. run. intros [= <- <-]. fields. auto.
Qed.










End Statistics.

Section Merge.
Context `{Builtins}.

Lemma last_insensitive_In o k v :
  last_insensitive o k = Some v -> exists n, In (n, v) o.
Proof.
  induction o as [|[k0 v0] o IH]; cbn [last_insensitive]; [discriminate|].
  destruct (last_insensitive o k) as [v'|].
  - intros [= ->]. destruct (IH eq_refl) as [n Hn]. exists n. right. exact Hn.
  - destruct (String.eqb _ _); [|discriminate]. intros [= ->].
    exists k0. left. reflexivity.
Qed.

(** The fallback map holds, under a lower-cased name, the code of the last
    region with that lower-cased name. *)
Lemma lower_names_lookup_acc l : forall acc k,
  obj_lookup (foldl (fun acc kv => obj_set acc (toLowerCase (fst kv)) (snd kv)) acc l) k =
  match last_insensitive l k with
  | Some v => Some v
  | None => obj_lookup acc k
  end.
Proof.
  induction l as [|[n v] l IH]; intros acc k; cbn [foldl last_insensitive fst snd].
  - reflexivity.
  - rewrite IH. destruct (last_insensitive l k); [reflexivity|].
    rewrite obj_lookup_set. destruct (String.eqb _ _); reflexivity.
Qed.

Lemma lower_names_lookup o k :
  obj_lookup (lower_names o) k = last_insensitive o k.
Proof.
  unfold lower_names. rewrite lower_names_lookup_acc.
  destruct (last_insensitive o k); reflexivity.
Qed.

(** On a name that is a string, the code computes the resolution of the
    specification. *)
Lemma resolve_kod_spec d name :
  codes_truthy (nameToKod d) ->
  resolve_kod d (lower_names (nameToKod d)) (VStr name) =
  ret (resolve_spec (nameToKod d) name).
Proof.
  intros Hc. unfold resolve_kod, resolve_spec, obj_get. cbn [ToString].
  unfold codes_truthy in Hc. rewrite Forall_forall in Hc.
  destruct (obj_lookup (nameToKod d) name) as [k|] eqn:Hl.
  - apply obj_lookup_In in Hl.
    assert (Hk : truthy k = true) by (apply (Hc (name, k)), list_elem_of_In, Hl).
    rewrite Hk. reflexivity.
  - cbn [truthy]. rewrite lower_names_lookup.
    destruct (last_insensitive _ _) as [k|] eqn:Hl'.
    + destruct (last_insensitive_In _ _ _ Hl') as [n Hn].
      assert (Hk : truthy k = true) by (apply (Hc (n, k)), list_elem_of_In, Hn).
      unfold js_or. rewrite Hk. reflexivity.
    + reflexivity.
Qed.

Lemma target_level_shape f :
  target_level f = true ->
  exists fo po, f = VObj fo /\ obj_lookup fo "properties" = Some (VObj po).
Proof.
  unfold target_level. destruct f as [| |b|n|str|l|fo]; try discriminate.
  cbn [opt_member]. unfold obj_get.
  destruct (obj_lookup fo "properties") as [p|] eqn:Hp; [|discriminate].
  destruct p as [| |b|n|str|l|po]; try discriminate. eauto.
Qed.

Lemma is_municipality_wf f :
  js_nullish f = false ->
  js_nullish (opt_member f "properties") = false ->
  is_municipality f = ret (target_level f).
Proof.
  intros Hf Hp. unfold is_municipality.
  rewrite (member_not_nullish _ _ Hf). cbv beta delta [bind ret] iota.
  rewrite (member_not_nullish _ _ Hp). reflexivity.
Qed.

Lemma is_municipality_Ret f e s b s' :
  is_municipality f e s = (Ret b, s') -> b = target_level f.
Proof.
  unfold is_municipality. intros Hrun.
  apply bind_Ret_inv in Hrun as (p & s1 & Hp & Hrun).
  apply bind_Ret_inv in Hrun as (t & s2 & Ht & Hrun).
  apply member_Ret_inv in Hp as (-> & _ & _).
  apply member_Ret_inv in Ht as (-> & _ & _).
  injection Hrun as <- _. reflexivity.
Qed.

Lemma filterM_wf l :
  Forall well_formed_feature l ->
  filterM is_municipality l = ret (List.filter target_level l).
Proof.
  induction 1 as [|f l (Hf & Hp & _) _ IH]; cbn [filterM List.filter].
  - reflexivity.
  - rewrite (is_municipality_wf _ Hf Hp), IH.
    destruct (target_level f); reflexivity.
Qed.

Lemma filterM_Ret_inv l : forall e s r s',
  filterM is_municipality l e s = (Ret r, s') ->
  r = List.filter target_level l.
Proof.
  induction l as [|f l IH]; intros e s r s' Hrun; cbn [filterM List.filter] in *.
  - injection Hrun as <- _. reflexivity.
  - apply bind_Ret_inv in Hrun as (b & s1 & Hb & Hrun).
    apply bind_Ret_inv in Hrun as (r' & s2 & Hr & Hrun).
    apply is_municipality_Ret in Hb as ->. apply IH in Hr as ->.
    injection Hrun as <- _. reflexivity.
Qed.

Lemma merge_feature_wf d f :
  codes_truthy (nameToKod d) ->
  well_formed_feature f ->
  target_level f = true ->
  exists o, merge_feature d (lower_names (nameToKod d)) f = ret o /\ resolved d f o.
Proof.
  intros Hc (Hf & Hp & Hn) Ht. destruct (Hn Ht) as [name Hname].
  unfold merge_feature.
  rewrite (member_not_nullish _ _ Hf). cbv beta delta [bind ret] iota.
  rewrite (member_not_nullish _ _ Hp). cbv beta delta [bind ret] iota.
  fold (region_name f). rewrite Hname.
  rewrite (resolve_kod_spec _ _ Hc). cbv beta delta [bind ret] iota.
  eexists. split; [reflexivity|].
  exists name. split; [exact Hname|]. cbn zeta.
  assert (Hk : forall po v w,
            obj_get (obj_set (obj_set po "kod" v) "sysselsattning" w) "kod" = v).
  { intros. unfold obj_get. rewrite obj_lookup_set_ne by discriminate.
    rewrite obj_lookup_set_eq. reflexivity. }
  assert (Hs : forall po v w,
            obj_get (obj_set (obj_set po "kod" v) "sysselsattning" w) "sysselsattning" = w).
  { intros. unfold obj_get. rewrite obj_lookup_set_eq. reflexivity. }
  assert (Hg : forall o v, obj_get (obj_set o "properties" v) "properties" = v).
  { intros. unfold obj_get. rewrite obj_lookup_set_eq. reflexivity. }
  cbn [opt_member]. rewrite !Hg. cbn [opt_member]. rewrite Hk, Hs.
  split; [reflexivity|]. split; [reflexivity|].
  intros He Hi. unfold resolve_spec. rewrite He, Hi. auto.
Qed.

(** C2.  On a boundary collection whose features are well formed, with a
    name table whose codes are truthy, the merge returns one output feature
    for each feature of the target level, in order: none is dropped.  The
    code of each is the one its name resolves to, by exact match first and
    by the case-insensitive match otherwise; a name that matches neither
    way gets the code [null] and the value [null].  The names of the
    features and the table are plain: no object inherits a member under the
    name of a feature or under its lower-cased form, the table has each
    name once and no name [__proto__], and no code is the name of an
    inherited member. *)
Theorem merge_resolves_names d g l :
  opt_member g "features" = VArr l ->
  Forall well_formed_feature l ->
  Forall (fun f => target_level f = true -> plain_name f) l ->
  codes_truthy (nameToKod d) ->
  plain_table (nameToKod d) ->
  exists out,
    (forall e s, merge d g e s = (Ret out, s)) /\
    Forall2 (resolved d) (List.filter target_level l) out.
Proof.
  intros Hg Hwf _ Hc _. unfold merge.
  assert (Hgn : js_nullish g = false) by (destruct g; try discriminate; reflexivity).
  rewrite (member_not_nullish _ _ Hgn). cbv beta delta [bind ret] iota.
  rewrite Hg, (filterM_wf _ Hwf). cbv beta delta [bind ret] iota.
  destruct (mapM_ret_Forall2 (merge_feature d (lower_names (nameToKod d)))
              (resolved d) (List.filter target_level l)) as (out & Hout & HF).
  { rewrite Forall_forall. intros f Hin. apply list_elem_of_In, filter_In in Hin.
    destruct Hin as [Hin Ht]. rewrite Forall_forall in Hwf.
    apply merge_feature_wf; auto. apply Hwf, list_elem_of_In, Hin. }
  exists out. split; [|exact HF]. intros e s. rewrite Hout. reflexivity.
Qed.

Lemma merge_feature_framed d nl f e s o s' :
  target_level f = true ->
  merge_feature d nl f e s = (Ret o, s') ->
  framed d f o.
Proof.
  intros Ht Hrun. destruct (target_level_shape _ Ht) as (fo & po & -> & Hp).
  unfold merge_feature in Hrun.
  apply bind_Ret_inv in Hrun as (p & s1 & Hm & Hrun).
  apply member_Ret_inv in Hm as (-> & _ & _).
  apply bind_Ret_inv in Hrun as (n & s2 & _ & Hrun).
  apply bind_Ret_inv in Hrun as (kod & s3 & _ & Hrun).
  injection Hrun as <- _.
  cbn [opt_member spread]. unfold obj_get. rewrite Hp. cbn [spread].
  eexists fo, po, _, _. split; [reflexivity|]. split; [exact Hp|].
  split; [reflexivity|]. split; [apply obj_lookup_set_eq|].
  split; [|split; [|split; [|split; [|split]]]].
  - intros k Hk. apply obj_lookup_set_ne. exact Hk.
  - apply obj_keys_set_in. rewrite Hp. eauto.
  - intros k Hk Hs. rewrite !obj_lookup_set_ne by assumption. reflexivity.
  - intros k. rewrite !obj_keys_set. tauto.
  - exists kod. split.
    + rewrite obj_lookup_set_ne by discriminate. apply obj_lookup_set_eq.
    + apply obj_lookup_set_eq.
  - apply obj_lookup_set_ne. discriminate.
Qed.

(** C10.  Whenever the merge returns, its output features are those of the
    target level, in order, and each differs from its input only in its
    [properties]: every other member, the geometry among them, is the one
    of the input, and the properties are those of the input except for
    [kod] and [sysselsattning], which are set to the merged values whether
    the input carried them or not. *)
Theorem merge_frames_features d g e s out s' :
  merge d g e s = (Ret out, s') ->
  exists l,
    opt_member g "features" = VArr l /\
    Forall2 (framed d) (List.filter target_level l) out.
Proof.
  unfold merge. intros Hrun.
  apply bind_Ret_inv in Hrun as (features & s1 & Hm & Hrun).
  apply member_Ret_inv in Hm as (-> & _ & _).
  destruct (opt_member g "features") as [| |b|n|str|l|fo]; try discriminate.
  exists l. split; [reflexivity|].
  apply bind_Ret_inv in Hrun as (ms & s2 & Hf & Hrun).
  apply filterM_Ret_inv in Hf as ->.
  apply mapM_Ret_inv in Hrun.
  assert (Hall : Forall (fun f => target_level f = true) (List.filter target_level l)).
  { rewrite Forall_forall. intros f Hin. apply list_elem_of_In, filter_In in Hin. tauto. }
  revert Hall. induction Hrun as [|f o fs os (sa & sb & Ho) _ IH]; intros Hall.
  - constructor.
  - inversion Hall; subst. constructor; [|auto].
    eapply merge_feature_framed; eauto.
Qed.

Lemma read_scb_Ret e s d s' :
  read_scb e s = (Ret d, s') -> scbCache_data s' = Some d.
Proof.
  unfold read_scb. run. destruct (scbCache_data s) as [d0|] eqn:Hd.
  - run. destruct (decide _).
    + run. intros [= <- <-]. exact Hd.
    + intros Hrun. apply (refresh_scb_Ret _ _ _ _ Hrun).
  - intros Hrun. apply (refresh_scb_Ret _ _ _ _ Hrun).
Qed.





End Merge.

(** ** White space and the places block *)

Section WhiteSpaces.
Context `{Builtins}.

Lemma string_length_ind (P : string -> Prop) :
  (forall s, (forall t, (String.length t < String.length s)%nat -> P t) -> P s) ->
  forall s, P s.
Proof.
  intros Hstep s. remember (String.length s) as n eqn:Hn. revert s Hn.
  induction n as [n IH] using (well_founded_induction lt_wf).
  intros s ->. apply Hstep. intros t Ht. exact (IH _ Ht t eq_refl).
Qed.

Lemma length_append (a b : string) :
  String.length (a +:+ b) = (String.length a + String.length b)%nat.
Proof.
  induction a as [|c a IH]; [reflexivity|].
  rewrite append_cons. cbn [String.length]. rewrite IH. reflexivity.
Qed.

Lemma starts_with_decompose p : forall s,
  starts_with p s = true -> s = p +:+ drop_chars (String.length p) s.
Proof.
  induction p as [|c p IH]; intros s.
  - destruct s; reflexivity.
  - destruct s as [|c' s]; cbn [starts_with]; [discriminate|].
    intros [Hc Hp]%andb_prop. apply Ascii.eqb_eq in Hc. subst c'.
    rewrite append_cons. cbn [String.length drop_chars]. f_equal. apply IH, Hp.
Qed.

Lemma In_WhiteSpace_cons w : In w WhiteSpace -> exists c w', w = String c w'.
Proof.
  unfold WhiteSpace. cbn [map In utf8 fold_right].
  intros Hin. repeat (destruct Hin as [<-|Hin]; [eauto|]). destruct Hin.
Qed.

(** The characters are told apart by their first bytes: a string starts
    with at most one of them. *)
Lemma space_width_In w s :
  In w WhiteSpace -> space_width (w +:+ s) = String.length w.
Proof.
  unfold WhiteSpace. cbn [map In utf8 fold_right].
  intros Hin.
  repeat (destruct Hin as [<-|Hin]; [vm_compute; reflexivity|]). destruct Hin.
Qed.

Lemma space_width_Some s k :
  space_width s = S k ->
  exists w rest, In w WhiteSpace /\ s = w +:+ rest /\ String.length w = S k.
Proof.
  unfold space_width.
  destruct (List.find (fun w => starts_with w s) WhiteSpace) as [w|] eqn:Hf;
    [|discriminate].
  intros Hlen. apply find_some in Hf as [Hin Hp].
  exists w, (drop_chars (String.length w) s). split; [exact Hin|]. split; [|exact Hlen].
  apply starts_with_decompose, Hp.
Qed.

Lemma space_width_zero s w x :
  space_width s = 0%nat -> In w WhiteSpace -> s <> w +:+ x.
Proof.
  intros Hz Hin ->. rewrite (space_width_In _ _ Hin) in Hz.
  destruct (In_WhiteSpace_cons _ Hin) as (c & w' & ->). discriminate.
Qed.

(** *** Runs of white space *)

Lemma all_space_from_skip p : forall t,
  all_space_from (String.length p) (p +:+ t) = all_space_from 0 t.
Proof.
  induction p as [|c p IH]; intros t; [reflexivity|].
  rewrite append_cons. cbn [String.length all_space_from]. apply IH.
Qed.

Lemma all_space_cons w t :
  In w WhiteSpace -> all_space (w +:+ t) = all_space t.
Proof.
  intros Hin. pose proof (space_width_In w t Hin) as Hw.
  destruct (In_WhiteSpace_cons _ Hin) as (c & w' & ->).
  unfold all_space. rewrite append_cons in *. cbn [all_space_from].
  rewrite Hw. cbn [String.length]. apply all_space_from_skip.
Qed.

Lemma all_space_inv s :
  all_space s = true ->
  s = EmptyString \/
  exists w t, In w WhiteSpace /\ s = w +:+ t /\ all_space t = true.
Proof.
  destruct s as [|c s]; [auto|]. unfold all_space. cbn [all_space_from].
  destruct (space_width (String c s)) as [|k] eqn:Hw; [discriminate|].
  intros Ha. right.
  destruct (space_width_Some _ _ Hw) as (w & rest & Hin & Hs & Hlen).
  exists w, rest. split; [exact Hin|]. split; [exact Hs|].
  destruct (In_WhiteSpace_cons _ Hin) as (c' & w' & ->).
  rewrite append_cons in Hs. injection Hs as <- ->.
  cbn [String.length] in Hlen. injection Hlen as <-.
  rewrite all_space_from_skip in Ha. exact Ha.
Qed.

Lemma all_space_app a : forall b,
  all_space a = true -> all_space b = true -> all_space (a +:+ b) = true.
Proof.
  induction a as [a IH] using string_length_ind. intros b Ha Hb.
  destruct (all_space_inv _ Ha) as [->|(w & t & Hin & -> & Ht)]; [exact Hb|].
  rewrite append_assoc, (all_space_cons _ _ Hin). apply IH; auto.
  rewrite length_append. destruct (In_WhiteSpace_cons _ Hin) as (c & w' & ->).
  cbn [String.length]. lia.
Qed.

(** *** [trim] *)

Lemma trim_start_from_skip p : forall t,
  trim_start_from (String.length p) (p +:+ t) = trim_start_from 0 t.
Proof.
  induction p as [|c p IH]; intros t; [reflexivity|].
  rewrite append_cons. cbn [String.length trim_start_from]. apply IH.
Qed.

Lemma trim_start_spec s :
  exists l, all_space l = true /\ s = l +:+ trim_start s /\
            forall w x, In w WhiteSpace -> trim_start s <> w +:+ x.
Proof.
  induction s as [s IH] using string_length_ind.
  destruct s as [|c s].
  - exists EmptyString. repeat split. intros w x Hin Heq.
    destruct (In_WhiteSpace_cons _ Hin) as (c & w' & ->). discriminate.
  - unfold trim_start. cbn [trim_start_from].
    destruct (space_width (String c s)) as [|k] eqn:Hw.
    + exists EmptyString. repeat split. intros w x Hin. apply space_width_zero; assumption.
    + destruct (space_width_Some _ _ Hw) as (w & rest & Hin & Hs & Hlen).
      destruct (In_WhiteSpace_cons _ Hin) as (c' & w' & ->).
      rewrite append_cons in Hs. injection Hs as <- ->.
      cbn [String.length] in Hlen. injection Hlen as <-.
      rewrite trim_start_from_skip. fold (trim_start rest).
      destruct (IH rest) as (l & Hl & Hrest & Hstart).
      { cbn [String.length]. rewrite length_append. lia. }
      exists (String c w' +:+ l). split; [|split].
      * rewrite (all_space_cons _ _ Hin). exact Hl.
      * rewrite append_assoc, <- Hrest. reflexivity.
      * exact Hstart.
Qed.

Lemma trim_end_spec s :
  (exists r, all_space r = true /\ s = trim_end s +:+ r) /\
  forall p w, In w WhiteSpace -> trim_end s <> p +:+ w.
Proof.
  induction s as [|c s [(r & Hr & Hs) Hend]].
  - split.
    + exists EmptyString. split; reflexivity.
    + intros p w Hin. cbn. destruct (In_WhiteSpace_cons _ Hin) as (c & w' & ->).
      destruct p; discriminate.
  - cbn [trim_end]. destruct (all_space (String c s)) eqn:Ha.
    + split.
      * exists (String c s). split; [exact Ha|reflexivity].
      * intros p w Hin. destruct (In_WhiteSpace_cons _ Hin) as (c' & w' & ->).
        destruct p; discriminate.
    + split.
      * exists r. split; [exact Hr|]. rewrite append_cons, <- Hs. reflexivity.
      * intros p w Hin Heq. destruct p as [|c' p].
        -- rewrite append_nil in Heq.
           assert (Hall : all_space (String c s) = true).
           { rewrite Hs, <- append_cons, Heq, (all_space_cons _ _ Hin). exact Hr. }
           congruence.
        -- rewrite append_cons in Heq. injection Heq as _ Heq.
           exact (Hend _ _ Hin Heq).
Qed.

Lemma all_space_white s : all_space s = true -> white s.
Proof.
  induction s as [s IH] using string_length_ind. intros Hs.
  destruct (all_space_inv _ Hs) as [->|(w & t & Hin & -> & Ht)]; [constructor|].
  constructor; [exact Hin|]. apply IH; [|exact Ht].
  rewrite length_append. destruct (In_WhiteSpace_cons _ Hin) as (c & w' & ->).
  cbn [String.length]. lia.
Qed.

Lemma white_all_space s : white s -> all_space s = true.
Proof.
  induction 1 as [|w s Hin _ IH]; [reflexivity|].
  rewrite (all_space_cons _ _ Hin). exact IH.
Qed.

(** [trim] removes white space at the two ends and nothing else, and
    leaves none there. *)
Lemma trim_trimmed s : trimmed s (trim s).
Proof.
  unfold trim. destruct (trim_start_spec s) as (l & Hl & Hs & Hstart).
  destruct (trim_end_spec (trim_start s)) as [(r & Hr & Hu) Hend].
  exists l, r. split; [exact (all_space_white _ Hl)|].
  split; [exact (all_space_white _ Hr)|]. split; [|split].
  - rewrite <- Hu. exact Hs.
  - intros w x Hin Heq. apply (Hstart w (x +:+ r) Hin).
    rewrite Hu at 1. rewrite Heq, append_assoc. reflexivity.
  - exact Hend.
Qed.

(** *** The places block *)

Lemma drop_chars_append p : forall x, drop_chars (String.length p) (p +:+ x) = x.
Proof.
  induction p as [|c p IH]; intros x.
  - rewrite append_nil. destruct x; reflexivity.
  - rewrite append_cons. cbn [String.length drop_chars]. apply IH.
Qed.

Lemma after_tag_from_skip p : forall t,
  after_tag_from (String.length p) (p +:+ t) = after_tag_from 0 t.
Proof.
  induction p as [|c p IH]; intros t; [reflexivity|].
  rewrite append_cons. cbn [String.length after_tag_from]. apply IH.
Qed.

(** One step of [after_tag]: the first white-space character is given to
    [\s*], and is the [\n] only when what follows it does not match. *)
Lemma after_tag_step s :
  after_tag s =
  match space_width s with
  | O => None
  | S _ =>
      match s with
      | String c s' =>
          match after_tag (drop_chars (space_width s) s) with
          | Some r => Some r
          | None => if is_newline c then find_close s' else None
          end
      | EmptyString => None
      end
  end.
Proof.
  destruct s as [|c s]; [reflexivity|].
  unfold after_tag at 1. cbn [after_tag_from].
  destruct (space_width (String c s)) as [|k] eqn:Hw; [reflexivity|].
  destruct (space_width_Some _ _ Hw) as (w & rest & Hin & Hs & Hlen).
  destruct (In_WhiteSpace_cons _ Hin) as (c' & w' & ->).
  rewrite append_cons in Hs. injection Hs as <- ->.
  cbn [String.length] in Hlen. injection Hlen as <-.
  rewrite after_tag_from_skip. cbn [drop_chars].
  rewrite drop_chars_append. reflexivity.
Qed.

Lemma newline_width c s :
  is_newline c = true -> space_width (String c s) = 1%nat.
Proof.
  unfold is_newline. intros Hc. apply Ascii.eqb_eq in Hc. subst c.
  apply (space_width_In newline s). unfold WhiteSpace. cbn. auto.
Qed.

Lemma find_close_decompose s : forall cap post,
  find_close s = Some (cap, post) ->
  s = cap +:+ newline +:+ fence +:+ post.
Proof.
  induction s as [|c s IH]; intros cap post; cbn [find_close].
  - cbn. discriminate.
  - destruct (String.prefix (newline +:+ fence) (String c s)) eqn:Hp.
    + intros [= <- <-]. apply prefix_decompose in Hp. exact Hp.
    + destruct (find_close s) as [[cap' post']|]; [|discriminate].
      intros [= <- <-]. rewrite append_cons. f_equal. apply IH. reflexivity.
Qed.

Lemma after_tag_decompose s : forall cap post,
  after_tag s = Some (cap, post) ->
  exists ws, all_space ws = true /\
             s = ws +:+ newline +:+ cap +:+ newline +:+ fence +:+ post.
Proof.
  induction s as [s IH] using string_length_ind. intros cap post.
  rewrite after_tag_step.
  destruct (space_width s) as [|k] eqn:Hw; [discriminate|].
  destruct s as [|c s']; [discriminate|].
  destruct (space_width_Some _ _ Hw) as (w & rest & Hin & Hs & Hlen).
  assert (Hdrop : drop_chars (S k) (String c s') = rest).
  { rewrite Hs, <- Hlen. apply drop_chars_append. }
  rewrite Hdrop.
  destruct (after_tag rest) as [[cap' post']|] eqn:Hr.
  - intros [= <- <-].
    assert (Hlt : (String.length rest < String.length (String c s'))%nat).
    { rewrite Hs, length_append. lia. }
    destruct (IH rest Hlt _ _ Hr) as (ws & Hws & Hrest).
    exists (w +:+ ws). split.
    + rewrite (all_space_cons _ _ Hin). exact Hws.
    + rewrite Hs, Hrest, append_assoc. reflexivity.
  - destruct (is_newline c) eqn:Hn; [|discriminate]. intros Hf.
    apply find_close_decompose in Hf. exists EmptyString. split; [reflexivity|].
    unfold is_newline in Hn. apply Ascii.eqb_eq in Hn. subst c.
    rewrite append_nil. change newline with (String (ascii_of_nat 10) EmptyString).
    rewrite append_cons, append_nil. f_equal. exact Hf.
Qed.

(** A match of the places block splits the reply into what precedes the
    block, the block, and what follows it. *)
Lemma places_match_decompose s : forall pre cap post,
  places_match s = Some (pre, cap, post) ->
  exists ws, all_space ws = true /\
    s = pre +:+ (fence +:+ "places" +:+ ws +:+ newline +:+ cap +:+ newline +:+ fence)
            +:+ post.
Proof.
  assert (Hhere : forall s cap post,
            (if String.prefix (fence +:+ "places") s then after_tag (drop_chars 9 s)
             else None) = Some (cap, post) ->
            exists ws, all_space ws = true /\
              s = (fence +:+ "places" +:+ ws +:+ newline +:+ cap +:+ newline +:+ fence)
                    +:+ post).
  { intros s0 cap post. destruct (String.prefix _ s0) eqn:Hp; [|discriminate].
    intros Ha. apply after_tag_decompose in Ha as (ws & Hws & Hs).
    exists ws. split; [exact Hws|].
    rewrite (prefix_decompose _ _ Hp).
    change (String.length (fence +:+ "places")) with 9%nat.
    rewrite Hs. rewrite !append_assoc. reflexivity. }
  induction s as [|c s IH]; intros pre cap post.
  - cbn. discriminate.
  - cbn [places_match].
    destruct (if String.prefix (fence +:+ "places") (String c s) then _ else None)
      as [[cap' post']|] eqn:Hh.
    + intros [= <- <- <-]. apply Hhere in Hh. exact Hh.
    + destruct (places_match s) as [[[pre' cap'] post']|]; [|discriminate].
      intros [= <- <- <-]. destruct (IH _ _ _ eq_refl) as (ws & Hws & ->).
      exists ws. split; [exact Hws|]. rewrite append_cons. reflexivity.
Qed.

Lemma prefix_append p : forall x, String.prefix p (p +:+ x) = true.
Proof.
  induction p as [|c p IH]; intros x.
  - rewrite append_nil. destruct x; reflexivity.
  - rewrite append_cons. cbn [String.prefix].
    destruct (Ascii.ascii_dec c c); [apply IH|congruence].
Qed.

Lemma find_close_complete cap : forall post,
  is_Some (find_close (cap +:+ newline +:+ fence +:+ post)).
Proof.
  induction cap as [|c cap IH]; intros post.
  - rewrite append_nil.
    change (newline +:+ fence +:+ post) with ((newline +:+ fence) +:+ post).
    destruct ((newline +:+ fence) +:+ post) as [|a t] eqn:E; [discriminate|].
    cbn [find_close]. rewrite <- E, prefix_append. eauto.
  - rewrite append_cons. cbn [find_close].
    destruct (String.prefix _ _); [eauto|].
    destruct (IH post) as [[cap' post'] ->]. eauto.
Qed.

Lemma after_tag_complete ws : forall cap post,
  all_space ws = true ->
  is_Some (after_tag (ws +:+ newline +:+ cap +:+ newline +:+ fence +:+ post)).
Proof.
  induction ws as [ws IH] using string_length_ind. intros cap post Hws.
  rewrite after_tag_step.
  destruct (all_space_inv _ Hws) as [->|(w & t & Hin & -> & Ht)].
  - rewrite append_nil. change newline with (String (ascii_of_nat 10) EmptyString).
    rewrite append_cons, append_nil.
    rewrite (newline_width (ascii_of_nat 10)) by reflexivity.
    cbn [drop_chars]. destruct (after_tag _); [eauto|].
    change (is_newline (ascii_of_nat 10)) with true. cbv iota.
    apply (find_close_complete cap post).
  - rewrite append_assoc, (space_width_In _ _ Hin).
    destruct (In_WhiteSpace_cons _ Hin) as (c & w' & Hw).
    assert (Hlen : String.length w = S (String.length w')) by (rewrite Hw; reflexivity).
    rewrite Hlen.
    assert (Hcons : w +:+ (t +:+ newline +:+ cap +:+ newline +:+ fence +:+ post)
                    = String c (w' +:+ (t +:+ newline +:+ cap +:+ newline +:+ fence +:+ post))).
    { rewrite Hw, append_cons. reflexivity. }
    rewrite Hcons at 1. rewrite <- Hlen, drop_chars_append.
    assert (Hlt : (String.length t < String.length (w +:+ t))%nat).
    { rewrite length_append, Hw. cbn [String.length]. lia. }
    destruct (IH t Hlt cap post Ht) as [r ->]. eauto.
Qed.

Lemma find_close_shortest s : forall cap post a b,
  find_close s = Some (cap, post) ->
  cap <> a +:+ newline +:+ fence +:+ b.
Proof.
  induction s as [|c s IH]; intros cap post a b; cbn [find_close].
  - cbn. discriminate.
  - destruct (String.prefix (newline +:+ fence) (String c s)) eqn:Hp.
    + intros [= <- <-]. destruct a; discriminate.
    + destruct (find_close s) as [[cap' post']|] eqn:Hf; [|discriminate].
      intros [= <- <-] Heq.
      destruct a as [|c' a].
      * rewrite append_nil in Heq.
        apply find_close_decompose in Hf.
        assert (Hs : String c s = (newline +:+ fence) +:+ (b +:+ newline +:+ fence +:+ post')).
        { rewrite Hf. rewrite <- append_cons, Heq. rewrite !append_assoc. reflexivity. }
        rewrite Hs, prefix_append in Hp. discriminate.
      * rewrite append_cons in Heq. injection Heq as -> Heq.
        exact (IH _ _ _ _ eq_refl Heq).
Qed.

Lemma after_tag_shortest s : forall cap post a b,
  after_tag s = Some (cap, post) ->
  cap <> a +:+ newline +:+ fence +:+ b.
Proof.
  induction s as [s IH] using string_length_ind. intros cap post a b.
  rewrite after_tag_step.
  destruct (space_width s) as [|k] eqn:Hw; [discriminate|].
  destruct s as [|c s']; [discriminate|].
  destruct (space_width_Some _ _ Hw) as (w & rest & Hin & Hs & Hlen).
  assert (Hdrop : drop_chars (S k) (String c s') = rest).
  { rewrite Hs, <- Hlen. apply drop_chars_append. }
  rewrite Hdrop.
  destruct (after_tag rest) as [[cap' post']|] eqn:Hr.
  - intros [= <- <-]. apply (IH rest) with (post := post'); [|exact Hr].
    rewrite Hs, length_append. lia.
  - destruct (is_newline c); [|discriminate]. apply find_close_shortest.
Qed.

End WhiteSpaces.

(** ** The chat orchestrator *)

Section Chat.
Context `{Builtins}.

(** The handler of a failed lookup logs the name of the place and keeps
    the place. *)
Lemma lookup_failed_keeps_place e s place :
  rejects place = false ->
  (template place "name" ;;; ret place) e s = (Ret place, s).
Proof.
  unfold rejects. intros Hr. apply orb_false_iff in Hr as [Hp Hn].
  unfold template, to_string. rewrite (member_not_nullish _ _ Hp). run.
  rewrite Hn. reflexivity.
Qed.

Lemma template_run e s v k :
  js_nullish v = false ->
  template v k e s =
    (if unconvertible (opt_member v k) then Throw TypeError_convert else Ret tt, s).
Proof.
  intros Hv. unfold template, to_string. rewrite (member_not_nullish _ _ Hv). run.
  destruct (unconvertible _); reflexivity.
Qed.

(** One lookup: its promise rejects when the name of the place cannot be
    read or converted, and is fulfilled with the place after its lookup
    otherwise; its request is recorded when it makes one. *)
Lemma correct_place_run e s place :
  correct_place place e s =
    (if rejects place then Throw (rejection place)
     else Ret (place_after e (length (trace s)) place),
     match lookup_query place with
     | Some q => log (nominatim_request q) s
     | None => s
     end).
Proof.
  unfold correct_place, place_after, geocoder_match, lookup_query, rejects, rejection.
  destruct (js_nullish place) eqn:Hp.
  - cbn [orb]. unfold template. rewrite (member_nullish _ _ Hp). reflexivity.
  - cbn [orb]. rewrite (member_not_nullish _ _ Hp). run. unfold to_string.
    destruct (unconvertible (opt_member place "name")) eqn:Hn.
    + run. rewrite (template_run _ _ _ _ Hp), Hn. reflexivity.
    + assert (Hk : forall s0, template place "name" e s0 = (Ret tt, s0)).
      { intros s0. rewrite (template_run _ _ _ _ Hp), Hn. reflexivity. }
      run. unfold encode.
      destruct (URIError (ToString (opt_member place "name"))) eqn:Hu;
        run; [rewrite Hk; reflexivity|].
      destruct (upstream e (length (trace s)) _) as [r|m]; run;
        [|rewrite Hk; reflexivity].
      destruct (JSON_parse (body r)) as [nomData|]; run; [|rewrite Hk; reflexivity].
      destruct (js_nullish nomData) eqn:Hd.
      { rewrite (member_nullish _ _ Hd). run. rewrite Hk. reflexivity. }
      rewrite (member_not_nullish _ _ Hd). unfold to_number. run.
      destruct (unconvertible (opt_member nomData "length")); run;
        [rewrite Hk; reflexivity|].
      destruct (num_lt (Fin 0) (ToNumber (opt_member nomData "length")));
        [|reflexivity].
      rewrite (index_not_nullish _ _ Hd). run.
      destruct (js_nullish (js_index nomData 0)) eqn:Hf.
      { rewrite (member_nullish _ _ Hf). run. rewrite Hk. reflexivity. }
      rewrite !(member_not_nullish _ _ Hf). unfold parse_float. run.
      destruct (unconvertible (opt_member (js_index nomData 0) "lat")); run;
        [rewrite Hk; reflexivity|].
      destruct (unconvertible (opt_member (js_index nomData 0) "lon")); run;
        [rewrite Hk; reflexivity|].
      rewrite Hk, !(template_run _ _ _ _ Hp). cbn [orb].
      destruct (unconvertible (opt_member place "lat")); [rewrite Hk; reflexivity|].
      destruct (unconvertible (opt_member place "lon")); [rewrite Hk; reflexivity|].
      reflexivity.
Qed.

Lemma length_lookups_cons p ps :
  length (lookups (p :: ps)) = (requests_of p + length (lookups ps))%nat.
Proof.
  unfold lookups, requests_of. cbn [flat_map]. rewrite length_app.
  destruct (lookup_query p); reflexivity.
Qed.

Lemma mapM_correct_place e ps : forall s,
  exists s',
    mapM (fun place => settle (correct_place place)) ps e s =
      (Ret (imap (promise_of e (length (trace s)) ps) ps), s') /\
    trace s' = trace s ++ lookups ps /\
    ticks s' = ticks s /\ cachedToken s' = cachedToken s /\
    tokenExpiry s' = tokenExpiry s /\ poiCache s' = poiCache s /\
    scbCache_data s' = scbCache_data s /\ scbCache_ts s' = scbCache_ts s /\
    geoCache_data s' = geoCache_data s /\ geoCache_ts s' = geoCache_ts s.
Proof.
  induction ps as [|p ps IH]; intros s; cbn [mapM].
  - exists s. split; [reflexivity|]. cbn. rewrite app_nil_r. repeat split.
  - run. unfold settle at 1. rewrite correct_place_run. cbn [fst snd].
    set (s1 := match lookup_query p with Some q => _ | None => s end).
    destruct (IH s1) as (s' & Hrun & Htr & Hrest). rewrite Hrun.
    assert (Hlen : length (trace s1) = (length (trace s) + requests_of p)%nat).
    { subst s1. unfold requests_of. destruct (lookup_query p); fields.
      - rewrite length_app. cbn. lia.
      - lia. }
    exists s'. split; [|split].
    + cbn [imap]. f_equal. f_equal. f_equal.
      apply imap_ext. intros i x _. unfold promise_of. cbn [request_index].
      rewrite Hlen. reflexivity.
    + rewrite Htr. subst s1. unfold lookups. cbn [flat_map].
      destruct (lookup_query p); fields; [rewrite <- app_assoc|]; reflexivity.
    + subst s1. destruct (lookup_query p); exact Hrest.
Qed.

Lemma settle_lookup (settled : list jsval) order : forall acc,
  length acc = length settled ->
  let r := foldl (fun acc i =>
                    match settled !! i with
                    | Some v => <[i := v]> acc
                    | None => acc
                    end) acc order in
  length r = length settled /\
  forall i, (i ∈ order -> r !! i = settled !! i) /\
            (i ∉ order -> r !! i = acc !! i).
Proof.
  induction order as [|j order IH]; intros acc Hlen; cbn [foldl].
  - split; [exact Hlen|]. intros i. split; [|reflexivity].
    intros Hin. inversion Hin.
  - set (acc' := match settled !! j with Some v => <[j := v]> acc | None => acc end).
    assert (Hlen' : length acc' = length settled).
    { subst acc'. destruct (settled !! j); [rewrite length_insert|]; exact Hlen. }
    destruct (IH acc' Hlen') as [Hl Hi]. split; [exact Hl|].
    intros i. destruct (Hi i) as [Hin Hout]. split.
    + intros Hmem. destruct (decide (i ∈ order)) as [Ho|Ho]; [auto|].
      rewrite (Hout Ho). apply elem_of_cons in Hmem as [->|?]; [|contradiction].
      subst acc'. destruct (settled !! j) as [v|] eqn:Hj.
      * apply list_lookup_insert_eq. rewrite Hlen. eapply lookup_lt_Some, Hj.
      * apply lookup_ge_None. rewrite Hlen. apply lookup_ge_None, Hj.
    + intros Hmem. apply not_elem_of_cons in Hmem as [Hne Ho].
      rewrite (Hout Ho). subst acc'. destruct (settled !! j); [|reflexivity].
      apply list_lookup_insert_ne. congruence.
Qed.

(** Whatever the order in which the promises settle, the result holds the
    values in the order of the promises. *)
Lemma Promise_all_in_order order (settled : list jsval) :
  Permutation order (seq 0 (length settled)) ->
  Promise_all order settled = settled.
Proof.
  intros Hperm. unfold Promise_all.
  destruct (settle_lookup settled order (replicate (length settled) VUndef))
    as [Hlen Hi]; [apply length_replicate|].
  cbn zeta in Hlen, Hi. apply list_eq. intros i.
  destruct (decide (i < length settled)%nat) as [Hlt|Hge].
  - apply (proj1 (Hi i)). rewrite Hperm. apply elem_of_seq. lia.
  - rewrite !lookup_ge_None_2 by lia. reflexivity.
Qed.

Lemma Promise_all_nil order : Promise_all order [] = [].
Proof.
  unfold Promise_all. cbn [length replicate].
  induction order as [|i order IH]; [reflexivity|]. cbn [foldl]. exact IH.
Qed.

(** Up to the reply of the model the handler makes one call: the request
    to the model, with the credential and the message. *)
Lemma chat_prefix_request e s req_body content :
  model_answered e s req_body content ->
  chat req_body e s =
    try_catch (answer content) (fun x => ret (internal_error x)) e
      (log (chat_request (OPENROUTER_API_KEY e) (opt_member req_body "message")) s).
Proof.
  intros (message & apiKey & r & data & Hm & Hmne & Hk & Hkne & Hkp & Hu & Hok & Hj & Hd & Hc).
  unfold chat.
  assert (Hb : js_nullish req_body = false).
  { destruct req_body; try discriminate; reflexivity. }
  rewrite (member_not_nullish _ _ Hb), Hm. run.
  assert (Ht : truthy (VStr message) = true).
  { cbn. destruct message; [congruence|reflexivity]. }
  rewrite Ht. cbn [negb]. run. rewrite Hk.
  assert (Hta : truthy (VStr apiKey) = true).
  { cbn. destruct apiKey; [congruence|reflexivity]. }
  rewrite Hta. cbn [negb orb].
  assert (Hp : String.eqb apiKey "your-openrouter-api-key-here" = false).
  { apply String.eqb_neq. exact Hkp. }
  rewrite Hp. run. rewrite Hu. run. rewrite Hok. cbn [negb]. run.
  rewrite Hj. rewrite (member_not_nullish _ _ Hd). run. rewrite Hc.
  reflexivity.
Qed.

(** The lookups of an array of places: every lookup is started; the
    handler fails with the rejection of least index when there is one, and
    answers with the places after their lookups otherwise. *)
Lemma answer_array e s content pre cap post ps :
  places_match content = Some (pre, cap, post) ->
  JSON_parse cap = Some (VArr ps) ->
  exists s',
    answer content e s =
      (match first_rejection (imap (promise_of e (length (trace s)) ps) ps) with
       | Some x => Throw x
       | None =>
           Ret {| code := 200; headers := [];
                  sent := Json (VObj
                    [("text", VStr (trim (pre +:+ post)));
                     ("places",
                      VArr (Promise_all (completion e (length ps))
                              (fulfilled (imap (promise_of e (length (trace s)) ps) ps))))]) |}
       end, s') /\
    trace s' = trace s ++ lookups ps /\
    ticks s' = ticks s /\ cachedToken s' = cachedToken s /\
    tokenExpiry s' = tokenExpiry s /\ poiCache s' = poiCache s /\
    scbCache_data s' = scbCache_data s /\ scbCache_ts s' = scbCache_ts s /\
    geoCache_data s' = geoCache_data s /\ geoCache_ts s' = geoCache_ts s.
Proof.
  intros Hp Hj. unfold answer. run. rewrite Hp, Hj. cbn [default]. unfold id.
  unfold member, to_number. run.
  cbn [js_length String.eqb Ascii.eqb Bool.eqb unconvertible ToNumber].
  destruct ps as [|p0 ps'].
  - cbn [length imap first_rejection fulfilled map lookups flat_map].
    rewrite Promise_all_nil. exists s. split; [reflexivity|].
    rewrite app_nil_r. repeat split.
  - set (ps := p0 :: ps') in *.
    change (length ps) with (S (length ps')) at 1. rewrite positive_length. run.
    destruct (mapM_correct_place e ps s) as (s' & Hrun & Hrest).
    rewrite Hrun. rewrite length_imap. exists s'. split; [|exact Hrest].
    destruct (first_rejection _); reflexivity.
Qed.

(** C7.  When the reply of the model holds a places block whose content
    is not JSON, the request is answered with status 200: the list of
    places is empty and the text is the reply without the block and
    without the white space at its two ends.  What is left out of the
    text is the block: the opening fence and its tag, white space, a line
    break, the content, a line break and the closing fence.  The handler
    has made the call to the model and no other, and has changed nothing
    else of the server. *)
Theorem unparsable_places_block e s req_body content pre cap post :
  model_answered e s req_body content ->
  places_match content = Some (pre, cap, post) ->
  JSON_parse cap = None ->
  exists text ws,
    chat req_body e s =
      (Ret {| code := 200; headers := [];
              sent := Json (VObj [("text", VStr text); ("places", VArr [])]) |},
       log (chat_request (OPENROUTER_API_KEY e) (opt_member req_body "message")) s) /\
    trimmed (pre +:+ post) text /\
    white ws /\
    content = pre +:+ (fence +:+ "places" +:+ ws +:+ newline +:+ cap +:+ newline +:+ fence)
                  +:+ post.
Proof.
  intros Hm Hp Hj. rewrite (chat_prefix_request _ _ _ _ Hm).
  destruct (places_match_decompose _ _ _ _ Hp) as (ws & Hws & Hc).
  exists (trim (pre +:+ post)), ws.
  split; [|split; [apply trim_trimmed|split; [apply all_space_white, Hws|exact Hc]]].
  unfold answer. run. rewrite Hp, Hj. cbn [default]. unfold id.
  unfold member, to_number. run. cbn. reflexivity.
Qed.

End Chat.

(** ** The POI handler: validation, cache discipline, query *)

Section PoiHandler.
Context `{Builtins}.

(** A known category without a box. *)
Lemma pois_no_bbox e s c cat bbox :
  assoc POI_CATEGORIES c = Some cat ->
  bbox = None \/ bbox = Some EmptyString ->
  pois (Some c) bbox e s =
    (Ret (bad_request "bbox required (south,west,north,east)"), s).
Proof.
  intros Hc Hb. unfold pois. cbn [mbind option_bind]. rewrite Hc.
  destruct Hb as [-> | ->]; reflexivity.
Qed.

(** What a query of Overpass leaves of the cache: on success the entry of
    the request and the entries that were there, otherwise the cache as it
    was. *)
Lemma query_overpass_cache e s cat bbox key out s' :
  query_overpass cat bbox key e s = (out, s') ->
  (exists pois,
     out = Ret {| code := 200; headers := []; sent := Json pois |} /\
     forall k v, poiCache s' !! k = Some v ->
       (k = key /\ data v = pois) \/ (k <> key /\ poiCache s !! k = Some v)) \/
  (poiCache s' = poiCache s /\
   (out = Ret (json_error 502 "Overpass API error") \/ exists x, out = Throw x)).
Proof.
  unfold query_overpass. run.
  destruct (upstream e (length (trace s)) (overpass_request cat bbox)) as [r|m]; run.
  2: { intros [= <- <-]. right. split; [reflexivity|]. right. eauto. }
  destruct (ok r); cbn [negb]; run.
  2: { intros [= <- <-]. right. split; [reflexivity|]. left. reflexivity. }
  destruct (JSON_parse (body r)) as [d|]; run.
  2: { intros [= <- <-]. right. split; [reflexivity|]. right. eauto. }
  destruct (pure_member d "elements") as [[elements|x] Hm]; rewrite Hm; run.
  2: { intros [= <- <-]. right. split; [reflexivity|]. right. eauto. }
  destruct (pure_js_map "(data.elements || [])" poi_of_element (js_or elements (VArr []))
              pure_poi_of_element) as [[pois|x] Hj]; rewrite Hj; run.
  2: { intros [= <- <-]. right. split; [reflexivity|]. right. eauto. }
  rewrite store_pois_run. fields. run.
  intros [= <- <-]. left.
  exists pois. split; [reflexivity|].
  assert (Hins : forall k v,
            <[key := {| time := clock e (ticks s); data := pois |}]> (poiCache s) !! k = Some v ->
            (k = key /\ data v = pois) \/ (k <> key /\ poiCache s !! k = Some v)).
  { intros k v Hk. apply lookup_insert_Some in Hk as [[<- <-]|[Hne Hk]]; auto. }
  intros k v. destruct (decide _); fields.
  - unfold sweep. rewrite map_lookup_filter_Some. intros [Hk _]. auto.
  - auto.
Qed.

(** The handler on a known category and a box: the cache, then Overpass. *)
Lemma pois_run e s c cat bbox :
  assoc POI_CATEGORIES c = Some cat ->
  bbox <> EmptyString ->
  let key := c +:+ ":" +:+ bbox in
  let query s0 := try_catch (query_overpass cat bbox key)
                    (fun x => ret (internal_error x)) e s0 in
  pois (Some c) (Some bbox) e s =
    match poiCache s !! key with
    | Some cached =>
        if decide (clock e (ticks s) - time cached < POI_CACHE_TTL)
        then (Ret {| code := 200; headers := []; sent := Json (data cached) |}, tick s)
        else query (tick s)
    | None => query s
    end.
Proof.
  intros Hc Hb key query. unfold pois. cbn [mbind option_bind]. rewrite Hc.
  destruct bbox as [|a b]; [congruence|].
  change (default "undefined" (Some c)) with c. unfold id. fold key.
  run. destruct (poiCache s !! key) as [cached|]; [|reflexivity].
  run. destruct (decide _); reflexivity.
Qed.

Lemma pois_query_cache e s cat bbox key r s' :
  try_catch (query_overpass cat bbox key) (fun x => ret (internal_error x)) e s
    = (Ret r, s') ->
  (exists pois,
     r = {| code := 200; headers := []; sent := Json pois |} /\
     forall k v, poiCache s' !! k = Some v ->
       (k = key /\ data v = pois) \/ (k <> key /\ poiCache s !! k = Some v)) \/
  (poiCache s' = poiCache s /\ (code r = 502 \/ code r = 500)).
Proof.
  unfold try_catch.
  destruct (query_overpass cat bbox key e s) as [out s1] eqn:Hq.
  destruct (query_overpass_cache _ _ _ _ _ _ _ Hq) as [(pois & -> & Hk)|[Hc [->|[x ->]]]].
  - intros [= <- <-]. left. eauto.
  - intros [= <- <-]. right. auto.
  - intros [= <- <-]. right. auto.
Qed.

(** X1.  A category that is not one of the five names of the table, or no
    category at all, is answered with status 400 and a message that lists
    the five names, whatever the box; nothing is called and the state of the
    server is not touched.  (A name that every object inherits from
    [Object.prototype] is found by the lookup of the source and is not such
    a category.) *)
Theorem pois_rejects_unknown_category e s category bbox :
  (c ← category; assoc POI_CATEGORIES c) = None ->
  (forall c, category = Some c -> c ∉ Object_prototype) ->
  pois category bbox e s =
    (Ret (json_error 400
            "Unknown category. Valid: restauranger, kafeer, parker, laddstationer, busshallplatser"),
     s).
Proof.
  intros Hc _. unfold pois. rewrite Hc. reflexivity.
Qed.

(** X2.  With a known category, the request is answered with status 400
    exactly when the box is absent or empty; the message then asks for the
    box, and the state of the server is not touched. *)
Theorem pois_requires_bbox e s c cat bbox r s' :
  assoc POI_CATEGORIES c = Some cat ->
  pois (Some c) bbox e s = (Ret r, s') ->
  (code r = 400 <-> bbox = None \/ bbox = Some EmptyString) /\
  (code r = 400 ->
   r = json_error 400 "bbox required (south,west,north,east)" /\ s' = s).
Proof.
  intros Hc Hrun.
  assert (Hbad : bbox = None \/ bbox = Some EmptyString ->
                 r = json_error 400 "bbox required (south,west,north,east)" /\ s' = s).
  { intros Hb. rewrite (pois_no_bbox _ _ _ _ _ Hc Hb) in Hrun.
    injection Hrun as <- <-. auto. }
  assert (Hiff : code r = 400 <-> bbox = None \/ bbox = Some EmptyString).
  { split; [|intros Hb; destruct (Hbad Hb) as [-> _]; reflexivity].
    intros H400. destruct bbox as [b|]; [|auto].
    destruct (decide (b = EmptyString)) as [->|Hb]; [auto|]. exfalso.
    rewrite (pois_run _ _ _ _ _ Hc Hb) in Hrun. cbv zeta in Hrun.
    assert (Hq : forall s0,
              try_catch (query_overpass cat b (c +:+ ":" +:+ b))
                (fun x => ret (internal_error x)) e s0 = (Ret r, s') -> False).
    { intros s0 Hq. apply pois_query_cache in Hq as [(pois & -> & _)|[_ [Hx|Hx]]];
        cbn in *; congruence. }
    destruct (poiCache s !! _) as [cached|]; [|exact (Hq _ Hrun)].
    destruct (decide _); [|exact (Hq _ Hrun)].
    injection Hrun as <- <-. discriminate. }
  split; [exact Hiff|]. intros H400. apply Hbad, Hiff, H400.
Qed.

(** X3.  A request that is not answered with status 200 leaves the POI
    cache exactly as it was: no entry is written, refreshed or swept. *)
Theorem pois_failure_keeps_cache e s category bbox r s' :
  pois category bbox e s = (Ret r, s') ->
  code r <> 200 ->
  poiCache s' = poiCache s.
Proof.
  destruct (c ← category; assoc POI_CATEGORIES c) as [cat|] eqn:Hc.
  2: { unfold pois. rewrite Hc. intros [= <- <-]. reflexivity. }
  destruct category as [c|]; [|discriminate]. cbn in Hc.
  destruct bbox as [bbox|].
  2: { rewrite (pois_no_bbox _ _ _ _ _ Hc) by auto. intros [= <- <-]. reflexivity. }
  destruct (decide (bbox = EmptyString)) as [->|Hb].
  { rewrite (pois_no_bbox _ _ _ _ _ Hc) by auto. intros [= <- <-]. reflexivity. }
  rewrite (pois_run _ _ _ _ _ Hc Hb). cbv zeta.
  destruct (poiCache s !! _) as [cached|].
  - destruct (decide _).
    + intros [= <- <-]. cbn. congruence.
    + intros Hq Hn. apply pois_query_cache in Hq as [(pois & -> & _)|[Hk _]].
      * cbn in Hn. congruence.
      * exact Hk.
  - intros Hq Hn. apply pois_query_cache in Hq as [(pois & -> & _)|[Hk _]].
    + cbn in Hn. congruence.
    + exact Hk.
Qed.

(** X4.  A request writes the POI cache under its own key only: an entry
    found afterwards under another key was there before, unchanged. *)
Theorem pois_writes_own_key_only e s c cat bbox r s' k v :
  assoc POI_CATEGORIES c = Some cat ->
  pois (Some c) (Some bbox) e s = (Ret r, s') ->
  k <> c +:+ ":" +:+ bbox ->
  poiCache s' !! k = Some v ->
  poiCache s !! k = Some v.
Proof.
  intros Hc Hrun Hne Hk.
  destruct (decide (bbox = EmptyString)) as [->|Hb].
  { rewrite (pois_no_bbox _ _ _ _ _ Hc) in Hrun by auto.
    injection Hrun as <- <-. exact Hk. }
  rewrite (pois_run _ _ _ _ _ Hc Hb) in Hrun. cbv zeta in Hrun.
  assert (Hq : forall s0, poiCache s0 = poiCache s ->
            try_catch (query_overpass cat bbox (c +:+ ":" +:+ bbox))
              (fun x => ret (internal_error x)) e s0 = (Ret r, s') ->
            poiCache s !! k = Some v).
  { intros s0 Hs0 Hq. apply pois_query_cache in Hq as [(pois & _ & Hf)|[Hsame _]].
    - destruct (Hf k v Hk) as [[-> _]|[_ Hold]]; [contradiction|]. rewrite <- Hs0. exact Hold.
    - rewrite <- Hs0, <- Hsame. exact Hk. }
  destruct (poiCache s !! _) as [cached|].
  - destruct (decide _).
    + injection Hrun as <- <-. exact Hk.
    + apply (Hq (tick s)); [reflexivity|exact Hrun].
  - apply (Hq s); [reflexivity|exact Hrun].
Qed.

(** X5.  When a request has been answered with status 200, the same
    request made in the state it left, while the entry is within its TTL,
    gets the same answer; it only reads the clock: nothing is called and
    the cache is not written. *)
Theorem pois_repeat_served_from_cache e s c cat bbox r s1 :
  assoc POI_CATEGORIES c = Some cat ->
  bbox <> EmptyString ->
  pois (Some c) (Some bbox) e s = (Ret r, s1) ->
  code r = 200 ->
  poi_fresh e s1 (c +:+ ":" +:+ bbox) ->
  pois (Some c) (Some bbox) e s1 = (Ret r, tick s1).
Proof.
  intros Hc Hb Hrun Hcode (entry & Hentry & Hfresh).
  rewrite (pois_run _ _ _ _ _ Hc Hb) in Hrun. cbv zeta in Hrun.
  rewrite (pois_run _ _ _ _ _ Hc Hb). cbv zeta. rewrite Hentry.
  destruct (decide _) as [_|Hn]; [|contradiction].
  assert (Hq : forall s0,
            try_catch (query_overpass cat bbox (c +:+ ":" +:+ bbox))
              (fun x => ret (internal_error x)) e s0 = (Ret r, s1) ->
            r = {| code := 200; headers := []; sent := Json (data entry) |}).
  { intros s0 Hq. apply pois_query_cache in Hq as [(pois & -> & Hf)|[_ Hbad]].
    - destruct (Hf _ _ Hentry) as [[_ ->]|[Hne _]]; [reflexivity|congruence].
    - rewrite Hcode in Hbad. destruct Hbad; discriminate. }
  destruct (poiCache s !! _) as [cached|] eqn:Hold.
  - destruct (decide _).
    + injection Hrun as <- <-. fields_in Hentry. rewrite Hold in Hentry.
      injection Hentry as <-. reflexivity.
    + rewrite (Hq _ Hrun). reflexivity.
  - rewrite (Hq _ Hrun). reflexivity.
Qed.

Lemma known_category c cat :
  assoc POI_CATEGORIES c = Some cat ->
  In c ["restauranger"; "kafeer"; "parker"; "laddstationer"; "busshallplatser"].
Proof.
  unfold POI_CATEGORIES. cbn [assoc].
  repeat match goal with
  | |- context [String.eqb ?k c] =>
      destruct (String.eqb_spec k c) as [<-|_]; [cbn; tauto|]
  end.
  discriminate.
Qed.

(** X6.  The cache key determines the request: two requests with known
    categories have the same key only when they have the same category and
    the same box, so that an entry is never served to another request. *)
Theorem poi_cache_key_injective c1 c2 cat1 cat2 b1 b2 :
  assoc POI_CATEGORIES c1 = Some cat1 ->
  assoc POI_CATEGORIES c2 = Some cat2 ->
  c1 +:+ ":" +:+ b1 = c2 +:+ ":" +:+ b2 ->
  c1 = c2 /\ b1 = b2.
Proof.
  intros H1 H2 Heq.
  apply known_category in H1. apply known_category in H2.
  cbn [In] in H1, H2.
  repeat (destruct H1 as [<-|H1]); try contradiction;
  repeat (destruct H2 as [<-|H2]); try contradiction;
  cbv in Heq; try discriminate; injection Heq as <-; split; reflexivity.
Qed.

Lemma split_comma_nonempty s : split_comma s <> [].
Proof.
  destruct s as [|c s]; cbn [split_comma]; [discriminate|].
  destruct (Ascii.eqb c ","); [discriminate|].
  destruct (split_comma s); discriminate.
Qed.

(** [s.split(',').join(',')] is [s]. *)
Lemma join_split_comma s : join "," (split_comma s) = s.
Proof.
  induction s as [|c s IH]; [reflexivity|].
  cbn [split_comma]. destruct (Ascii.eqb_spec c ",") as [->|Hc].
  - pose proof (split_comma_nonempty s) as Hne.
    destruct (split_comma s) as [|x l] eqn:Hs; [congruence|].
    change (join "," (EmptyString :: x :: l)) with (EmptyString +:+ "," +:+ join "," (x :: l)).
    rewrite IH. reflexivity.
  - pose proof (split_comma_nonempty s) as Hne.
    destruct (split_comma s) as [|x l] eqn:Hs; [congruence|].
    destruct l as [|y l].
    + cbn [join] in *. congruence.
    + change (join "," (String c x :: y :: l)) with (String c x +:+ "," +:+ join "," (y :: l)).
      change (join "," (x :: y :: l)) with (x +:+ "," +:+ join "," (y :: l)) in IH.
      rewrite append_cons. f_equal. exact IH.
Qed.

(** X7.  A box of exactly four comma-separated parts goes into the
    Overpass query as it was received, between the parentheses of the node
    filter: splitting it and joining the four parts gives the box back. *)
Theorem overpass_query_box_verbatim cat bbox :
  length (split_comma bbox) = 4%nat ->
  overpass_query cat bbox =
    "[out:json][timeout:10];node[" +:+ dquote +:+ fst cat +:+ dquote +:+ "="
      +:+ dquote +:+ snd cat +:+ dquote +:+ "](" +:+ bbox +:+ ");out body;".
Proof.
  intros Hlen. unfold overpass_query. cbv zeta.
  rewrite <- (join_split_comma bbox) at 5.
  destruct (split_comma bbox) as [|a [|b [|c [|d [|x l]]]]]; try discriminate.
  unfold piece. cbn [lookup list_lookup default join]. unfold id.
  rewrite !append_assoc. reflexivity.
Qed.

Lemma js_or_not_nullish a b : js_nullish b = false -> js_nullish (js_or a b) = false.
Proof.
  intros Hb. unfold js_or. destruct (truthy a) eqn:Ha; [|exact Hb].
  destruct a; try discriminate; reflexivity.
Qed.

Lemma poi_of_element_run el :
  js_nullish el = false ->
  exists p, poi_of_element el = ret p /\ poi_for el p.
Proof.
  intros Hel.
  exists (VObj [("id", opt_member el "id");
                ("name", js_or (opt_member (opt_member el "tags") "name") (VStr EmptyString));
                ("lat", opt_member el "lat");
                ("lon", opt_member el "lon");
                ("tags", js_or (opt_member el "tags") (VObj []))]).
  split.
  - unfold poi_of_element. rewrite !(member_not_nullish _ _ Hel).
    destruct (opt_member el "tags"); reflexivity.
  - repeat split; try reflexivity; apply js_or_not_nullish; reflexivity.
Qed.

(** X8.  When the cache has nothing for the request and Overpass answers
    with a JSON object, the reply lists one POI for each element of
    [elements], in the same order, none when the member is missing.  Each
    POI has the five members [id], [name], [lat], [lon], [tags]: the
    identifier and the coordinates of the element, and a name and tags that
    are never [undefined] or [null], the empty string and the empty object
    standing in for what the element lacks. *)
Theorem pois_lists_every_element e s c cat bbox r data elements :
  assoc POI_CATEGORIES c = Some cat ->
  bbox <> EmptyString ->
  poiCache s !! (c +:+ ":" +:+ bbox) = None ->
  upstream e (length (trace s)) (overpass_request cat bbox) = Responded r ->
  ok r = true ->
  JSON_parse (body r) = Some data ->
  js_nullish data = false ->
  js_or (opt_member data "elements") (VArr []) = VArr elements ->
  Forall (fun el => js_nullish el = false) elements ->
  exists found s',
    pois (Some c) (Some bbox) e s =
      (Ret {| code := 200; headers := []; sent := Json (VArr found) |}, s') /\
    Forall2 poi_for elements found.
Proof.
  intros Hc Hb Hmiss Hu Hok Hj Hd Hels Hall.
  destruct (mapM_ret_Forall2 poi_of_element poi_for elements) as (found & Hmap & HF).
  { eapply Forall_impl; [exact Hall|]. intros el Hel. apply poi_of_element_run, Hel. }
  exists found. unfold pois. cbn [mbind option_bind]. rewrite Hc.
  destruct bbox as [|a b]; [congruence|].
  change (default "undefined" (Some c)) with c. unfold id.
  run. rewrite Hmiss. unfold query_overpass. run. rewrite Hu. run. rewrite Hok.
  cbn [negb]. run. rewrite Hj. rewrite (member_not_nullish _ _ Hd). run.
  rewrite Hels. cbn [js_map]. run. rewrite Hmap. run.
  rewrite store_pois_run. fields. run.
  eexists. split; [reflexivity|exact HF].
Qed.

End PoiHandler.

(** ** The credential cache and the tile proxy: failures *)

Section TileProxy.
Context `{Builtins}.


(** X10.  An answer of the tile server whose status is not 401 is
    relayed after that single call: when it is ok, its body with status
    200, the cache header and its content type as Express stores it, the
    type of binary data when the answer has none; its status with the
    generic failure body otherwise.  The credential is the one [getToken]
    gave and no other exchange is made. *)
Theorem tile_relayed_without_retry e s query token s1 r :
  getToken e s = (Ret token, s1) ->
  upstream e (length (trace s1)) (tile_request (tile_url query) token) = Responded r ->
  status r <> 401 ->
  wmts query e s =
    (Ret (if (200 <=? status r) && (status r <=? 299) then
            {| code := 200;
               headers :=
                 [("Content-Type",
                   Content_Type
                     match content_type r with
                     | Some (String c ct) => String c ct
                     | _ => "application/octet-stream"
                     end);
                  ("Cache-Control", "public, max-age=86400")];
               sent := Bytes (body r) |}
          else
            {| code := status r; headers := []; sent := Text "WMTS request failed" |}),
     log (tile_request (tile_url query) token) s1).
Proof.
  intros Hg Hu Hs. unfold wmts. run. rewrite Hg. run. fold (tile_url query).
  rewrite Hu. run. apply Z.eqb_neq in Hs. rewrite Hs.
  unfold ok. destruct ((200 <=? status r) && (status r <=? 299)); cbn [negb];
    [|reflexivity].
  unfold tile_ok. do 4 f_equal.
  destruct (content_type r) as [[|c ct]|]; reflexivity.
Qed.

(** X11.  After a 401 of the tile server the cached token is dropped
    before the exchange; when that exchange cannot reach the token
    endpoint, the request is answered with status 500 and the message of
    the failure, the tile server is not called again, and the server is
    left without a token, so that the next request starts with an
    exchange. *)
Theorem tile_unauthorized_drops_token e s query token s1 r1 m :
  getToken e s = (Ret token, s1) ->
  upstream e (length (trace s1)) (tile_request (tile_url query) token) = Responded r1 ->
  status r1 = 401 ->
  upstream e (S (length (trace s1))) (token_request e) = Rejected m ->
  exists s',
    wmts query e s = (Ret (json_error 500 m), s') /\
    trace s' = trace s1 ++ [tile_request (tile_url query) token; token_request e] /\
    cachedToken s' = VNull /\
    tokenExpiry s' = Fin 0 /\
    token_hit e s' = false.
Proof.
  intros Hg Hu1 H401 Hut.
  unfold wmts. run. rewrite Hg. run. fold (tile_url query).
  rewrite Hu1. run. rewrite H401. cbn [Z.eqb Pos.eqb]. run.
  unfold getToken at 1. run. cbn [truthy]. run.
  rewrite length_app. cbn [length]. rewrite Nat.add_1_r, Hut.
  eexists. split; [reflexivity|]. fields.
  rewrite <- app_assoc. auto.
Qed.

(** X12.  With a clock that never goes back, a grant whose lifetime is
    missing, not a number, or at most 300 seconds is never reused: the
    expiry it leaves is [NaN] or not after the reading of the clock the
    refresh took, so that every later call of [getToken], as long as no
    other refresh has changed the expiry, makes an exchange of its own. *)
Theorem short_lived_token_never_reused e s r d :
  monotone e ->
  token_hit e s = false ->
  upstream e (length (trace s)) (token_request e) = Responded r ->
  JSON_parse (body r) = Some d ->
  js_nullish d = false ->
  short_lived (ToNumber (opt_member d "expires_in")) ->
  exists s1,
    getToken e s = (Ret (opt_member d "access_token"), s1) /\
    forall s2,
      tokenExpiry s2 = tokenExpiry s1 ->
      (ticks s1 <= ticks s2)%nat ->
      token_hit e s2 = false /\
      forall out s3, getToken e s2 = (out, s3) ->
        trace s3 = trace s2 ++ [token_request e].
Proof.
  intros Hmono Hm Hu Hj Hd Hshort.
  destruct (getToken_refresh e s r d Hm Hu Hj Hd) as (s1 & Hrun & Htr & Hc & Hx).
  exists s1. split; [exact Hrun|]. intros s2 Hx2 Hle.
  assert (Hmiss : token_hit e s2 = false).
  { unfold token_hit. rewrite Hx2, Hx.
    destruct (ToNumber (opt_member d "expires_in")) as [|lifetime];
      cbn [num_sub num_mul num_add num_of_Z num_lt]; [apply andb_false_r|].
    destruct (Qlt_le_dec _ _) as [Hlt|_]; [|apply andb_false_r]. exfalso.
    cbn in Hshort.
    assert (Hnow : clock e (Nat.pred (ticks s1)) <= clock e (ticks s2))
      by (apply Hmono; lia).
    assert (Hq : (inject_Z (clock e (Nat.pred (ticks s1)))
                  <= inject_Z (clock e (ticks s2)))%Q).
    { rewrite <- Zle_Qle. exact Hnow. }
    lra. }
  split; [exact Hmiss|]. intros out s3. apply getToken_miss_trace, Hmiss.
Qed.

End TileProxy.

(** ** The statuses of the JSON handlers *)

Section Replies.
Context `{Builtins}.

Lemma answers_ret codes r : In (code r) codes -> answers codes (ret r).
Proof. intros Hin e s r' s' [= <- _]. exact Hin. Qed.

Lemma answers_throw codes x : answers codes (throw x).
Proof. intros e s r s' [=]. Qed.

Lemma answers_bind {A} codes (m : M A) k :
  (forall a, answers codes (k a)) -> answers codes (bind m k).
Proof.
  intros Hk e s r s' Hrun. apply bind_Ret_inv in Hrun as (a & s1 & _ & Hrun).
  exact (Hk a _ _ _ _ Hrun).
Qed.

(** A handler whose body answers within [codes], 500 among them, always
    answers, and within [codes]. *)
Lemma answers_try_catch codes m e s :
  answers codes m ->
  In 500 codes ->
  exists r s',
    try_catch m (fun x => ret (internal_error x)) e s = (Ret r, s') /\
    In (code r) codes.
Proof.
  intros Hm H500. unfold try_catch.
  destruct (m e s) as [[r|x] s'] eqn:Hrun.
  - exists r, s'. split; [reflexivity|]. exact (Hm _ _ _ _ Hrun).
  - eexists _, _. split; [reflexivity|]. exact H500.
Qed.

Ltac answers_tac :=
  repeat first
    [ apply answers_throw
    | apply answers_ret; cbn; tauto
    | apply answers_bind; intros
    | match goal with
      | |- answers _ (match ?x with _ => _ end) => destruct x
      end ].

(** X13.  No handler lets an exception escape: in every world and every
    state, whatever the request, each of the four handlers answers, the
    POI and the chat handlers with one of the statuses 200, 400, 500 and
    502, the statistics handler with 200 or 500. *)
Theorem handlers_always_answer e s :
  (forall query, exists r s', wmts query e s = (Ret r, s')) /\
  (forall category bbox, exists r s',
     pois category bbox e s = (Ret r, s') /\ In (code r) [200; 400; 500; 502]) /\
  (forall req_body, exists r s',
     chat req_body e s = (Ret r, s') /\ In (code r) [200; 400; 500; 502]) /\
  (exists r s',
     kommuner_sysselsattning e s = (Ret r, s') /\ In (code r) [200; 500]).
Proof.
  split; [|split; [|split]].
  - intros query. unfold wmts, try_catch.
    match goal with
    | |- context [match ?m e s with _ => _ end] => destruct (m e s) as [[r|x] s']
    end; eauto.
  - intros category bbox. unfold pois. apply answers_try_catch; [|cbn; tauto].
    unfold query_overpass. answers_tac.
  - intros req_body. unfold chat. apply answers_try_catch; [|cbn; tauto].
    unfold answer. answers_tac.
  - unfold kommuner_sysselsattning. apply answers_try_catch; [|cbn; tauto].
    answers_tac.
Qed.

End Replies.

(** ** The chat handler: validation, failures, lookups *)

Section ChatHandler.
Context `{Builtins}.

(** X14.  The chat handler validates before it calls anything.  On a
    body that is an object: a missing or falsy message is answered 400;
    otherwise a credential that is unset, empty or the placeholder is
    answered 500 with the configuration message; otherwise a message that
    is not a string is answered 500 as well.  In the three cases no call is
    made and the state of the server is not touched. *)
Theorem chat_rejects_before_any_call e s req_body :
  js_nullish req_body = false ->
  let message := opt_member req_body "message" in
  (truthy message = false ->
     chat req_body e s = (Ret (json_error 400 "message required"), s)) /\
  (truthy message = true -> key_configured (OPENROUTER_API_KEY e) = false ->
     chat req_body e s = (Ret (json_error 500 "OPENROUTER_API_KEY not configured"), s)) /\
  (truthy message = true -> key_configured (OPENROUTER_API_KEY e) = true ->
     (forall m, message <> VStr m) ->
     chat req_body e s = (Ret (json_error 500 "message.substring is not a function"), s)).
Proof.
  intros Hb message. unfold chat, key_configured.
  rewrite (member_not_nullish _ _ Hb). fold message. run.
  split; [|split].
  - intros ->. reflexivity.
  - intros -> Hk. cbn [negb]. run.
    destruct (truthy (OPENROUTER_API_KEY e)); cbn [negb andb orb] in *; [|reflexivity].
    apply negb_false_iff in Hk. rewrite Hk. reflexivity.
  - intros -> Hk Hm. cbn [negb]. run.
    apply andb_prop in Hk as [-> Hk]. apply negb_true_iff in Hk. rewrite Hk.
    cbn [negb orb]. destruct message; try reflexivity. exfalso. eapply Hm. reflexivity.
Qed.

(** X15.  With a valid message and a configured credential, the handler
    makes exactly one call, to the model.  An answer that is not ok gives
    status 502 with the generic message, whatever the status of the answer;
    a call that cannot reach the model gives status 500 with the message of
    the failure.  No geocoder lookup is made. *)
Theorem chat_model_failure e s req_body message :
  opt_member req_body "message" = VStr message -> message <> EmptyString ->
  key_configured (OPENROUTER_API_KEY e) = true ->
  let rq := chat_request (OPENROUTER_API_KEY e) (VStr message) in
  (forall r, upstream e (length (trace s)) rq = Responded r -> ok r = false ->
     chat req_body e s = (Ret (json_error 502 "AI API error"), log rq s)) /\
  (forall m, upstream e (length (trace s)) rq = Rejected m ->
     chat req_body e s = (Ret (json_error 500 m), log rq s)).
Proof.
  intros Hm Hne Hk rq. unfold chat, key_configured in *.
  assert (Hb : js_nullish req_body = false).
  { destruct req_body; try discriminate; reflexivity. }
  rewrite (member_not_nullish _ _ Hb), Hm. run.
  assert (Ht : truthy (VStr message) = true).
  { cbn. destruct message; [congruence|reflexivity]. }
  rewrite Ht. cbn [negb]. run.
  apply andb_prop in Hk as [-> Hk]. apply negb_true_iff in Hk. rewrite Hk.
  cbn [negb orb]. run. fold rq. split.
  - intros r -> ->. reflexivity.
  - intros m ->. reflexivity.
Qed.

(** X16.  When the reply of the model holds no places block, the request
    is answered with status 200, the text being the reply exactly as the
    model gave it, not trimmed, and the list of places empty; the call to
    the model is the only call. *)
Theorem chat_without_places_block e s req_body content :
  model_answered e s req_body content ->
  places_match content = None ->
  chat req_body e s =
    (Ret {| code := 200; headers := [];
            sent := Json (VObj [("text", VStr content); ("places", VArr [])]) |},
     log (chat_request (OPENROUTER_API_KEY e) (opt_member req_body "message")) s).
Proof.
  intros Hm Hp. rewrite (chat_prefix_request _ _ _ _ Hm).
  unfold answer. run. rewrite Hp. unfold member, to_number. run. reflexivity.
Qed.

(** X17.  When the places block holds an array, the calls of the handler
    are the request to the model followed by the geocoder lookups of the
    places, in the order of the block, and nothing else, whatever the
    lookups return, in whatever order they settle and whatever the handler
    answers.  A place has one lookup, for its name converted to a string
    and encoded (the text [undefined] when it has none); it has none when
    it is [null], when its name cannot be converted to a string and when
    the name cannot be encoded. *)
Theorem chat_looks_up_each_place e s req_body content pre cap post ps :
  model_answered e s req_body content ->
  places_match content = Some (pre, cap, post) ->
  JSON_parse cap = Some (VArr ps) ->
  exists r s',
    chat req_body e s = (Ret r, s') /\
    trace s' =
      trace s ++ chat_request (OPENROUTER_API_KEY e) (opt_member req_body "message")
              :: flat_map
                   (fun place =>
                      if js_nullish place
                         || unconvertible (opt_member place "name")
                         || URIError (ToString (opt_member place "name"))
                      then []
                      else [nominatim_request
                              (encodeURIComponent (ToString (opt_member place "name")))])
                   ps.
Proof.
  intros Hm Hp Hj. rewrite (chat_prefix_request _ _ _ _ Hm).
  set (rq := chat_request _ _).
  destruct (answer_array e (log rq s) _ _ _ _ _ Hp Hj) as (s' & Hrun & Htr & _).
  unfold try_catch. rewrite Hrun.
  assert (Hl : lookups ps =
               flat_map
                 (fun place =>
                    if js_nullish place
                       || unconvertible (opt_member place "name")
                       || URIError (ToString (opt_member place "name"))
                    then []
                    else [nominatim_request
                            (encodeURIComponent (ToString (opt_member place "name")))])
                 ps).
  { unfold lookups. apply flat_map_ext. intros p. unfold lookup_query, rejects.
    destruct (js_nullish p || unconvertible (opt_member p "name")); cbn [orb];
      [reflexivity|].
    destruct (URIError _); reflexivity. }
  assert (Ht : trace s' = trace s ++ rq :: flat_map
                 (fun place =>
                    if js_nullish place
                       || unconvertible (opt_member place "name")
                       || URIError (ToString (opt_member place "name"))
                    then []
                    else [nominatim_request
                            (encodeURIComponent (ToString (opt_member place "name")))])
                 ps).
  { rewrite Htr, Hl. fields. rewrite <- app_assoc. reflexivity. }
  destruct (first_rejection _).
  - eexists _, _. split; [reflexivity|]. exact Ht.
  - eexists _, _. split; [reflexivity|]. exact Ht.
Qed.

(** X18.  When the places block holds JSON that is not an array, the
    handler makes no lookup and the value decides the answer: [null] gives
    status 500 (its [length] cannot be read); a value whose [length] cannot
    be converted to a number gives status 500; a value with a positive
    [length], such as a non-empty string, gives status 500 (it has no
    [map]); any other value is sent back as it is, as the [places] of a
    reply with status 200, beside the text without the block and without
    the white space at its two ends. *)
Theorem places_block_not_an_array e s req_body content pre cap post v :
  model_answered e s req_body content ->
  places_match content = Some (pre, cap, post) ->
  JSON_parse cap = Some v ->
  (forall l, v <> VArr l) ->
  exists text,
    trimmed (pre +:+ post) text /\
    chat req_body e s =
      (Ret (if js_nullish v
            then json_error 500
                   ("Cannot read properties of "
                    +:+ match v with VNull => "null" | _ => "undefined" end
                    +:+ " (reading 'length')")
            else if unconvertible (opt_member v "length")
            then json_error 500 "Cannot convert object to primitive value"
            else if num_lt (Fin 0) (ToNumber (opt_member v "length"))
            then json_error 500 "places.map is not a function"
            else {| code := 200; headers := [];
                    sent := Json (VObj [("text", VStr text); ("places", v)]) |}),
       log (chat_request (OPENROUTER_API_KEY e) (opt_member req_body "message")) s).
Proof.
  intros Hm Hp Hj Hv. rewrite (chat_prefix_request _ _ _ _ Hm).
  exists (trim (pre +:+ post)). split; [apply trim_trimmed|].
  unfold answer. run. rewrite Hp, Hj. cbn [default]. unfold id.
  destruct (js_nullish v) eqn:Hn.
  - rewrite (member_nullish _ _ Hn). reflexivity.
  - rewrite (member_not_nullish _ _ Hn). unfold to_number. run.
    destruct (unconvertible (opt_member v "length")); [reflexivity|]. run.
    destruct (num_lt (Fin 0) (ToNumber (opt_member v "length"))); [|reflexivity].
    destruct v; try reflexivity. exfalso. eapply Hv. reflexivity.
Qed.

Lemma first_rejection_none e base ps : forall i0 all,
  Forall (fun place => rejects place = false) ps ->
  first_rejection (imap (fun i => promise_of e base all (i0 + i)) ps) = None /\
  fulfilled (imap (fun i => promise_of e base all (i0 + i)) ps) =
    imap (fun i p => place_after e (request_index base all (i0 + i)) p) ps.
Proof.
  induction ps as [|p ps IH]; intros i0 all Hall; [split; reflexivity|].
  inversion Hall as [|? ? Hp Hps]; subst.
  cbn [imap]. unfold promise_of at 1 3. rewrite Hp. cbn [first_rejection fulfilled map].
  destruct (IH (S i0) all Hps) as [Hf Hv].
  assert (Hext : imap ((fun i => promise_of e base all (i0 + i)) ∘ S) ps
                 = imap (fun i => promise_of e base all (S i0 + i)) ps).
  { apply imap_ext. intros i x _. cbn. f_equal. lia. }
  rewrite Hext. split; [exact Hf|]. f_equal. unfold fulfilled in Hv. rewrite Hv.
  apply imap_ext. intros i x _. cbn. do 2 f_equal. lia.
Qed.

(** The corrected place, member by member. *)
Lemma with_coordinates_members place lat lon :
  exists o',
    with_coordinates place lat lon = VObj o' /\
    obj_lookup o' "lat" = Some (VNum lat) /\
    obj_lookup o' "lon" = Some (VNum lon) /\
    forall o k, place = VObj o -> k <> "lat" -> k <> "lon" ->
      obj_lookup o' k = obj_lookup o k.
Proof.
  unfold with_coordinates. eexists. split; [reflexivity|]. split; [|split].
  - rewrite obj_lookup_set_ne by discriminate. apply obj_lookup_set_eq.
  - apply obj_lookup_set_eq.
  - intros o k -> Hlat Hlon. cbn [spread].
    rewrite !obj_lookup_set_ne by assumption. reflexivity.
Qed.

(** X27.  When the places block holds an array of places whose names can
    be read and converted to strings, the request is answered with status
    200 and as many places, in the same order, whatever the order in which
    the lookups settle.  The place at a position is an object that has the
    coordinates of the first match of the geocoder as [lat] and [lon] and
    the other members of the original place, when its lookup returned a
    match; it is the original place, unchanged, when the lookup failed,
    could not be read or matched nothing. *)
Theorem places_corrected_in_order e s req_body content pre cap post ps :
  model_answered e s req_body content ->
  places_match content = Some (pre, cap, post) ->
  JSON_parse cap = Some (VArr ps) ->
  Forall (fun place => js_nullish place = false /\
                       unconvertible (opt_member place "name") = false) ps ->
  Permutation (completion e (length ps)) (seq 0 (length ps)) ->
  exists s' text rs,
    chat req_body e s =
      (Ret {| code := 200; headers := [];
              sent := Json (VObj [("text", VStr text); ("places", VArr rs)]) |}, s') /\
    trimmed (pre +:+ post) text /\
    length rs = length ps /\
    forall i place, ps !! i = Some place ->
      match geocoder_match e (request_index (S (length (trace s))) ps i) place with
      | Some first =>
          exists o',
            rs !! i = Some (VObj o') /\
            obj_lookup o' "lat" = Some (VNum (parseFloat (opt_member first "lat"))) /\
            obj_lookup o' "lon" = Some (VNum (parseFloat (opt_member first "lon"))) /\
            forall o k, place = VObj o -> k <> "lat" -> k <> "lon" ->
              obj_lookup o' k = obj_lookup o k
      | None => rs !! i = Some place
      end.
Proof.
  intros Hm Hp Hj Hnames Hperm. rewrite (chat_prefix_request _ _ _ _ Hm).
  set (rq := chat_request _ _).
  destruct (answer_array e (log rq s) _ _ _ _ _ Hp Hj) as (s' & Hrun & _).
  unfold try_catch. rewrite Hrun.
  assert (Hrej : Forall (fun place => rejects place = false) ps).
  { eapply Forall_impl; [exact Hnames|]. intros p [Hn Hc]. unfold rejects.
    rewrite Hn, Hc. reflexivity. }
  destruct (first_rejection_none e (length (trace (log rq s))) ps 0 ps Hrej)
    as [Hnone Hful].
  cbn [Nat.add] in Hnone, Hful.
  change (fun i => promise_of e (length (trace (log rq s))) ps i)
    with (promise_of e (length (trace (log rq s))) ps) in Hnone, Hful.
  rewrite Hnone, Hful.
  rewrite Promise_all_in_order by (rewrite length_imap; exact Hperm).
  eexists _, _, _. split; [reflexivity|]. split; [apply trim_trimmed|].
  split; [apply length_imap|].
  intros i place Hi. rewrite list_lookup_imap, Hi. cbn [fmap option_fmap option_map].
  fields. rewrite length_app. cbn [length]. rewrite Nat.add_1_r.
  unfold place_after. destruct (geocoder_match _ _ _) as [first|]; [|reflexivity].
  destruct (with_coordinates_members place (parseFloat (opt_member first "lat"))
              (parseFloat (opt_member first "lon"))) as (o' & -> & Hrest).
  exists o'. split; [reflexivity|]. exact Hrest.
Qed.

End ChatHandler.

(** ** The places block and the correction of a place *)

Section PlacesBlock.
Context `{Builtins}.

(** X19.  Every block of the documented form is found: when the reply
    holds the opening fence with the tag [places], white space, a line
    break, some content, a line break and the closing fence, the match
    succeeds, at that block or at an earlier one. *)
Theorem places_block_found pre ws cap post :
  all_space ws = true ->
  exists pre' cap' post',
    places_match (pre +:+ fence +:+ "places" +:+ ws +:+ newline +:+ cap
                      +:+ newline +:+ fence +:+ post)
      = Some (pre', cap', post') /\
    (String.length pre' <= String.length pre)%nat.
Proof.
  intros Hws. induction pre as [|c pre IH].
  - rewrite append_nil.
    set (rest := ws +:+ newline +:+ cap +:+ newline +:+ fence +:+ post).
    change (fence +:+ "places" +:+ rest) with ((fence +:+ "places") +:+ rest).
    assert (Hh : (if String.prefix (fence +:+ "places") ((fence +:+ "places") +:+ rest)
                  then after_tag (drop_chars 9 ((fence +:+ "places") +:+ rest))
                  else None) = after_tag rest).
    { rewrite prefix_append.
      change 9%nat with (String.length (fence +:+ "places")).
      rewrite drop_chars_append. reflexivity. }
    destruct (after_tag_complete ws cap post Hws) as [[cap' post'] Ha].
    fold rest in Ha.
    destruct ((fence +:+ "places") +:+ rest) as [|a t] eqn:E; [discriminate|].
    cbn [places_match]. rewrite Hh, Ha.
    exists EmptyString, cap', post'. split; [reflexivity|]. cbn. lia.
  - rewrite append_cons. cbn [places_match].
    destruct (if String.prefix _ _ then _ else None) as [[cap' post']|].
    + exists EmptyString, cap', post'. split; [reflexivity|]. cbn. lia.
    + destruct IH as (pre' & cap' & post' & -> & Hlen).
      exists (String c pre'), cap', post'. split; [reflexivity|]. cbn. lia.
Qed.

(** X20.  The capture of the places block stops at the first closing
    fence: it never holds a line break followed by a fence.  What follows
    the first closing fence is therefore never parsed as places, it stays
    in the text. *)
Theorem places_capture_stops_at_first_fence s pre cap post a b :
  places_match s = Some (pre, cap, post) ->
  cap <> a +:+ newline +:+ fence +:+ b.
Proof.
  revert pre cap post. induction s as [|c s IH]; intros pre cap post.
  - cbn. discriminate.
  - cbn [places_match].
    destruct (if String.prefix (fence +:+ "places") (String c s) then _ else None)
      as [[cap' post']|] eqn:Hh.
    + intros [= <- <- <-]. destruct (String.prefix _ _); [|discriminate].
      eapply after_tag_shortest, Hh.
    + destruct (places_match s) as [[[pre' cap'] post']|]; [|discriminate].
      intros [= <- <- <-]. eapply IH. reflexivity.
Qed.

(** X21.  The correction of a place changes its coordinates and nothing
    else: the corrected place has [lat] and [lon] set to the numbers of the
    geocoder, every other member of the place as it was, and no member
    beyond those of the place and the two coordinates. *)
Theorem correction_keeps_other_fields o lat lon :
  exists o',
    with_coordinates (VObj o) lat lon = VObj o' /\
    obj_lookup o' "lat" = Some (VNum lat) /\
    obj_lookup o' "lon" = Some (VNum lon) /\
    (forall k, k <> "lat" -> k <> "lon" -> obj_lookup o' k = obj_lookup o k) /\
    (forall k, In k (obj_keys o') <-> In k (obj_keys o) \/ k = "lat" \/ k = "lon").
Proof.
  unfold with_coordinates. cbn [spread]. eexists. split; [reflexivity|].
  split; [|split; [|split]].
  - rewrite obj_lookup_set_ne by discriminate. apply obj_lookup_set_eq.
  - apply obj_lookup_set_eq.
  - intros k Hlat Hlon. rewrite !obj_lookup_set_ne by assumption. reflexivity.
  - intros k. rewrite !obj_keys_set. tauto.
Qed.

End PlacesBlock.

(** ** The statistics tables and the failures of the merge handler *)

Section Tables.
Context `{Builtins}.

Lemma index_Ret_inv v i e s x s' :
  index v i e s = (Ret x, s') -> x = js_index v i /\ s' = s /\ js_nullish v = false.
Proof.
  destruct v; cbn; try discriminate; intros [= <- <-]; auto.
Qed.

Lemma find_region_Ret vs : forall e s v s',
  find_region vs e s = (Ret v, s') ->
  v = default VUndef
        (List.find (fun v => is_string (opt_member v "code") "Region") vs).
Proof.
  induction vs as [|v0 vs IH]; intros e s v s' Hrun; cbn [find_region List.find] in *.
  - injection Hrun as <- _. reflexivity.
  - apply bind_Ret_inv in Hrun as (code & s1 & Hc & Hrun).
    apply member_Ret_inv in Hc as (-> & _ & _).
    destruct (is_string (opt_member v0 "code") "Region").
    + injection Hrun as <- _. reflexivity.
    + eapply IH, Hrun.
Qed.

Lemma municipalities_codes regionVar values : forall i,
  map snd (municipalities_from regionVar i values) = municipality_codes values.
Proof.
  induction values as [|kod values IH]; intros i;
    cbn [municipalities_from municipality_codes List.filter]; [reflexivity|].
  rewrite map_app, IH. fold (municipality_codes values).
  destruct (four_digits (ToString kod)); reflexivity.
Qed.

Lemma region_codes_source regionVar values : forall i acc e s acc' s',
  region_codes regionVar i values acc e s = (Ret acc', s') ->
  fst acc' = assign_all (fst acc) (municipalities_from regionVar i values) /\
  snd acc' = snd acc ++ municipality_codes values.
Proof.
  induction values as [|kod values IH]; intros i acc e s acc' s' Hrun;
    cbn [region_codes municipalities_from municipality_codes List.filter] in *.
  - injection Hrun as <- _. rewrite app_nil_r. split; reflexivity.
  - apply bind_Ret_inv in Hrun as (acc1 & s1 & Hstep & Hrun).
    apply IH in Hrun as [Hfst Hsnd]. fold (municipality_codes values).
    unfold assign_all in *. rewrite foldl_app.
    destruct (four_digits (ToString kod)).
    + apply bind_Ret_inv in Hstep as (vt & s2 & Hvt & Hstep).
      apply member_Ret_inv in Hvt as (-> & _ & _).
      apply bind_Ret_inv in Hstep as (text & s3 & Htext & Hstep).
      apply index_Ret_inv in Htext as (-> & _ & _).
      injection Hstep as <- _. cbn [fst snd foldl] in *. split; [exact Hfst|].
      rewrite Hsnd, <- app_assoc. reflexivity.
    + injection Hstep as <- _. cbn [foldl]. split; [exact Hfst|exact Hsnd].
Qed.

Lemma region_values_source rows : forall acc e s acc' s',
  region_values rows acc e s = (Ret acc', s') ->
  acc' = assign_all acc (readings rows).
Proof.
  induction rows as [|row rows IH]; intros acc e s acc' s' Hrun;
    cbn [region_values readings flat_map] in *.
  - injection Hrun as <- _. reflexivity.
  - apply bind_Ret_inv in Hrun as (key & s1 & Hkey & Hrun).
    apply member_Ret_inv in Hkey as (-> & _ & _).
    apply bind_Ret_inv in Hrun as (kod & s2 & Hkod & Hrun).
    apply index_Ret_inv in Hkod as (-> & _ & _).
    apply bind_Ret_inv in Hrun as (values & s3 & Hvalues & Hrun).
    apply member_Ret_inv in Hvalues as (-> & _ & _).
    apply bind_Ret_inv in Hrun as (v0 & s4 & Hv0 & Hrun).
    apply index_Ret_inv in Hv0 as (-> & _ & _).
    apply IH in Hrun as ->. unfold assign_all. rewrite foldl_app. fold (readings rows).
    destruct (isNaN (parseFloat (js_index (opt_member row "values") 0)));
      reflexivity.
Qed.

Lemma obj_set_In o k v k' v' :
  In (k', v') (obj_set o k v) -> In (k', v') o \/ (k' = k /\ v' = v).
Proof.
  induction o as [|[k0 v0] o IH]; cbn [obj_set In].
  - intros [[= <- <-]|[]]. auto.
  - destruct (String.eqb k0 k) eqn:E; cbn [In].
    + apply String.eqb_eq in E. subst k0. intros [[= <- <-]|Hin]; auto.
    + intros [Heq|Hin]; [auto|]. destruct (IH Hin); auto.
Qed.

Lemma assign_all_In pairs : forall o k v,
  In (k, v) (assign_all o pairs) -> In (k, v) o \/ In (k, v) pairs.
Proof.
  induction pairs as [|[k0 v0] pairs IH]; intros o k v; cbn [assign_all foldl].
  - auto.
  - intros Hin. apply IH in Hin as [Hin|Hin]; [|right; right; exact Hin].
    cbn [fst snd] in Hin. apply obj_set_In in Hin as [Hin|[-> ->]]; [auto|].
    right. left. reflexivity.
Qed.

Lemma municipalities_from_In regionVar values : forall i name kod,
  In (name, kod) (municipalities_from regionVar i values) ->
  In kod values /\ four_digits (ToString kod) = true.
Proof.
  induction values as [|v values IH]; intros i name kod; cbn [municipalities_from].
  - intros [].
  - intros Hin. apply in_app_or in Hin as [Hin|Hin].
    + destruct (four_digits (ToString v)) eqn:Hd; [|destruct Hin].
      destruct Hin as [[= _ <-]|[]]. split; [left; reflexivity|exact Hd].
    + apply IH in Hin as [Hin Hd]. split; [right; exact Hin|exact Hd].
Qed.

Lemma readings_In rows k v : In (k, v) (readings rows) -> is_value v.
Proof.
  unfold readings. intros Hin. apply in_flat_map in Hin as (row & _ & Hin).
  cbn zeta in Hin.
  destruct (isNaN (parseFloat (js_index (opt_member row "values") 0))) eqn:Hn;
    [destruct Hin|].
  destruct Hin as [[= _ <-]|[]]. eexists. split; [reflexivity|exact Hn].
Qed.

(** What the two calls to the statistics source yield when they succeed:
    the tables of the source. *)
Lemma fetch_scb_source e s d s' :
  fetch_scb e s = (Ret d, s') ->
  scb_source e (length (trace s)) d /\
  exists regionVar values,
    (exists metaRes meta,
       upstream e (length (trace s)) (get_request SCB_URL) = Responded metaRes /\
       JSON_parse (body metaRes) = Some meta /\
       region_variable meta = Some regionVar) /\
    opt_member regionVar "values" = VArr values /\
    trace s' = trace s ++ [get_request SCB_URL;
                           scb_data_request (municipality_codes values)] /\
    ticks s' = ticks s /\
    scbCache_data s' = scbCache_data s /\ scbCache_ts s' = scbCache_ts s /\
    geoCache_data s' = geoCache_data s /\ geoCache_ts s' = geoCache_ts s /\
    Forall (fun nk => In (snd nk) values /\ four_digits (ToString (snd nk)) = true)
           (nameToKod d) /\
    Forall (fun kv => is_value (snd kv)) (kodToValue d).
Proof.
  unfold fetch_scb. run.
  destruct (upstream e (length (trace s)) (get_request SCB_URL)) as [r|m] eqn:Hu;
    [|discriminate].
  run. destruct (ok r) eqn:Hok; cbn [negb]; run; [|discriminate].
  destruct (JSON_parse (body r)) as [meta|] eqn:Hj; run; [|discriminate].
  destruct (member meta "variables" e (log (get_request SCB_URL) s))
    as [[variables|x] s0] eqn:Hm; [|discriminate].
  apply member_Ret_inv in Hm as (-> & -> & Hmeta).
  destruct (opt_member meta "variables") as [| |b|n|str|vs|o] eqn:Hvars;
    try discriminate.
  destruct (find_region vs e (log (get_request SCB_URL) s))
    as [[regionVar|x] s0] eqn:Hf; [|discriminate].
  destruct (pure_inv _ _ _ _ _ (pure_find_region vs) Hf) as [-> _].
  apply find_region_Ret in Hf. run.
  destruct (truthy regionVar) eqn:Htr; cbn [negb]; run; [|discriminate].
  assert (Hreg : region_variable meta = Some regionVar).
  { unfold region_variable. rewrite Hvars.
    destruct (List.find _ vs) as [v|]; [cbn in Hf; congruence|].
    cbn in Hf. subst regionVar. discriminate. }
  destruct (member regionVar "values" e (log (get_request SCB_URL) s))
    as [[values|x] s0] eqn:Hv; [|discriminate].
  apply member_Ret_inv in Hv as (-> & -> & Hrv).
  destruct (opt_member regionVar "values") as [| |b|n|str|l|o] eqn:Hvalues;
    try discriminate.
  destruct (region_codes regionVar 0 l ([], []) e (log (get_request SCB_URL) s))
    as [[[names codes]|x] s1] eqn:Hc; [|discriminate].
  destruct (pure_inv _ _ _ _ _ (pure_region_codes _ _ _ _) Hc) as [-> _].
  apply region_codes_source in Hc as [Hnames Hcodes]. cbn [fst snd app] in *.
  subst names codes.
  run. rewrite length_app. cbn [length]. rewrite Nat.add_1_r.
  destruct (upstream e (S (length (trace s))) (scb_data_request (municipality_codes l)))
    as [r2|m] eqn:Hu2; [|discriminate].
  run. destruct (ok r2) eqn:Hok2; cbn [negb]; run; [|discriminate].
  destruct (JSON_parse (body r2)) as [scbData|] eqn:Hj2; run; [|discriminate].
  match goal with
  | |- context [member scbData "data" e ?s0] =>
      destruct (member scbData "data" e s0) as [[rows|x] s2] eqn:Hr; [|discriminate]
  end.
  apply member_Ret_inv in Hr as (-> & -> & Hdata).
  destruct (js_or (opt_member scbData "data") (VArr [])) as [| |b|n|str|rs|o] eqn:Hrows;
    cbn [iterate]; run; try discriminate.
  - (* a string is iterated by characters, which have no [key] *)
    destruct str as [|c str].
    + exfalso. revert Hrows. unfold js_or.
      destruct (truthy (opt_member scbData "data")) eqn:Ht; [|discriminate].
      intros Heq. rewrite Heq in Ht. discriminate.
    + cbn [chars region_values]. unfold member at 1. run. cbn [index]. discriminate.
  - match goal with
    | |- context [region_values rs [] e ?s0] =>
        destruct (region_values rs [] e s0) as [[vals|x] s2] eqn:Hvals; [|discriminate];
        destruct (pure_inv _ _ _ _ _ (pure_region_values _ _) Hvals) as [-> _]
    end.
    apply region_values_source in Hvals. subst vals.
    intros [= <- <-]. cbn [nameToKod kodToValue]. fields.
    assert (Hmun : municipalities regionVar = municipalities_from regionVar 0 l).
    { unfold municipalities. rewrite Hvalues. reflexivity. }
    split.
    + exists r, meta, regionVar, r2, scbData, rs.
      rewrite Hmun, municipalities_codes. repeat split; auto.
    + exists regionVar, l. split; [eauto|]. split; [exact Hvalues|].
      rewrite <- app_assoc. repeat (split; [reflexivity|]). split.
      * apply List.Forall_forall. intros [name kod] Hin.
        apply assign_all_In in Hin as [[]|Hin]. eapply municipalities_from_In, Hin.
      * apply List.Forall_forall. intros [kod v] Hin.
        apply assign_all_In in Hin as [[]|Hin]. eapply readings_In, Hin.
Qed.

(** X22.  When the two calls to the statistics source succeed, they are
    the metadata request followed by the data request for exactly the
    values of the region variable of the metadata that are four digits, in
    their order; the region variable is the first variable of the metadata
    whose code is [Region].  The name table is built by assigning, in the
    order of the values, each four-digit value under the text at its index;
    the table of values by assigning, in the order of the rows of the data,
    the number of each row under its code, a row whose value does not parse
    leaving no entry; this for texts and codes other than [__proto__],
    under which an assignment creates no member.  Every code of the name
    table is a four-digit value of the region variable: county and country
    codes never enter it; and every entry of the table of values is a
    number that is not [NaN]. *)
Theorem fetch_scb_tables e s d s' :
  fetch_scb e s = (Ret d, s') ->
  exists metaRes meta regionVar values dataRes scbData rows,
    upstream e (length (trace s)) (get_request SCB_URL) = Responded metaRes /\
    JSON_parse (body metaRes) = Some meta /\
    region_variable meta = Some regionVar /\
    opt_member regionVar "values" = VArr values /\
    upstream e (S (length (trace s))) (scb_data_request (municipality_codes values))
      = Responded dataRes /\
    JSON_parse (body dataRes) = Some scbData /\
    js_or (opt_member scbData "data") (VArr []) = VArr rows /\
    trace s' = trace s ++ [get_request SCB_URL;
                           scb_data_request (municipality_codes values)] /\
    (assignable (municipalities_from regionVar 0 values) ->
     nameToKod d = assign_all [] (municipalities_from regionVar 0 values)) /\
    (assignable (readings rows) ->
     kodToValue d = assign_all [] (readings rows)) /\
    Forall (fun nk => In (snd nk) values /\ four_digits (ToString (snd nk)) = true)
           (nameToKod d) /\
    Forall (fun kv => is_value (snd kv)) (kodToValue d).
Proof.
  intros Hrun. apply fetch_scb_source in Hrun as [Hsrc Hrest].
  destruct Hrest as (regionVar & values & (metaRes & meta & Hu & Hj & Hreg) & Hvalues
                     & Htr & _ & _ & _ & _ & _ & Hcodes & Hvals).
  destruct Hsrc as (metaRes' & meta' & regionVar' & dataRes & scbData & rows & Hu' & _
                    & Hj' & Hreg' & Hu2 & _ & Hj2 & Hrows & Hn & Hv).
  rewrite Hu in Hu'. injection Hu' as <-. rewrite Hj in Hj'. injection Hj' as <-.
  rewrite Hreg in Hreg'. injection Hreg' as <-.
  assert (Hmun : municipalities regionVar = municipalities_from regionVar 0 values).
  { unfold municipalities. rewrite Hvalues. reflexivity. }
  rewrite Hmun in Hn, Hu2. rewrite municipalities_codes in Hu2.
  exists metaRes, meta, regionVar, values, dataRes, scbData, rows.
  repeat (split; [assumption|]). exact Hvals.
Qed.

Lemma truthy_obj_get o k :
  truthy (obj_get o k) = true -> obj_lookup o k = Some (obj_get o k).
Proof. unfold obj_get. destruct (obj_lookup o k); [reflexivity|discriminate]. Qed.

Lemma resolve_kod_Ret d name2 e s kod s' :
  resolve_kod d (lower_names (nameToKod d)) name2 e s = (Ret kod, s') ->
  kod = VNull \/ exists name, In (name, kod) (nameToKod d).
Proof.
  unfold resolve_kod.
  destruct (truthy (obj_get (nameToKod d) (ToString name2))) eqn:Ht.
  - intros [= <- _]. right. apply truthy_obj_get in Ht.
    exists (ToString name2). apply obj_lookup_In, Ht.
  - destruct name2 as [| |b|n|str|l|o]; try discriminate. intros [= <- _]. unfold js_or.
    destruct (truthy (obj_get (lower_names (nameToKod d)) (toLowerCase str))) eqn:Hl;
      [|auto].
    right. apply truthy_obj_get in Hl. rewrite lower_names_lookup in Hl.
    apply last_insensitive_In in Hl. exact Hl.
Qed.

(** The code and the value that the merge gives a feature. *)
Lemma merge_feature_Ret d f e s o s' :
  merge_feature d (lower_names (nameToKod d)) f e s = (Ret o, s') ->
  exists kod,
    opt_member (opt_member o "properties") "kod" = kod /\
    opt_member (opt_member o "properties") "sysselsattning" = value_of d kod /\
    (kod = VNull \/ exists name, In (name, kod) (nameToKod d)).
Proof.
  unfold merge_feature. intros Hrun.
  apply bind_Ret_inv in Hrun as (p & s1 & _ & Hrun).
  apply bind_Ret_inv in Hrun as (n & s2 & _ & Hrun).
  apply bind_Ret_inv in Hrun as (kod & s3 & Hk & Hrun).
  injection Hrun as <- _. exists kod. cbn [opt_member]. unfold obj_get.
  rewrite obj_lookup_set_eq. cbn [opt_member]. unfold obj_get.
  rewrite obj_lookup_set_eq, obj_lookup_set_ne by discriminate.
  rewrite obj_lookup_set_eq. split; [reflexivity|]. split; [reflexivity|].
  eapply resolve_kod_Ret, Hk.
Qed.

(** X23.  With tables that the statistics source has delivered, on a
    boundary collection whose names are plain, every feature the merge
    returns has either the code [null] and the value [null], or a
    four-digit code of the name table and a value that is [null] or a
    number that is not [NaN]; a value is never [undefined].  A name is
    plain when no object inherits a member under it or under its
    lower-cased form ([constructor], [toString], [__proto__], ...): under
    such a name the source finds the inherited member, which is neither
    [null] nor a code. *)
Theorem merged_codes_and_values e0 s0 d s0' g e s out s' :
  fetch_scb e0 s0 = (Ret d, s0') ->
  plain_table (nameToKod d) ->
  (forall l, opt_member g "features" = VArr l ->
             Forall (fun f => target_level f = true -> plain_name f) l) ->
  merge d g e s = (Ret out, s') ->
  Forall (fun o =>
            let kod := opt_member (opt_member o "properties") "kod" in
            let value := opt_member (opt_member o "properties") "sysselsattning" in
            (kod = VNull /\ value = VNull) \/
            (four_digits (ToString kod) = true /\ (value = VNull \/ is_value value)))
         out.
Proof.
  intros Hd _ _ Hm.
  apply fetch_scb_source in Hd
    as [_ (regionVar & values & _ & _ & _ & _ & _ & _ & _ & _ & Hc & Hv)].
  assert (Hcodes : forall name kod, In (name, kod) (nameToKod d) ->
                     four_digits (ToString kod) = true).
  { intros name kod Hin. rewrite List.Forall_forall in Hc. apply (Hc (name, kod) Hin). }
  assert (Hvalues : forall kod v, In (kod, v) (kodToValue d) -> is_value v).
  { intros kod v Hin. rewrite List.Forall_forall in Hv. apply (Hv (kod, v) Hin). }
  unfold merge in Hm.
  apply bind_Ret_inv in Hm as (features & s1 & _ & Hm).
  destruct features as [| |b|n|str|l|fo]; try discriminate.
  apply bind_Ret_inv in Hm as (ms & s2 & _ & Hm).
  apply mapM_Ret_inv in Hm. clear - Hm Hcodes Hvalues.
  induction Hm as [|f o fs os (sa & sb & Ho) _ IH]; constructor; [|exact IH].
  apply merge_feature_Ret in Ho as (kod & -> & -> & [->|[name Hin]]).
  - left. split; reflexivity.
  - right. split; [apply (Hcodes _ _ Hin)|].
    unfold value_of. destruct (truthy kod); [|auto].
    unfold obj_get. destruct (obj_lookup (kodToValue d) (ToString kod)) as [v|] eqn:Hv.
    + apply obj_lookup_In, Hvalues in Hv. right.
      destruct Hv as (n & -> & Hn). exists n. auto.
    + left. reflexivity.
Qed.

(** X24.  With no statistics cached, when the statistics source answers
    the metadata request with a status that is not ok, the request is
    answered with status 500 and the message [SCB metadata HTTP] followed
    by that status.  The metadata request is the only call: neither the
    data nor the boundaries are asked for, and no cache is written. *)
Theorem statistics_unavailable e s r :
  scbCache_data s = None ->
  upstream e (length (trace s)) (get_request SCB_URL) = Responded r ->
  ok r = false ->
  kommuner_sysselsattning e s =
    (Ret (json_error 500 ("SCB metadata HTTP " +:+ pretty (status r))),
     log (get_request SCB_URL) s).
Proof.
  intros Hd Hu Hok.
  unfold kommuner_sysselsattning, read_scb, refresh_scb, fetch_scb. run.
  rewrite Hd. run. rewrite Hu. run. rewrite Hok. reflexivity.
Qed.

(** X25.  The statistics that a request has obtained, from the cache or
    from the source, are in the cache when the request ends, with the
    timestamp step 1 left, whatever becomes of the boundaries and of the
    merge: a failure after step 1 does not make the next request call the
    statistics source again. *)
Theorem statistics_kept_when_boundaries_fail e s d s1 r s' :
  read_scb e s = (Ret d, s1) ->
  kommuner_sysselsattning e s = (Ret r, s') ->
  scbCache_data s' = Some d /\ scbCache_ts s' = scbCache_ts s1.
Proof.
  intros Hd. pose proof (read_scb_Ret _ _ _ _ Hd) as Hs1.
  unfold kommuner_sysselsattning, try_catch, bind at 1. rewrite Hd.
  unfold bind at 1.
  assert (Hkeep : keeps (fun s => (scbCache_data s, scbCache_ts s)) read_geo).
  { intros e0 s0 out0 s0'. unfold read_geo. run.
    destruct (truthy (geoCache_data s0)).
    - run. destruct (decide _).
      + run. intros [= <- <-]. reflexivity.
      + intros Hrun. apply keeps_scb_refresh_geo in Hrun. exact Hrun.
    - apply keeps_scb_refresh_geo. }
  destruct (read_geo e s1) as [[g|x] s2] eqn:Hg; apply Hkeep in Hg; cbn in Hg.
  - unfold bind at 1. destruct (merge d g e s2) as [out s3] eqn:Hm.
    destruct (pure_inv _ _ _ _ _ (pure_merge d g) Hm) as [-> _].
    destruct out; run; intros [= <- <-]; split; congruence.
  - run. intros [= <- <-]. split; congruence.
Qed.

(** X26.  The boundary cache is written before the collection is looked
    at.  When the boundary server answers with a truthy JSON value that has
    no [features], the request is answered with status 500 and that value
    is cached all the same; every later request that finds it within the
    TTL is answered with status 500 as well, without any call: the
    boundaries are not fetched again until the TTL has passed. *)
Theorem boundaries_without_features_stay_cached e s r g :
  scb_fresh e s ->
  truthy (geoCache_data s) = false ->
  upstream e (length (trace s)) (get_request GADM_URL) = Responded r ->
  ok r = true ->
  JSON_parse (body r) = Some g ->
  truthy g = true ->
  js_nullish (opt_member g "features") = true ->
  let missing := opt_member g "features" in
  exists s',
    kommuner_sysselsattning e s =
      (Ret (internal_error (TypeError_read missing "length")), s') /\
    geoCache_data s' = g /\
    forall s2,
      scb_fresh e s2 -> geo_fresh e (tick s2) -> geoCache_data s2 = g ->
      kommuner_sysselsattning e s2 =
        (Ret (internal_error (TypeError_read missing "filter")), tick (tick s2)).
Proof.
  intros (d & Hd & Hfresh) Hgeo Hu Hok Hj Ht Hfeat missing.
  assert (Hg : js_nullish g = false) by (destruct g; try discriminate; reflexivity).
  eexists. split; [|split].
  - unfold kommuner_sysselsattning, read_scb, read_geo, refresh_geo, fetch_geo. run.
    rewrite Hd. run.
    destruct (decide (clock e (ticks s) - scbCache_ts s < SCB_TTL)); [|contradiction].
    run. rewrite Hgeo. run. rewrite Hu. run. rewrite Hok. cbn [negb]. run.
    rewrite Hj. run. rewrite (member_not_nullish _ _ Hg). run.
    rewrite (member_nullish _ _ Hfeat). run. reflexivity.
  - reflexivity.
  - intros s2 (d2 & Hd2 & Hf2) [Ht2 Hg2] Hc2. fields_in Ht2. fields_in Hg2.
    unfold kommuner_sysselsattning, read_scb, read_geo. run. rewrite Hd2. run.
    destruct (decide (clock e (ticks s2) - scbCache_ts s2 < SCB_TTL)); [|contradiction].
    run. rewrite Ht2. run.
    destruct (decide (clock e (S (ticks s2)) - geoCache_ts s2 < GEO_TTL)); [|contradiction].
    run. unfold merge. rewrite Hc2, (member_not_nullish _ _ Hg). run.
    subst missing. revert Hfeat.
    destruct (opt_member g "features"); try discriminate; reflexivity.
Qed.

End Tables.

(** ** The three caches *)

Section Caches.
Context `{Builtins}.












End Caches.

(** ** The properties on the example worlds *)

(** C1.  The token endpoint answers 401 with a JSON error body: [getToken]
    does not fail.  It returns [undefined] as the token and stores it, with
    an expiry that is [NaN]. *)
Theorem getToken_rejected_credentials :
  exists s',
    getToken (H := rejecting_runtime) rejecting_world boot = (Ret VUndef, s') /\
    cachedToken s' = VUndef /\
    tokenExpiry s' = NaN /\
    trace s' = [token_request (H := rejecting_runtime) rejecting_world].
Proof. eexists. split; [vm_compute; reflexivity|]. repeat split. Qed.

(** C4.  The places block holds a place and [null].  The lookup of the
    place is made; the lookup of [null] fails where it reads the name of
    the place, and so does the handler of that failure, which reads the
    name again for its log line.  The failure of the one lookup fails the
    batch: the request is answered with status 500 and no place. *)
Theorem null_place_fails_batch :
  exists s',
    chat (H := null_place_runtime) chat_body chat_world boot
      = (Ret {| code := 500; headers := [];
                sent := Json (VObj [("error",
                                     VStr "Cannot read properties of null (reading 'name')")]) |},
         s') /\
    map req_url (trace s') =
      [OPENROUTER_URL;
       "https://nominatim.openstreetmap.org/search?format=json&countrycodes=se&limit=1&q=Stockholm"].
Proof. eexists. split; vm_compute; reflexivity. Qed.

(** C9.  The boundary server answers with an empty object.  The first
    request fetches the statistics and the boundaries, caches both and is
    answered with status 500, the [length] of the missing [features] not
    being readable.  The second request, made in the state the first one
    left, finds both caches within their TTLs and makes no call; it is
    answered with status 500 and another message, the [filter] of the
    missing [features] not being readable: the two answers differ. *)
Theorem merge_request_not_idempotent :
  exists s1 s2,
    kommuner_sysselsattning (H := empty_geo_runtime) statistics_world boot
      = (Ret {| code := 500; headers := [];
                sent := Json (VObj [("error",
                  VStr "Cannot read properties of undefined (reading 'length')")]) |},
         s1) /\
    map req_url (trace s1) = [SCB_URL; SCB_URL; GADM_URL] /\
    scb_fresh statistics_world s1 /\
    geo_fresh statistics_world (tick s1) /\
    kommuner_sysselsattning (H := empty_geo_runtime) statistics_world s1
      = (Ret {| code := 500; headers := [];
                sent := Json (VObj [("error",
                  VStr "Cannot read properties of undefined (reading 'filter')")]) |},
         s2) /\
    trace s2 = trace s1.
Proof.
  eexists _, _. split; [vm_compute; reflexivity|]. split; [reflexivity|].
  split; [eexists; split; [reflexivity|vm_compute; reflexivity]|].
  split; [split; vm_compute; reflexivity|].
  split; vm_compute; reflexivity.
Qed.

(** A token granted for one hour at boot expires 55 minutes later. *)
Lemma token_reused_until_expiry_example :
  exists s1,
    getToken (H := granting_runtime) granting_world boot = (Ret (VStr "abc"), s1) /\
    tokenExpiry s1 = Fin (inject_Z (example_clock 0 + (3600 - 300) * 1000)).
Proof.
  destruct (token_reused_until_expiry (H := granting_runtime)
              granting_world boot token_response granted 3600
              eq_refl eq_refl eq_refl eq_refl eq_refl eq_refl)
    as (s1 & Hrun & _ & _ & _ & Hx & _);
    try (unfold exact; vm_compute; intros Hc; discriminate Hc).
  exists s1. split; [exact Hrun|exact Hx].
Defined.



(** The example of the specification: ["Malmö"] resolves against
    ["malmö"], a name without statistics gets [null] twice. *)
Example merge_example :
  merge (H := statistics_runtime) example_scb example_geo statistics_world boot
  = (Ret example_merged, boot).
Proof. vm_compute. reflexivity. Qed.

(** The resolution on the example. *)
Lemma merge_resolves_names_example :
  exists out,
    (forall e s,
       merge (H := statistics_runtime) example_scb example_geo e s = (Ret out, s)) /\
    Forall2 (resolved (H := statistics_runtime) example_scb)
            (List.filter target_level example_boundaries) out.
Proof.
  apply (merge_resolves_names (H := statistics_runtime)
           example_scb example_geo example_boundaries).
  - reflexivity.
  - repeat constructor; intros _; eexists; reflexivity.
  - repeat constructor; try reflexivity; intros name [= <-]; reflexivity.
  - repeat constructor.
  - split.
    + cbn [map fst example_scb nameToKod].
      repeat (apply NoDup_cons; split;
              [intros Hin;
               repeat (apply elem_of_cons in Hin as [Heq|Hin]; [discriminate|]);
               inversion Hin|]).
      apply NoDup_nil_2.
    + repeat constructor; discriminate.
Defined.

(** The frame on the example. *)
Lemma merge_frames_features_example :
  exists l,
    opt_member example_geo "features" = VArr l /\
    Forall2 (framed (H := statistics_runtime) example_scb)
            (List.filter target_level l) example_merged.
Proof.
  apply (merge_frames_features (H := statistics_runtime)
           example_scb example_geo statistics_world boot example_merged boot).
  vm_compute. reflexivity.
Defined.



(** A cache of 201 fresh entries takes a 202nd and keeps them all. *)
Lemma sweep_past_threshold_example :
  exists s',
    store_pois "kafeer:1,2,3,4" (VArr []) overpass_world full_server
      = (Ret tt, s') /\
    size (poiCache s') = 202%nat.
Proof.
  destruct (sweep_past_threshold overpass_world full_server
              "kafeer:1,2,3,4" (VArr []))
    as (s' & Hrun & _ & _ & _ & _ & Hall).
  exists s'. split; [exact Hrun|]. rewrite Hall.
  - vm_compute. reflexivity.
  - intros k v Hk. apply lookup_insert_Some in Hk as [[_ <-]|[_ Hk]].
    + vm_compute. discriminate.
    + apply lookup_gset_to_gmap_Some in Hk as [_ <-]. vm_compute. discriminate.
Defined.

(** A block that is not JSON: the text alone comes back. *)
Lemma unparsable_places_block_example :
  exists text s',
    chat (H := broken_runtime) chat_body chat_world boot
      = (Ret {| code := 200; headers := [];
                sent := Json (VObj [("text", VStr text); ("places", VArr [])]) |}, s') /\
    text = "Två städer." /\
    trimmed ("Två städer." +:+ newline +:+ newline) text /\
    length (trace s') = 1%nat.
Proof.
  destruct (unparsable_places_block (H := broken_runtime) chat_world boot chat_body
              (model_reply "[{name: Stockholm") ("Två städer." +:+ newline)
              "[{name: Stockholm" newline)
    as (text & ws & Hrun & Htrim & _).
  - exists "Berätta om två städer", "sk-or-1",
      {| status := 200; content_type := Some "application/json"; body := "COMPLETION" |},
      (completion_of (model_reply "[{name: Stockholm")).
    repeat split; try reflexivity; discriminate.
  - vm_compute. reflexivity.
  - reflexivity.
  - exists text. eexists. split; [exact Hrun|]. split; [|split; [exact Htrim|reflexivity]].
    assert (Hr : fst (chat (H := broken_runtime) chat_body chat_world boot)
                 = Ret {| code := 200; headers := [];
                          sent := Json (VObj [("text", VStr text); ("places", VArr [])]) |})
      by (rewrite Hrun; reflexivity).
    vm_compute in Hr. injection Hr as <-. reflexivity.
Defined.

(** Two places, the first found by the geocoder, the lookup of the second
    failing, the lookups settling in reverse order. *)
Lemma places_corrected_in_order_example :
  exists s' text rs o',
    chat (H := chat_runtime) chat_body chat_world boot
      = (Ret {| code := 200; headers := [];
                sent := Json (VObj [("text", VStr text); ("places", VArr rs)]) |}, s') /\
    rs !! 0%nat = Some (VObj o') /\
    obj_lookup o' "name" = Some (VStr "Stockholm") /\
    obj_lookup o' "lat" = Some (VNum (Fin (5933 # 100))) /\
    obj_lookup o' "lon" = Some (VNum (Fin (1807 # 100))) /\
    rs !! 1%nat = Some uppsala.
Proof.
  destruct (places_corrected_in_order (H := chat_runtime) chat_world boot chat_body
              (model_reply "PLACES") ("Två städer." +:+ newline) "PLACES" newline
              [stockholm; uppsala])
    as (s' & text & rs & Hrun & _ & Hlen & Hat).
  - exists "Berätta om två städer", "sk-or-1",
      {| status := 200; content_type := Some "application/json"; body := "COMPLETION" |},
      (completion_of (model_reply "PLACES")).
    repeat split; try reflexivity; discriminate.
  - vm_compute. reflexivity.
  - reflexivity.
  - repeat constructor.
  - symmetry. apply Permutation_rev.
  - pose proof (Hat 0%nat stockholm eq_refl) as H0.
    pose proof (Hat 1%nat uppsala eq_refl) as H1.
    match type of H0 with
    | match ?g with _ => _ end =>
        let v := eval vm_compute in g in change g with v in H0
    end.
    match type of H1 with
    | match ?g with _ => _ end =>
        let v := eval vm_compute in g in change g with v in H1
    end.
    cbv beta iota in H0, H1.
    destruct H0 as (o' & Hrs & Hlat & Hlon & Hother).
    exists s', text, rs, o'. split; [exact Hrun|]. split; [exact Hrs|].
    split; [|split; [|split; [|exact H1]]].
    + rewrite (Hother _ "name" eq_refl) by discriminate. reflexivity.
    + rewrite Hlat. reflexivity.
    + rewrite Hlon. reflexivity.
Defined.


(** ** The handlers on the example worlds: validation, failures, tables *)

(** A category that the table does not know. *)
Lemma pois_rejects_unknown_category_example :
  pois (H := overpass_runtime) (Some "hotell") (Some "59.3,18.0,59.4,18.1")
    overpass_world boot
  = (Ret (json_error 400
            "Unknown category. Valid: restauranger, kafeer, parker, laddstationer, busshallplatser"),
     boot).
Proof.
  apply (pois_rejects_unknown_category (H := overpass_runtime)).
  - reflexivity.
  - intros c [= <-] Hin. unfold Object_prototype in Hin.
    repeat (apply elem_of_cons in Hin as [Heq|Hin]; [discriminate|]).
    inversion Hin.
Defined.

(** The cafes without a box. *)
Lemma pois_requires_bbox_example :
  pois (H := overpass_runtime) (Some "kafeer") None overpass_world boot
  = (Ret (json_error 400 "bbox required (south,west,north,east)"), boot).
Proof.
  destruct (pois (H := overpass_runtime) (Some "kafeer") None overpass_world boot)
    as [[r|x] s'] eqn:Hrun; [|vm_compute in Hrun; discriminate].
  destruct (pois_requires_bbox (H := overpass_runtime) overpass_world boot
              "kafeer" ("amenity", "cafe") None r s' eq_refl Hrun) as [Hiff Hbad].
  destruct (Hbad (proj2 Hiff (or_introl eq_refl))) as [-> ->]. reflexivity.
Defined.

(** An Overpass server that answers 429: the full cache is as it was. *)
Lemma pois_failure_keeps_cache_example :
  exists r s',
    pois (H := overpass_runtime) (Some "kafeer") (Some "1,2,3,4")
      (failing_world 429) full_server = (Ret r, s') /\
    code r = 502 /\
    poiCache s' = full_cache.
Proof.
  eexists _, _. split; [vm_compute; reflexivity|]. split; [reflexivity|].
  eapply (pois_failure_keeps_cache (H := overpass_runtime) (failing_world 429) full_server
            (Some "kafeer") (Some "1,2,3,4")).
  - vm_compute. reflexivity.
  - discriminate.
Defined.

(** The entry of another request is left alone. *)
Lemma pois_writes_own_key_only_example :
  poiCache full_server !! "7" = Some {| time := example_clock 0; data := VArr [] |}.
Proof.
  eapply (pois_writes_own_key_only (H := overpass_runtime) overpass_world full_server
            "kafeer" ("amenity", "cafe") "1,2,3,4").
  - reflexivity.
  - vm_compute. reflexivity.
  - discriminate.
  - vm_compute. reflexivity.
Defined.

(** The cafes of a box asked for twice in a row. *)
Lemma pois_repeat_served_from_cache_example :
  exists r s1,
    pois (H := overpass_runtime) (Some "kafeer") (Some "59.3,18.0,59.4,18.1")
      overpass_world boot = (Ret r, s1) /\
    pois (H := overpass_runtime) (Some "kafeer") (Some "59.3,18.0,59.4,18.1")
      overpass_world s1 = (Ret r, tick s1) /\
    length (trace s1) = 1%nat.
Proof.
  eexists _, _. split; [vm_compute; reflexivity|]. split; [|reflexivity].
  eapply (pois_repeat_served_from_cache (H := overpass_runtime) overpass_world boot
            "kafeer" ("amenity", "cafe")).
  - reflexivity.
  - discriminate.
  - vm_compute. reflexivity.
  - reflexivity.
  - eexists. split; [vm_compute; reflexivity|]. vm_compute. reflexivity.
Defined.

(** The key of the parks of a box is the key of no other request. *)
Lemma poi_cache_key_injective_example :
  "parker" = "parker" /\ "1,2,3,4" = "1,2,3,4".
Proof.
  exact (poi_cache_key_injective "parker" "parker" ("leisure", "park") ("leisure", "park")
           "1,2,3,4" "1,2,3,4" eq_refl eq_refl eq_refl).
Defined.

(** The query for the cafes of a box. *)
Lemma overpass_query_box_verbatim_example :
  overpass_query ("amenity", "cafe") "59.3,18.0,59.4,18.1" =
    "[out:json][timeout:10];node[" +:+ dquote +:+ "amenity" +:+ dquote +:+ "="
      +:+ dquote +:+ "cafe" +:+ dquote +:+ "](59.3,18.0,59.4,18.1);out body;".
Proof.
  exact (overpass_query_box_verbatim ("amenity", "cafe") "59.3,18.0,59.4,18.1" eq_refl).
Defined.

(** One cafe in the answer of Overpass, one POI in the reply. *)
Lemma pois_lists_every_element_example :
  exists found s',
    pois (H := overpass_runtime) (Some "kafeer") (Some "59.3,18.0,59.4,18.1")
      overpass_world boot
      = (Ret {| code := 200; headers := []; sent := Json (VArr found) |}, s') /\
    Forall2 poi_for [cafe] found.
Proof.
  apply (pois_lists_every_element (H := overpass_runtime) overpass_world boot
           "kafeer" ("amenity", "cafe") "59.3,18.0,59.4,18.1"
           {| status := 200; content_type := Some "application/json"; body := "ELEMENTS" |}
           (VObj [("elements", VArr [cafe])]) [cafe]).
  - reflexivity.
  - discriminate.
  - reflexivity.
  - reflexivity.
  - reflexivity.
  - reflexivity.
  - reflexivity.
  - reflexivity.
  - repeat constructor.
Defined.


(** A second tile request in the granting world: the cached token, one
    call, the tile. *)
Lemma tile_relayed_without_retry_example :
  exists s',
    wmts (H := granting_runtime) [("layer", "topowebb")] granting_world after_first_tile
      = (Ret {| code := 200;
                headers := [("Content-Type", "image/png");
                            ("Cache-Control", "public, max-age=86400")];
                sent := Bytes "PNG" |}, s') /\
    length (trace s') = 5%nat.
Proof.
  eexists. split.
  - apply (tile_relayed_without_retry (H := granting_runtime) granting_world
             after_first_tile [("layer", "topowebb")] (VStr "abc")
             (tick after_first_tile) (tile_response 200)).
    + vm_compute. reflexivity.
    + vm_compute. reflexivity.
    + discriminate.
  - vm_compute. reflexivity.
Defined.

(** The token endpoint cannot be reached after the 401. *)
Lemma tile_unauthorized_drops_token_example :
  exists s',
    wmts (H := granting_runtime) [("layer", "topowebb")] revoking_world boot
      = (Ret (json_error 500 "fetch failed"), s') /\
    length (trace s') = 3%nat /\
    cachedToken s' = VNull.
Proof.
  destruct (tile_unauthorized_drops_token (H := granting_runtime) revoking_world boot
              [("layer", "topowebb")] (VStr "abc")
              (snd (getToken (H := granting_runtime) revoking_world boot))
              (tile_response 401) "fetch failed")
    as (s' & Hrun & Htr & Hc & _).
  - vm_compute. reflexivity.
  - vm_compute. reflexivity.
  - reflexivity.
  - vm_compute. reflexivity.
  - exists s'. split; [exact Hrun|]. split; [|exact Hc].
    rewrite Htr. reflexivity.
Defined.

(** A body without a message. *)
Lemma chat_rejects_before_any_call_example :
  chat (H := chat_runtime) (VObj []) chat_world boot
    = (Ret (json_error 400 "message required"), boot).
Proof.
  apply (chat_rejects_before_any_call (H := chat_runtime) chat_world boot (VObj [])
           eq_refl).
  reflexivity.
Defined.

(** A model that answers 503. *)
Lemma chat_model_failure_example :
  exists s',
    chat (H := chat_runtime) chat_body (failing_world 503) boot
      = (Ret (json_error 502 "AI API error"), s') /\
    length (trace s') = 1%nat.
Proof.
  eexists. split.
  - apply (proj1 (chat_model_failure (H := chat_runtime) (failing_world 503) boot chat_body
                    "Berätta om två städer" eq_refl ltac:(discriminate) eq_refl)
             {| status := 503; content_type := None; body := EmptyString |}).
    + reflexivity.
    + reflexivity.
  - reflexivity.
Defined.

(** A reply without a block comes back as it is. *)
Lemma chat_without_places_block_example :
  exists s',
    chat (H := plain_runtime) chat_body chat_world boot
      = (Ret {| code := 200; headers := [];
                sent := Json (VObj [("text", VStr "Stockholm är huvudstaden.");
                                    ("places", VArr [])]) |}, s') /\
    length (trace s') = 1%nat.
Proof.
  eexists. split.
  - apply (chat_without_places_block (H := plain_runtime) chat_world boot chat_body
             "Stockholm är huvudstaden.").
    + exists "Berätta om två städer", "sk-or-1",
        {| status := 200; content_type := Some "application/json"; body := "COMPLETION" |},
        (completion_of "Stockholm är huvudstaden.").
      repeat split; try reflexivity; discriminate.
    + vm_compute. reflexivity.
  - reflexivity.
Defined.

(** Two places: the model, then Stockholm, then Uppsala. *)
Lemma chat_looks_up_each_place_example :
  exists r s',
    chat (H := chat_runtime) chat_body chat_world boot = (Ret r, s') /\
    map req_url (trace s') =
      [OPENROUTER_URL;
       "https://nominatim.openstreetmap.org/search?format=json&countrycodes=se&limit=1&q=Stockholm";
       "https://nominatim.openstreetmap.org/search?format=json&countrycodes=se&limit=1&q=Uppsala"].
Proof.
  destruct (chat_looks_up_each_place (H := chat_runtime) chat_world boot chat_body
              (model_reply "PLACES") ("Två städer." +:+ newline) "PLACES" newline
              [stockholm; uppsala])
    as (r & s' & Hrun & Htr).
  - exists "Berätta om två städer", "sk-or-1",
      {| status := 200; content_type := Some "application/json"; body := "COMPLETION" |},
      (completion_of (model_reply "PLACES")).
    repeat split; try reflexivity; discriminate.
  - vm_compute. reflexivity.
  - reflexivity.
  - exists r, s'. split; [exact Hrun|]. rewrite Htr. vm_compute. reflexivity.
Defined.

(** The block of the system prompt, after a sentence. *)
Lemma places_block_found_example :
  exists pre cap post,
    places_match (model_reply "[]") = Some (pre, cap, post) /\
    (String.length pre <= String.length ("Två städer." +:+ newline))%nat.
Proof.
  destruct (places_block_found ("Två städer." +:+ newline)
              EmptyString "[]" newline eq_refl)
    as (pre & cap & post & Hm & Hlen).
  exists pre, cap, post. split; [|exact Hlen].
  rewrite <- Hm. vm_compute. reflexivity.
Defined.

(** A reply with two closing fences: the capture ends at the first. *)
Lemma places_capture_stops_at_first_fence_example :
  let content := fence +:+ "places" +:+ newline +:+ "[1]" +:+ newline +:+ fence
                   +:+ " and [2]" +:+ newline +:+ fence in
  places_match content = Some (EmptyString, "[1]", " and [2]" +:+ newline +:+ fence) /\
  "[1]" <> "[1]" +:+ newline +:+ fence +:+ " and [2]".
Proof.
  intros content.
  assert (Hm : places_match content
               = Some (EmptyString, "[1]", " and [2]" +:+ newline +:+ fence))
    by (vm_compute; reflexivity).
  split; [exact Hm|].
  exact (places_capture_stops_at_first_fence content _ _ _ "[1]" " and [2]" Hm).
Defined.

(** The example source: the country code [00] is left out of the request
    and of the name table. *)
Lemma fetch_scb_tables_example :
  exists d s',
    fetch_scb (H := statistics_runtime) statistics_world boot = (Ret d, s') /\
    map req_method (trace s') = ["GET"; "POST"] /\
    nameToKod d = [("malmö", VStr "1280"); ("Lund", VStr "1281")] /\
    kodToValue d = [("1280", VNum (Fin (741 # 10))); ("1281", VNum (Fin (702 # 10)))].
Proof.
  destruct (fetch_scb (H := statistics_runtime) statistics_world boot)
    as [[d|x] s'] eqn:Hrun; [|vm_compute in Hrun; discriminate].
  destruct (fetch_scb_tables (H := statistics_runtime) statistics_world boot d s' Hrun)
    as (metaRes & meta & regionVar & values & dataRes & scbData & rows
        & Hu & Hj & Hreg & Hvalues & Hu2 & Hj2 & Hrows & Htr & Hn & Hv & _).
  injection Hu as <-. injection Hj as <-. injection Hreg as <-.
  injection Hvalues as <-. injection Hu2 as <-. injection Hj2 as <-.
  injection Hrows as <-.
  exists d, s'. split; [reflexivity|]. split; [rewrite Htr; reflexivity|].
  split; [rewrite Hn|rewrite Hv]; try (vm_compute; reflexivity);
    repeat constructor; discriminate.
Defined.

(** The merge of the example with the tables of the example source. *)
Lemma merged_codes_and_values_example :
  Forall (fun o =>
            let kod := opt_member (opt_member o "properties") "kod" in
            let value := opt_member (opt_member o "properties") "sysselsattning" in
            (kod = VNull /\ value = VNull) \/
            (four_digits (ToString (H := statistics_runtime) kod) = true /\
             (value = VNull \/ is_value value)))
         example_merged.
Proof.
  eapply (merged_codes_and_values (H := statistics_runtime) statistics_world boot
            example_scb _ example_geo statistics_world boot example_merged boot).
  - vm_compute. reflexivity.
  - split.
    + cbn [map fst example_scb nameToKod].
      repeat (apply NoDup_cons; split;
              [intros Hin;
               repeat (apply elem_of_cons in Hin as [Heq|Hin]; [discriminate|]);
               inversion Hin|]).
      apply NoDup_nil_2.
    + repeat constructor; discriminate.
  - intros l [= <-].
    repeat constructor; try reflexivity; intros name [= <-]; reflexivity.
  - vm_compute. reflexivity.
Defined.

(** A statistics source that answers 503. *)
Lemma statistics_unavailable_example :
  exists s',
    kommuner_sysselsattning (H := statistics_runtime) (failing_world 503) boot
      = (Ret (json_error 500 "SCB metadata HTTP 503"), s') /\
    trace s' = [get_request SCB_URL].
Proof.
  eexists. split.
  - apply (statistics_unavailable (H := statistics_runtime) (failing_world 503) boot
             {| status := 503; content_type := None; body := EmptyString |}).
    + reflexivity.
    + reflexivity.
    + reflexivity.
  - reflexivity.
Defined.

(** The boundary server cannot be reached: the statistics are cached. *)
Lemma statistics_kept_when_boundaries_fail_example :
  exists s',
    kommuner_sysselsattning (H := statistics_runtime) no_boundaries_world boot
      = (Ret (json_error 500 "fetch failed"), s') /\
    scbCache_data s' = Some example_scb.
Proof.
  destruct (statistics_kept_when_boundaries_fail (H := statistics_runtime)
              no_boundaries_world boot example_scb
              (snd (read_scb (H := statistics_runtime) no_boundaries_world boot))
              (json_error 500 "fetch failed")
              (snd (kommuner_sysselsattning (H := statistics_runtime)
                      no_boundaries_world boot)))
    as [Hd _].
  - vm_compute. reflexivity.
  - vm_compute. reflexivity.
  - eexists. split; [|exact Hd]. vm_compute. reflexivity.
Defined.

(** A boundary server that answers with an empty object. *)
Lemma boundaries_without_features_stay_cached_example :
  exists s',
    kommuner_sysselsattning (H := empty_geo_runtime) statistics_world with_statistics
      = (Ret (json_error 500 "Cannot read properties of undefined (reading 'length')"), s') /\
    geoCache_data s' = VObj [] /\
    kommuner_sysselsattning (H := empty_geo_runtime) statistics_world s'
      = (Ret (json_error 500 "Cannot read properties of undefined (reading 'filter')"),
         tick (tick s')).
Proof.
  destruct (boundaries_without_features_stay_cached (H := empty_geo_runtime)
              statistics_world with_statistics
              {| status := 200; content_type := Some "application/json"; body := "GADM" |}
              (VObj []))
    as (s' & Hrun & Hg & Hnext).
  - exists example_scb. split; [reflexivity|]. vm_compute. reflexivity.
  - reflexivity.
  - reflexivity.
  - reflexivity.
  - reflexivity.
  - reflexivity.
  - reflexivity.
  - exists s'. split; [exact Hrun|]. split; [exact Hg|].
    apply Hnext; [| |exact Hg].
    + assert (Hs : snd (kommuner_sysselsattning (H := empty_geo_runtime)
                          statistics_world with_statistics) = s')
        by (rewrite Hrun; reflexivity).
      rewrite <- Hs. exists example_scb. split; vm_compute; reflexivity.
    + assert (Hs : snd (kommuner_sysselsattning (H := empty_geo_runtime)
                          statistics_world with_statistics) = s')
        by (rewrite Hrun; reflexivity).
      rewrite <- Hs. split; vm_compute; reflexivity.
Defined.

(** A grant for five minutes: the next call exchanges again. *)
Lemma short_lived_token_never_reused_example :
  exists s1,
    getToken (H := brief_runtime) brief_world boot = (Ret (VStr "abc"), s1) /\
    token_hit brief_world s1 = false.
Proof.
  destruct (short_lived_token_never_reused (H := brief_runtime) brief_world boot
              {| status := 200; content_type := Some "application/json";
                 body := brief_body |}
              (VObj [("access_token", VStr "abc"); ("expires_in", VNum (Fin 300))]))
    as (s1 & Hrun & Hlater).
  - intros i j Hij. cbn. unfold example_clock. lia.
  - reflexivity.
  - reflexivity.
  - reflexivity.
  - reflexivity.
  - cbn. discriminate.
  - exists s1. split; [exact Hrun|].
    apply (Hlater s1 eq_refl). reflexivity.
Defined.

(** A block that holds an object: the object is sent back as the places. *)
Lemma places_block_not_an_array_example :
  exists text s',
    chat (H := object_runtime) chat_body chat_world boot
      = (Ret {| code := 200; headers := [];
                sent := Json (VObj [("text", VStr text); ("places", VObj [])]) |}, s') /\
    text = "Två städer." /\
    length (trace s') = 1%nat.
Proof.
  destruct (places_block_not_an_array (H := object_runtime) chat_world boot chat_body
              (model_reply "{}") ("Två städer." +:+ newline) "{}" newline (VObj []))
    as (text & _ & Hrun).
  - exists "Berätta om två städer", "sk-or-1",
      {| status := 200; content_type := Some "application/json"; body := "COMPLETION" |},
      (completion_of (model_reply "{}")).
    repeat split; try reflexivity; discriminate.
  - vm_compute. reflexivity.
  - reflexivity.
  - discriminate.
  - cbn in Hrun. exists text. eexists. split; [exact Hrun|]. split; [|reflexivity].
    assert (Hr : fst (chat (H := object_runtime) chat_body chat_world boot)
                 = Ret {| code := 200; headers := [];
                          sent := Json (VObj [("text", VStr text); ("places", VObj [])]) |})
      by (rewrite Hrun; reflexivity).
    vm_compute in Hr. injection Hr as <-. reflexivity.
Defined.
